(** * torch2pprof: the event-to-profile conversion engine

    A shallow embedding of [internal/profile/profile.go] (the profile data
    model, the protobuf encoder and the interning Builder) and of the
    conversion half of [internal/converter] (thread grouping, stack
    reconstruction, aggregation), followed by the properties of the
    specification that were checked against them.

    Conventions.
    - Go's [int64] and [uint64] are [Z]; the places where the Go code can
      wrap around are written with [int64] and [uint64] below.
    - Go's [float64] is the kernel's binary64 type [float].
    - Go strings are byte strings: [string].
    - Go maps are [gmap]s.
    - Struct fields keep their Go names, prefixed by the struct's name. *)

From Stdlib Require Import ZArith List String Ascii Lia Permutation Sorted.
From Stdlib Require Import Floats.
From stdpp Require Import base gmap list strings fin_maps.

Open Scope Z_scope.

(** ** Machine integers *)

(** [int64(x)] for an integer [x]: two's complement wrap-around. *)
Definition int64 (z : Z) : Z := (z + 2 ^ 63) mod 2 ^ 64 - 2 ^ 63.

(** [uint64(x)] for an integer [x]. *)
Definition uint64 (z : Z) : Z := z mod 2 ^ 64.

(** [byte(x)] for an integer [x]. *)
Definition byte (z : Z) : Z := z mod 256.

(** [int64(x)] for a [float64] [x]: truncation toward zero.  Go leaves the
    result implementation-dependent when [x] is NaN, infinite or out of
    range; the value taken here is the one amd64 produces. *)
Definition int64_of_float (x : float) : Z :=
  match Prim2SF x with
  | S754_zero _ => 0
  | S754_finite s m e =>
      let mag := if 0 <=? e then Z.shiftl (Zpos m) e else Z.shiftr (Zpos m) (- e) in
      let v := if s then - mag else mag in
      if (- 2 ^ 63 <=? v) && (v <? 2 ^ 63) then v else - 2 ^ 63
  | _ => - 2 ^ 63
  end.

(** The one-byte string ["\x00"]. *)
Definition NUL : string := String (ascii_of_nat 0) EmptyString.

(** ** Package profile *)

Module profile.

Record ValueType := {
  ValueType_Type : Z;
  ValueType_Unit : Z
}.

Record Sample := {
  Sample_LocationId : list Z;
  Sample_Value : list Z
}.

Record Line := {
  Line_FunctionId : Z;
  Line_Line : Z
}.

Record Location := {
  Location_Id : Z;
  Location_Line : list Line
}.

Record Function := {
  Function_Id : Z;
  Function_Name : Z;
  Function_SystemName : Z;
  Function_Filename : Z
}.

Record Profile := {
  Profile_SampleType : list ValueType;
  Profile_Sample : list Sample;
  Profile_Location : list Location;
  Profile_Function : list Function;
  Profile_StringTable : list string;
  Profile_TimeNanos : Z;
  Profile_DurationNanos : Z;
  Profile_PeriodType : option ValueType;
  Profile_Period : Z
}.

(** *** The encoder *)

(** [encodeVarint]: the loop [for v >= 0x80] shifts [v] right by seven bits
    each round, so it runs at most [log2 v / 7] times (nine times for a
    [uint64]); [fuel] bounds the rounds. *)
Fixpoint encodeVarint_loop (fuel : nat) (v : Z) : list Z :=
  match fuel with
  | O => [byte v]
  | S fuel' =>
      if 128 <=? v
      then Z.lor (byte v) 128 :: encodeVarint_loop fuel' (Z.shiftr v 7)
      else [byte v]
  end.

Definition encodeVarint (v : Z) : list Z :=
  encodeVarint_loop (Z.to_nat (Z.log2 v)) v.

Definition encodeTag (fieldNum wireType : Z) : list Z :=
  encodeVarint (uint64 (Z.lor (Z.shiftl fieldNum 3) wireType)).

(** [len(x)].  A length is a non-negative [int], so its conversions to
    [int64] and [uint64] are the identity and are not written. *)
Definition len {A} (l : list A) : Z := Z.of_nat (length l).

(** The three appends every length-delimited field is written with. *)
Definition appendMessage (buf : list Z) (fieldNum : Z) (msg : list Z) : list Z :=
  buf ++ encodeTag fieldNum 2 ++ encodeVarint (len msg) ++ msg.

Definition encodeValueType (vt : ValueType) : list Z :=
  encodeTag 1 0 ++ encodeVarint (uint64 (ValueType_Type vt)) ++
  encodeTag 2 0 ++ encodeVarint (uint64 (ValueType_Unit vt)).

Definition packed (vs : list Z) : list Z := concat (map encodeVarint vs).

Definition encodeSample (s : Sample) : list Z :=
  let buf := [] in
  let buf :=
    if 0 <? len (Sample_LocationId s)
    then appendMessage buf 1 (packed (Sample_LocationId s))
    else buf in
  if 0 <? len (Sample_Value s)
  then appendMessage buf 2 (packed (map uint64 (Sample_Value s)))
  else buf.

Definition encodeLine (line : Line) : list Z :=
  let buf := encodeTag 1 0 ++ encodeVarint (Line_FunctionId line) in
  if Line_Line line =? 0 then buf
  else buf ++ encodeTag 2 0 ++ encodeVarint (uint64 (Line_Line line)).

Definition encodeLocation (loc : Location) : list Z :=
  fold_left (fun buf line => appendMessage buf 4 (encodeLine line))
    (Location_Line loc)
    (encodeTag 1 0 ++ encodeVarint (Location_Id loc)).

Definition encodeFunction (fn : Function) : list Z :=
  encodeTag 1 0 ++ encodeVarint (Function_Id fn) ++
  encodeTag 2 0 ++ encodeVarint (uint64 (Function_Name fn)) ++
  encodeTag 3 0 ++ encodeVarint (uint64 (Function_SystemName fn)) ++
  encodeTag 4 0 ++ encodeVarint (uint64 (Function_Filename fn)).

(** [[]byte(s)] *)
Definition bytes_of_string (s : string) : list Z :=
  map (fun c => Z.of_nat (nat_of_ascii c)) (list_ascii_of_string s).

(** [Encode] never returns an error: the model returns the bytes. *)
Definition Encode (p : Profile) : list Z :=
  let buf := [] in
  let buf := fold_left (fun buf st => appendMessage buf 1 (encodeValueType st))
               (Profile_SampleType p) buf in
  let buf := fold_left (fun buf s => appendMessage buf 2 (encodeSample s))
               (Profile_Sample p) buf in
  let buf := fold_left (fun buf loc => appendMessage buf 4 (encodeLocation loc))
               (Profile_Location p) buf in
  let buf := fold_left (fun buf fn => appendMessage buf 5 (encodeFunction fn))
               (Profile_Function p) buf in
  let buf := fold_left (fun buf s => appendMessage buf 6 (bytes_of_string s))
               (Profile_StringTable p) buf in
  let buf :=
    if Profile_TimeNanos p =? 0 then buf
    else buf ++ encodeTag 9 0 ++ encodeVarint (uint64 (Profile_TimeNanos p)) in
  let buf :=
    if Profile_DurationNanos p =? 0 then buf
    else buf ++ encodeTag 10 0 ++ encodeVarint (uint64 (Profile_DurationNanos p)) in
  let buf :=
    match Profile_PeriodType p with
    | Some pt => appendMessage buf 11 (encodeValueType pt)
    | None => buf
    end in
  if Profile_Period p =? 0 then buf
  else buf ++ encodeTag 12 0 ++ encodeVarint (uint64 (Profile_Period p)).

(** *** The Builder *)

Record Builder := {
  Builder_profile : Profile;
  stringIndex : gmap string Z;
  functionIndex : gmap string Z;
  locationIndex : gmap string Z
}.

(** Field updates of the profile the Builder owns. *)
Definition with_StringTable (p : Profile) (t : list string) : Profile :=
  {| Profile_SampleType := Profile_SampleType p;
     Profile_Sample := Profile_Sample p;
     Profile_Location := Profile_Location p;
     Profile_Function := Profile_Function p;
     Profile_StringTable := t;
     Profile_TimeNanos := Profile_TimeNanos p;
     Profile_DurationNanos := Profile_DurationNanos p;
     Profile_PeriodType := Profile_PeriodType p;
     Profile_Period := Profile_Period p |}.

Definition with_Function (p : Profile) (fs : list Function) : Profile :=
  {| Profile_SampleType := Profile_SampleType p;
     Profile_Sample := Profile_Sample p;
     Profile_Location := Profile_Location p;
     Profile_Function := fs;
     Profile_StringTable := Profile_StringTable p;
     Profile_TimeNanos := Profile_TimeNanos p;
     Profile_DurationNanos := Profile_DurationNanos p;
     Profile_PeriodType := Profile_PeriodType p;
     Profile_Period := Profile_Period p |}.

Definition with_Location (p : Profile) (ls : list Location) : Profile :=
  {| Profile_SampleType := Profile_SampleType p;
     Profile_Sample := Profile_Sample p;
     Profile_Location := ls;
     Profile_Function := Profile_Function p;
     Profile_StringTable := Profile_StringTable p;
     Profile_TimeNanos := Profile_TimeNanos p;
     Profile_DurationNanos := Profile_DurationNanos p;
     Profile_PeriodType := Profile_PeriodType p;
     Profile_Period := Profile_Period p |}.

Definition with_SampleType (p : Profile) (ts : list ValueType) : Profile :=
  {| Profile_SampleType := ts;
     Profile_Sample := Profile_Sample p;
     Profile_Location := Profile_Location p;
     Profile_Function := Profile_Function p;
     Profile_StringTable := Profile_StringTable p;
     Profile_TimeNanos := Profile_TimeNanos p;
     Profile_DurationNanos := Profile_DurationNanos p;
     Profile_PeriodType := Profile_PeriodType p;
     Profile_Period := Profile_Period p |}.

Definition with_PeriodType (p : Profile) (pt : option ValueType) : Profile :=
  {| Profile_SampleType := Profile_SampleType p;
     Profile_Sample := Profile_Sample p;
     Profile_Location := Profile_Location p;
     Profile_Function := Profile_Function p;
     Profile_StringTable := Profile_StringTable p;
     Profile_TimeNanos := Profile_TimeNanos p;
     Profile_DurationNanos := Profile_DurationNanos p;
     Profile_PeriodType := pt;
     Profile_Period := Profile_Period p |}.

Definition with_Period (p : Profile) (n : Z) : Profile :=
  {| Profile_SampleType := Profile_SampleType p;
     Profile_Sample := Profile_Sample p;
     Profile_Location := Profile_Location p;
     Profile_Function := Profile_Function p;
     Profile_StringTable := Profile_StringTable p;
     Profile_TimeNanos := Profile_TimeNanos p;
     Profile_DurationNanos := Profile_DurationNanos p;
     Profile_PeriodType := Profile_PeriodType p;
     Profile_Period := n |}.

Definition with_Sample (p : Profile) (ss : list Sample) : Profile :=
  {| Profile_SampleType := Profile_SampleType p;
     Profile_Sample := ss;
     Profile_Location := Profile_Location p;
     Profile_Function := Profile_Function p;
     Profile_StringTable := Profile_StringTable p;
     Profile_TimeNanos := Profile_TimeNanos p;
     Profile_DurationNanos := Profile_DurationNanos p;
     Profile_PeriodType := Profile_PeriodType p;
     Profile_Period := Profile_Period p |}.

Definition with_profile (pb : Builder) (p : Profile) : Builder :=
  {| Builder_profile := p;
     stringIndex := stringIndex pb;
     functionIndex := functionIndex pb;
     locationIndex := locationIndex pb |}.

Definition NewBuilder : Builder :=
  {| Builder_profile :=
       {| Profile_SampleType := [];
          Profile_Sample := [];
          Profile_Location := [];
          Profile_Function := [];
          Profile_StringTable := [EmptyString];
          Profile_TimeNanos := 0;
          Profile_DurationNanos := 0;
          Profile_PeriodType := None;
          Profile_Period := 0 |};
     stringIndex := {[ EmptyString := 0 ]};
     functionIndex := ∅;
     locationIndex := ∅ |}.

(** [addStringLocked]: the caller holds the write lock. *)
Definition addStringLocked (pb : Builder) (s : string) : Z * Builder :=
  match stringIndex pb !! s with
  | Some idx => (idx, pb)
  | None =>
      let idx := len (Profile_StringTable (Builder_profile pb)) in
      (idx,
       {| Builder_profile :=
            with_StringTable (Builder_profile pb)
              (Profile_StringTable (Builder_profile pb) ++ [s]);
          stringIndex := <[s := idx]> (stringIndex pb);
          functionIndex := functionIndex pb;
          locationIndex := locationIndex pb |})
  end.

(** The key both index maps use: [name + "\x00" + filename]. *)
Definition indexKey (name filename : string) : string :=
  name +:+ NUL +:+ filename.

(** The creation of a Function, as both [GetOrCreateFunction] and
    [GetOrCreateLocation] write it out. *)
Definition createFunction (pb : Builder) (name filename : string) : Z * Builder :=
  let key := indexKey name filename in
  let id := len (Profile_Function (Builder_profile pb)) + 1 in
  let '(fname, pb) := addStringLocked pb name in
  let '(sname, pb) := addStringLocked pb name in
  let '(ffile, pb) := addStringLocked pb filename in
  let fn := {| Function_Id := id; Function_Name := fname;
               Function_SystemName := sname; Function_Filename := ffile |} in
  (id,
   {| Builder_profile :=
        with_Function (Builder_profile pb)
          (Profile_Function (Builder_profile pb) ++ [fn]);
      stringIndex := stringIndex pb;
      functionIndex := <[key := id]> (functionIndex pb);
      locationIndex := locationIndex pb |}).

(** Each exported operation first looks its key up under the read lock and
    returns on a hit ([_read]); on a miss it releases the read lock, takes
    the write lock and runs the section that looks up again and creates
    ([_write]).  Other goroutines may run between the two sections. *)

Definition AddString_read (pb : Builder) (s : string) : option Z :=
  stringIndex pb !! s.

Definition AddString_write (pb : Builder) (s : string) : Z * Builder :=
  match stringIndex pb !! s with
  | Some idx => (idx, pb)
  | None =>
      let idx := len (Profile_StringTable (Builder_profile pb)) in
      (idx,
       {| Builder_profile :=
            with_StringTable (Builder_profile pb)
              (Profile_StringTable (Builder_profile pb) ++ [s]);
          stringIndex := <[s := idx]> (stringIndex pb);
          functionIndex := functionIndex pb;
          locationIndex := locationIndex pb |})
  end.

Definition GetOrCreateFunction_read (pb : Builder) (name filename : string) : option Z :=
  functionIndex pb !! indexKey name filename.

Definition GetOrCreateFunction_write (pb : Builder) (name filename : string) : Z * Builder :=
  match functionIndex pb !! indexKey name filename with
  | Some id => (id, pb)
  | None => createFunction pb name filename
  end.

Definition GetOrCreateLocation_read (pb : Builder) (name filename : string) : option Z :=
  locationIndex pb !! indexKey name filename.

Definition GetOrCreateLocation_write (pb : Builder) (name filename : string) : Z * Builder :=
  let key := indexKey name filename in
  match locationIndex pb !! key with
  | Some id => (id, pb)
  | None =>
      (* funcId := pb.functionIndex[key]: zero when the key is absent *)
      let funcId := default 0 (functionIndex pb !! key) in
      let '(funcId, pb) :=
        if funcId =? 0 then createFunction pb name filename else (funcId, pb) in
      let id := len (Profile_Location (Builder_profile pb)) + 1 in
      let loc := {| Location_Id := id;
                    Location_Line := [ {| Line_FunctionId := funcId; Line_Line := 0 |} ] |} in
      (id,
       {| Builder_profile :=
            with_Location (Builder_profile pb)
              (Profile_Location (Builder_profile pb) ++ [loc]);
          stringIndex := stringIndex pb;
          functionIndex := functionIndex pb;
          locationIndex := <[key := id]> (locationIndex pb) |})
  end.

(** One call by one goroutine with nothing running in between. *)
Definition AddString (pb : Builder) (s : string) : Z * Builder :=
  match AddString_read pb s with
  | Some idx => (idx, pb)
  | None => AddString_write pb s
  end.

Definition GetOrCreateFunction (pb : Builder) (name filename : string) : Z * Builder :=
  match GetOrCreateFunction_read pb name filename with
  | Some id => (id, pb)
  | None => GetOrCreateFunction_write pb name filename
  end.

Definition GetOrCreateLocation (pb : Builder) (name filename : string) : Z * Builder :=
  match GetOrCreateLocation_read pb name filename with
  | Some id => (id, pb)
  | None => GetOrCreateLocation_write pb name filename
  end.

Definition SetSampleTypes (pb : Builder) (types : list (string * string)) : Builder :=
  fold_left
    (fun pb t =>
       let '(ty, pb) := AddString pb (fst t) in
       let '(un, pb) := AddString pb (snd t) in
       with_profile pb
         (with_SampleType (Builder_profile pb)
            (Profile_SampleType (Builder_profile pb) ++
             [ {| ValueType_Type := ty; ValueType_Unit := un |} ])))
    types pb.

Definition SetPeriodType (pb : Builder) (typeName unit : string) : Builder :=
  let '(ty, pb) := AddString pb typeName in
  let '(un, pb) := AddString pb unit in
  with_profile pb
    (with_PeriodType (Builder_profile pb)
       (Some {| ValueType_Type := ty; ValueType_Unit := un |})).

Definition Build (pb : Builder) : Profile := Builder_profile pb.

End profile.

(** ** Package converter *)

Module converter.
Import profile.

(** The dynamic type of a [tid] field.  A string is given by the runes that
    [range] yields over it. *)
Inductive TidValue :=
  | TidFloat64 (v : float)
  | TidInt (v : Z)
  | TidInt64 (v : Z)
  | TidString (runes : list Z)
  | TidOther.

Record TraceEvent := {
  Ph : string;
  Cat : string;
  Name : string;
  Tid : TidValue;
  Ts : float;
  Dur : float
}.

Record TraceData := {
  TraceEvents : list TraceEvent
}.

Record eventWithEnd := {
  Event : TraceEvent;
  End_ : float
}.

Record stackSample := {
  stackSample_stack : list string;
  stackSample_names : list string;
  stackSample_cats : list string;
  stackSample_timeNs : Z
}.

Definition getTid (tid : TidValue) : Z :=
  match tid with
  | TidFloat64 v => int64_of_float v
  | TidInt v => int64 v
  | TidInt64 v => v
  | TidString runes => fold_left (fun h c => int64 (h * 31 + c)) runes 0
  | TidOther => 0
  end.

Record stackEntry := {
  stackEntry_event : eventWithEnd;
  stackEntry_name : string;
  stackEntry_cat : string
}.

(** The first loop of [ProcessThreadEvents]: entries are popped off the end
    of [stack] while the last one ended before [ts]. *)
Fixpoint popEnded (ts : float) (stack : list stackEntry) : list stackEntry :=
  match stack with
  | [] => []
  | s :: rest =>
      match popEnded ts rest with
      | [] => if (End_ (stackEntry_event s) <? ts)%float then [] else [s]
      | rest' => s :: rest'
      end
  end.

(** The second loop: only entries that end no earlier than the event stay. *)
Definition keepContaining (event : eventWithEnd) (stack : list stackEntry) : list stackEntry :=
  List.filter (fun s => (End_ event <=? End_ (stackEntry_event s))%float) stack.

Definition frameKey (name cat : string) : string := name +:+ NUL +:+ cat.

(** One round of the loop over the events: the new stack and the sample
    sent on the results channel. *)
Definition processEvent (stack : list stackEntry) (event : eventWithEnd)
  : list stackEntry * stackSample :=
  let stack := popEnded (Ts (Event event)) stack in
  let stack := keepContaining event stack in
  let names := map stackEntry_name stack ++ [Name (Event event)] in
  let cats := map stackEntry_cat stack ++ [Cat (Event event)] in
  let stackKey :=
    map (fun s => frameKey (stackEntry_name s) (stackEntry_cat s)) stack ++
    [frameKey (Name (Event event)) (Cat (Event event))] in
  let stack := stack ++ [ {| stackEntry_event := event;
                             stackEntry_name := Name (Event event);
                             stackEntry_cat := Cat (Event event) |} ] in
  let durNs := int64_of_float (Dur (Event event) * 1000)%float in
  (stack,
   {| stackSample_stack := stackKey;
      stackSample_names := names;
      stackSample_cats := cats;
      stackSample_timeNs := durNs |}).

Fixpoint processEvents (stack : list stackEntry) (events : list eventWithEnd)
  : list stackSample :=
  match events with
  | [] => []
  | event :: events' =>
      let '(stack, sample) := processEvent stack event in
      sample :: processEvents stack events'
  end.

(** [ProcessThreadEvents]: the samples in the order they are sent.  The
    Builder argument is not used by the Go function and the progress counter
    is not part of the result. *)
Definition ProcessThreadEvents (events : list eventWithEnd) : list stackSample :=
  processEvents [] events.

Record sampleData := {
  sampleData_locationIds : list Z;
  sampleData_count : Z;
  sampleData_timeNs : Z
}.

(** The filter at the head of the grouping loop. *)
Definition skipped (e : TraceEvent) : bool :=
  negb (String.eqb (Ph e) "X") || (Dur e <=? 0)%float.

Definition groupByThread (events : list TraceEvent) : gmap Z (list eventWithEnd) :=
  fold_left
    (fun threadEvents e =>
       if skipped e then threadEvents
       else
         let tid := getTid (Tid e) in
         <[tid := (threadEvents !!! tid) ++
                  [ {| Event := e; End_ := (Ts e + Dur e)%float |} ] ]> threadEvents)
    events ∅.

(** The comparison handed to [sort.Slice]. *)
Definition lessTs (a b : eventWithEnd) : bool := (Ts (Event a) <? Ts (Event b))%float.

(** The key of the sample map: every element of the stack followed by [;]. *)
Definition sampleKey (stack : list string) : string :=
  fold_left (fun key s => key +:+ (s +:+ ";")) stack EmptyString.

(** The location ids of a new sample: [locationIds[len(names)-1-i] = locId]
    for [i] over the indices of [names].  ([cats] is as long as [names] in
    every sample [ProcessThreadEvents] sends.) *)
Definition buildLocationIds (pb : Builder) (names cats : list string)
  : list Z * Builder :=
  let n := length names in
  fold_left
    (fun '(locationIds, pb) i =>
       let '(locId, pb) := GetOrCreateLocation pb (names !!! i) (cats !!! i) in
       (<[(n - 1 - i)%nat := locId]> locationIds, pb))
    (seq 0 n) (replicate n 0, pb).

(** One round of the aggregation loop. *)
Definition aggregate (st : Builder * gmap string sampleData) (sample : stackSample)
  : Builder * gmap string sampleData :=
  let '(pb, sampleMap) := st in
  let key := sampleKey (stackSample_stack sample) in
  match sampleMap !! key with
  | Some existing =>
      (pb,
       <[key := {| sampleData_locationIds := sampleData_locationIds existing;
                   sampleData_count := int64 (sampleData_count existing + 1);
                   sampleData_timeNs :=
                     int64 (sampleData_timeNs existing + stackSample_timeNs sample) |}]>
         sampleMap)
  | None =>
      let '(locationIds, pb) :=
        buildLocationIds pb (stackSample_names sample) (stackSample_cats sample) in
      (pb,
       <[key := {| sampleData_locationIds := locationIds;
                   sampleData_count := 1;
                   sampleData_timeNs := stackSample_timeNs sample |}]> sampleMap)
  end.

(** The order in which the samples of the workers reach the single consumer
    of the channel: [sched] names, round after round, the worker whose next
    sample is received; what is left when [sched] ends is drained worker by
    worker.  Every order the goroutine scheduler can produce is the result
    of some [sched] (see [interleave_complete] below). *)
Fixpoint interleave {A} (sched : list nat) (queues : list (list A)) : list A :=
  match sched with
  | [] => concat queues
  | i :: sched' =>
      match queues !! i with
      | Some (x :: q) => x :: interleave sched' (<[i := q]> queues)
      | _ => interleave sched' queues
      end
  end.

Definition toSample (s : sampleData) : Sample :=
  {| Sample_LocationId := sampleData_locationIds s;
     Sample_Value := [sampleData_count s; sampleData_timeNs s] |}.

Section ConvertTrace.

(** [sort.Slice] of Go's standard library, taken by its contract: it
    reorders the slice by the comparison and is not guaranteed to be
    stable. *)
Variable sort_Slice :
  (eventWithEnd -> eventWithEnd -> bool) -> list eventWithEnd -> list eventWithEnd.

(** The goroutine schedule, see [interleave]. *)
Variable sched : list nat.

(** The state of the run when the results channel is closed: the samples
    each worker sent, the order they were received in, and the Builder and
    sample map after the aggregation loop. *)
Definition sortedThreads (traceData : TraceData) : gmap Z (list eventWithEnd) :=
  sort_Slice lessTs <$> groupByThread (TraceEvents traceData).

Definition workerOutputs (traceData : TraceData) : list (list stackSample) :=
  map (fun te => ProcessThreadEvents (snd te)) (map_to_list (sortedThreads traceData)).

Definition received (traceData : TraceData) : list stackSample :=
  interleave sched (workerOutputs traceData).

Definition initialBuilder : Builder :=
  let pb := NewBuilder in
  let pb := SetSampleTypes pb [("samples", "count"); ("time", "nanoseconds")]%string in
  let pb := SetPeriodType pb "cpu" "nanoseconds" in
  with_profile pb (with_Period (Builder_profile pb) 1000000).

Definition aggregated (traceData : TraceData) : Builder * gmap string sampleData :=
  fold_left aggregate (received traceData) (initialBuilder, ∅).

(** [ConvertTrace].  The samples are appended in the iteration order of the
    sample map, which Go leaves unspecified; the model takes the order of
    [map_to_list]. *)
Definition ConvertTrace (traceData : TraceData) : Profile :=
  let '(pb, sampleMap) := aggregated traceData in
  let pb :=
    fold_left
      (fun pb ks =>
         with_profile pb
           (with_Sample (Builder_profile pb)
              (Profile_Sample (Builder_profile pb) ++ [toSample (snd ks)])))
      (map_to_list sampleMap) pb in
  Build pb.

End ConvertTrace.

(** The insertion sort of Go's [sort] package, which [sort.Slice] runs on
    a slice of at most twelve elements: every element in turn is swapped
    with the element before it while it is less than that element.
    [before] holds the elements before [x], the nearest first. *)
Fixpoint insertSorted {A} (less : A -> A -> bool) (x : A) (before : list A) : list A :=
  match before with
  | [] => [x]
  | y :: rest => if less x y then y :: insertSorted less x rest else x :: y :: rest
  end.

Definition insertionSort {A} (less : A -> A -> bool) (l : list A) : list A :=
  rev (fold_left (fun before x => insertSorted less x before) l []).

End converter.

(** * Specification-level definitions *)

Import profile converter.

(** ** The Builder under concurrent use *)

Definition stringTable (pb : Builder) : list string :=
  Profile_StringTable (Builder_profile pb).

Definition functions (pb : Builder) : list Function :=
  Profile_Function (Builder_profile pb).

Definition locations (pb : Builder) : list Location :=
  Profile_Location (Builder_profile pb).

(** A call of one of the three locked operations. *)
Inductive call :=
  | CallAddString (s : string)
  | CallGetOrCreateFunction (name filename : string)
  | CallGetOrCreateLocation (name filename : string).

Definition readSection (c : call) (pb : Builder) : option Z :=
  match c with
  | CallAddString s => AddString_read pb s
  | CallGetOrCreateFunction name filename => GetOrCreateFunction_read pb name filename
  | CallGetOrCreateLocation name filename => GetOrCreateLocation_read pb name filename
  end.

Definition writeSection (c : call) (pb : Builder) : Z * Builder :=
  match c with
  | CallAddString s => AddString_write pb s
  | CallGetOrCreateFunction name filename => GetOrCreateFunction_write pb name filename
  | CallGetOrCreateLocation name filename => GetOrCreateLocation_write pb name filename
  end.

(** What a goroutine still has to do: its calls in order.  The first one is
    either not started ([Called]) or has missed under the read lock and
    waits for the write lock ([Missed]). *)
Inductive pending :=
  | Called (c : call)
  | Missed (c : call).

Record config := {
  shared : Builder;
  goroutines : list (list pending);
  returned : list (call * Z)
}.

(** One step of one goroutine: a section run under the mutex. *)
Inductive step : config -> config -> Prop :=
  | step_hit cfg i c rest id :
      goroutines cfg !! i = Some (Called c :: rest) ->
      readSection c (shared cfg) = Some id ->
      step cfg {| shared := shared cfg;
                  goroutines := <[i := rest]> (goroutines cfg);
                  returned := returned cfg ++ [(c, id)] |}
  | step_miss cfg i c rest :
      goroutines cfg !! i = Some (Called c :: rest) ->
      readSection c (shared cfg) = None ->
      step cfg {| shared := shared cfg;
                  goroutines := <[i := Missed c :: rest]> (goroutines cfg);
                  returned := returned cfg |}
  | step_write cfg i c rest :
      goroutines cfg !! i = Some (Missed c :: rest) ->
      step cfg {| shared := snd (writeSection c (shared cfg));
                  goroutines := <[i := rest]> (goroutines cfg);
                  returned := returned cfg ++ [(c, fst (writeSection c (shared cfg)))] |}.

(** The Builder states of a build: what the write sections, the two setters
    and the direct writes of [ConvertTrace] to [Period] and [Sample] lead to
    from a new Builder, in any order. *)
Inductive reachable : Builder -> Prop :=
  | reachable_NewBuilder : reachable NewBuilder
  | reachable_write c pb :
      reachable pb -> reachable (snd (writeSection c pb))
  | reachable_SetSampleTypes types pb :
      reachable pb -> reachable (SetSampleTypes pb types)
  | reachable_SetPeriodType typeName unit pb :
      reachable pb -> reachable (SetPeriodType pb typeName unit)
  | reachable_Period n pb :
      reachable pb -> reachable (with_profile pb (with_Period (Builder_profile pb) n))
  | reachable_Sample ss pb :
      reachable pb -> reachable (with_profile pb (with_Sample (Builder_profile pb) ss)).

(** The string table and its index agree. *)
Definition stringsIndexed (pb : Builder) : Prop :=
  (forall (i : nat) s, stringTable pb !! i = Some s ->
                       stringIndex pb !! s = Some (Z.of_nat i)) /\
  (forall s idx, stringIndex pb !! s = Some idx ->
                 exists i : nat, idx = Z.of_nat i /\ stringTable pb !! i = Some s).

(** The k-th Function (counting from one) has id k; likewise Locations. *)
Definition functionIdsDense (pb : Builder) : Prop :=
  forall (k : nat) fn, functions pb !! k = Some fn -> Function_Id fn = Z.of_nat k + 1.

Definition locationIdsDense (pb : Builder) : Prop :=
  forall (k : nat) loc, locations pb !! k = Some loc -> Location_Id loc = Z.of_nat k + 1.

(** [pb'] holds everything [pb] holds, at the same places. *)
Record extends (pb pb' : Builder) : Prop := {
  extends_strings : stringTable pb `prefix_of` stringTable pb';
  extends_functions : functions pb `prefix_of` functions pb';
  extends_locations : locations pb `prefix_of` locations pb';
  extends_stringIndex : stringIndex pb ⊆ stringIndex pb';
  extends_functionIndex : functionIndex pb ⊆ functionIndex pb';
  extends_locationIndex : locationIndex pb ⊆ locationIndex pb'
}.

(** * Properties of the Builder *)

Section BuilderFacts.

Implicit Types (pb : Builder) (s name filename : string).

Lemma extends_refl pb : extends pb pb.
Proof. split; reflexivity. Qed.

Lemma extends_trans pb1 pb2 pb3 : extends pb1 pb2 -> extends pb2 pb3 -> extends pb1 pb3.
Proof. intros [] []. split; etrans; eauto. Qed.

Lemma addStringLocked_extends pb s : extends pb (snd (addStringLocked pb s)).
Proof.
  unfold addStringLocked.
  destruct (stringIndex pb !! s) eqn:Hs; simpl; [apply extends_refl|].
  split; unfold stringTable, functions, locations; simpl; try reflexivity.
  - by apply prefix_app_r.
  - by apply insert_subseteq.
Qed.

Lemma addStringLocked_frame pb s :
  let pb' := snd (addStringLocked pb s) in
  functions pb' = functions pb /\ locations pb' = locations pb /\
  functionIndex pb' = functionIndex pb /\ locationIndex pb' = locationIndex pb.
Proof.
  unfold addStringLocked. by destruct (stringIndex pb !! s).
Qed.

Lemma addStringLocked_stringsIndexed pb s :
  stringsIndexed pb -> stringsIndexed (snd (addStringLocked pb s)).
Proof.
  intros [Hti Hit]. unfold addStringLocked.
  destruct (stringIndex pb !! s) eqn:Hs; simpl; [by split|].
  split; unfold stringTable, len in *; simpl.
  - intros i s' Hi.
    apply lookup_app_Some in Hi as [Hi|[Hlen Hi]].
    + rewrite lookup_insert_ne; [by apply Hti|].
      intros ->. apply Hti in Hi. congruence.
    + apply list_lookup_singleton_Some in Hi as [Hi ->].
      rewrite lookup_insert_eq. f_equal. lia.
  - intros s' idx Hidx.
    destruct (decide (s = s')) as [->|Hne].
    + rewrite lookup_insert_eq in Hidx. injection Hidx as <-.
      eexists. split; [reflexivity|].
      rewrite lookup_app_r by lia. by rewrite Nat.sub_diag.
    + rewrite lookup_insert_ne in Hidx by done.
      destruct (Hit _ _ Hidx) as (i & -> & Hi).
      exists i. split; [done|]. by apply lookup_app_l_Some.
Qed.

(** What a call of [AddString] (or [addStringLocked]) returns and does. *)
Lemma addStringLocked_spec pb s :
  stringsIndexed pb ->
  (s ∈ stringTable pb ->
     snd (addStringLocked pb s) = pb /\
     exists i : nat, fst (addStringLocked pb s) = Z.of_nat i /\
                     stringTable pb !! i = Some s) /\
  (s ∉ stringTable pb ->
     stringTable (snd (addStringLocked pb s)) = stringTable pb ++ [s] /\
     fst (addStringLocked pb s) = len (stringTable pb)).
Proof.
  intros [Hti Hit]. unfold addStringLocked. split.
  - intros [i Hi]%list_elem_of_lookup. rewrite (Hti _ _ Hi). simpl. eauto.
  - intros Hnot. destruct (stringIndex pb !! s) eqn:Hs; simpl; [|done].
    destruct (Hit _ _ Hs) as (i & _ & Hi).
    exfalso. apply Hnot. by eapply list_elem_of_lookup_2.
Qed.

Lemma AddString_write_eq pb s : AddString_write pb s = addStringLocked pb s.
Proof. reflexivity. Qed.

Lemma AddString_eq pb s : AddString pb s = addStringLocked pb s.
Proof.
  unfold AddString, AddString_read, AddString_write, addStringLocked.
  by destruct (stringIndex pb !! s).
Qed.

End BuilderFacts.

Section BuilderInvariants.

Implicit Types (pb : Builder) (s name filename : string).

Lemma createFunction_extends pb name filename :
  functionIndex pb !! indexKey name filename = None ->
  extends pb (snd (createFunction pb name filename)).
Proof.
  intros Hnone. unfold createFunction.
  pose proof (addStringLocked_extends pb name) as E1.
  pose proof (addStringLocked_frame pb name) as F1.
  destruct (addStringLocked pb name) as [fname pb1]; simpl in E1, F1.
  pose proof (addStringLocked_extends pb1 name) as E2.
  pose proof (addStringLocked_frame pb1 name) as F2.
  destruct (addStringLocked pb1 name) as [sname pb2]; simpl in E2, F2.
  pose proof (addStringLocked_extends pb2 filename) as E3.
  pose proof (addStringLocked_frame pb2 filename) as F3.
  destruct (addStringLocked pb2 filename) as [ffile pb3]; simpl in E3, F3.
  simpl. eapply extends_trans; [exact E1|].
  eapply extends_trans; [exact E2|]. eapply extends_trans; [exact E3|].
  destruct F1 as (? & ? & F1 & ?), F2 as (? & ? & F2 & ?), F3 as (? & ? & F3 & ?).
  split; unfold stringTable, functions, locations in *; simpl; try reflexivity.
  - by apply prefix_app_r.
  - apply insert_subseteq. congruence.
Qed.

Lemma createFunction_functions pb name filename :
  exists fn,
    functions (snd (createFunction pb name filename)) = functions pb ++ [fn] /\
    Function_Id fn = len (functions pb) + 1 /\
    fst (createFunction pb name filename) = len (functions pb) + 1 /\
    locations (snd (createFunction pb name filename)) = locations pb /\
    locationIndex (snd (createFunction pb name filename)) = locationIndex pb.
Proof.
  unfold createFunction.
  pose proof (addStringLocked_frame pb name) as F1.
  destruct (addStringLocked pb name) as [fname pb1]; simpl in F1.
  pose proof (addStringLocked_frame pb1 name) as F2.
  destruct (addStringLocked pb1 name) as [sname pb2]; simpl in F2.
  pose proof (addStringLocked_frame pb2 filename) as F3.
  destruct (addStringLocked pb2 filename) as [ffile pb3]; simpl in F3.
  destruct F1 as (F1 & L1 & ? & I1), F2 as (F2 & L2 & ? & I2), F3 as (F3 & L3 & ? & I3).
  eexists. unfold functions, locations in *; simpl.
  rewrite F3, F2, F1, L3, L2, L1, I3, I2, I1. eauto.
Qed.

Lemma createFunction_stringsIndexed pb name filename :
  stringsIndexed pb -> stringsIndexed (snd (createFunction pb name filename)).
Proof.
  intros H. unfold createFunction.
  apply (addStringLocked_stringsIndexed _ name) in H.
  destruct (addStringLocked pb name) as [fname pb1]; simpl in H.
  apply (addStringLocked_stringsIndexed _ name) in H.
  destruct (addStringLocked pb1 name) as [sname pb2]; simpl in H.
  apply (addStringLocked_stringsIndexed _ filename) in H.
  destruct (addStringLocked pb2 filename) as [ffile pb3]; simpl in H.
  exact H.
Qed.

Lemma dense_snoc {A} (ident : A -> Z) (l : list A) (x : A) :
  (forall (k : nat) y, l !! k = Some y -> ident y = Z.of_nat k + 1) ->
  ident x = len l + 1 ->
  forall (k : nat) y, (l ++ [x]) !! k = Some y -> ident y = Z.of_nat k + 1.
Proof.
  intros Hl Hx k y Hk. apply lookup_app_Some in Hk as [Hk|[Hlen Hk]]; [eauto|].
  apply list_lookup_singleton_Some in Hk as [Hk ->]. unfold len in Hx. lia.
Qed.

Lemma createFunction_dense pb name filename :
  functionIdsDense pb -> functionIdsDense (snd (createFunction pb name filename)).
Proof.
  intros H. destruct (createFunction_functions pb name filename) as (fn & Hf & Hid & _).
  unfold functionIdsDense. rewrite Hf. by apply dense_snoc.
Qed.

(** No key of the function index is recorded with id zero, the value
    [GetOrCreateLocation] reads as absent. *)
Definition functionIndexNonzero (pb : Builder) : Prop :=
  forall key id, functionIndex pb !! key = Some id -> id <> 0.

Lemma createFunction_nonzero pb name filename :
  functionIndexNonzero pb ->
  functionIndexNonzero (snd (createFunction pb name filename)).
Proof.
  intros H. unfold createFunction.
  pose proof (addStringLocked_frame pb name) as F1.
  destruct (addStringLocked pb name) as [fname pb1]; simpl in F1.
  pose proof (addStringLocked_frame pb1 name) as F2.
  destruct (addStringLocked pb1 name) as [sname pb2]; simpl in F2.
  pose proof (addStringLocked_frame pb2 filename) as F3.
  destruct (addStringLocked pb2 filename) as [ffile pb3]; simpl in F3.
  destruct F1 as (? & ? & F1 & ?), F2 as (? & ? & F2 & ?), F3 as (? & ? & F3 & ?).
  intros key id. simpl. rewrite F3, F2, F1.
  intros [[_ <-]|[_ Hk]]%lookup_insert_Some; [unfold len; lia | eauto].
Qed.

(** The write section of every call keeps what the Builder holds. *)
Lemma writeSection_extends c pb :
  functionIndexNonzero pb -> extends pb (snd (writeSection c pb)).
Proof.
  intros Hnz.
  destruct c as [s|name filename|name filename]; simpl.
  - apply addStringLocked_extends.
  - unfold GetOrCreateFunction_write.
    destruct (functionIndex pb !! indexKey name filename) eqn:Hf; simpl;
      [apply extends_refl | by apply createFunction_extends].
  - unfold GetOrCreateLocation_write.
    destruct (locationIndex pb !! indexKey name filename) eqn:Hl; simpl;
      [apply extends_refl|].
    destruct (functionIndex pb !! indexKey name filename) as [fid|] eqn:Hf; simpl.
    + destruct (Z.eqb_spec fid 0) as [->|_]; [by apply Hnz in Hf|].
      split; unfold stringTable, functions, locations; simpl; try reflexivity.
      * by apply prefix_app_r.
      * by apply insert_subseteq.
    + pose proof (createFunction_extends pb name filename Hf) as E.
      pose proof (createFunction_functions pb name filename) as (fn & _ & _ & _ & Hls & Hli).
      destruct (createFunction pb name filename) as [fid pb1]; simpl in *.
      eapply extends_trans; [exact E|].
      split; unfold stringTable, functions, locations in *; simpl; try reflexivity.
      * by apply prefix_app_r.
      * apply insert_subseteq. congruence.
Qed.

Lemma writeSection_stringsIndexed c pb :
  stringsIndexed pb -> stringsIndexed (snd (writeSection c pb)).
Proof.
  intros H. destruct c as [s|name filename|name filename]; simpl.
  - by apply addStringLocked_stringsIndexed.
  - unfold GetOrCreateFunction_write.
    destruct (functionIndex pb !! indexKey name filename); simpl;
      [done | by apply createFunction_stringsIndexed].
  - unfold GetOrCreateLocation_write.
    destruct (locationIndex pb !! indexKey name filename); simpl; [done|].
    destruct (default 0 (functionIndex pb !! indexKey name filename) =? 0).
    + apply (createFunction_stringsIndexed _ name filename) in H.
      by destruct (createFunction pb name filename).
    + exact H.
Qed.

Lemma writeSection_nonzero c pb :
  functionIndexNonzero pb -> functionIndexNonzero (snd (writeSection c pb)).
Proof.
  intros H. destruct c as [s|name filename|name filename]; simpl.
  - rewrite AddString_write_eq. unfold functionIndexNonzero.
    by destruct (addStringLocked_frame pb s) as (_ & _ & -> & _).
  - unfold GetOrCreateFunction_write.
    destruct (functionIndex pb !! indexKey name filename); simpl;
      [done | by apply createFunction_nonzero].
  - unfold GetOrCreateLocation_write.
    destruct (locationIndex pb !! indexKey name filename); simpl; [done|].
    destruct (default 0 (functionIndex pb !! indexKey name filename) =? 0).
    + apply (createFunction_nonzero _ name filename) in H.
      by destruct (createFunction pb name filename).
    + exact H.
Qed.

Lemma writeSection_functionIdsDense c pb :
  functionIdsDense pb -> functionIdsDense (snd (writeSection c pb)).
Proof.
  intros H. destruct c as [s|name filename|name filename]; simpl.
  - rewrite AddString_write_eq. unfold functionIdsDense.
    by destruct (addStringLocked_frame pb s) as (-> & _).
  - unfold GetOrCreateFunction_write.
    destruct (functionIndex pb !! indexKey name filename); simpl;
      [done | by apply createFunction_dense].
  - unfold GetOrCreateLocation_write.
    destruct (locationIndex pb !! indexKey name filename); simpl; [done|].
    destruct (default 0 (functionIndex pb !! indexKey name filename) =? 0).
    + apply (createFunction_dense _ name filename) in H.
      by destruct (createFunction pb name filename).
    + exact H.
Qed.

Lemma writeSection_locationIdsDense c pb :
  locationIdsDense pb -> locationIdsDense (snd (writeSection c pb)).
Proof.
  intros H. destruct c as [s|name filename|name filename]; simpl.
  - rewrite AddString_write_eq. unfold locationIdsDense.
    by destruct (addStringLocked_frame pb s) as (_ & -> & _).
  - unfold GetOrCreateFunction_write.
    destruct (functionIndex pb !! indexKey name filename); simpl; [done|].
    unfold locationIdsDense.
    by destruct (createFunction_functions pb name filename) as (fn & _ & _ & _ & -> & _).
  - unfold GetOrCreateLocation_write.
    destruct (locationIndex pb !! indexKey name filename); simpl; [done|].
    destruct (default 0 (functionIndex pb !! indexKey name filename) =? 0).
    + destruct (createFunction_functions pb name filename) as (fn & _ & _ & _ & Hl & _).
      destruct (createFunction pb name filename) as [fid pb1]; simpl in *.
      unfold locationIdsDense, locations in *; simpl. rewrite Hl.
      by apply dense_snoc.
    + unfold locationIdsDense, locations in *; simpl. by apply dense_snoc.
Qed.

End BuilderInvariants.

Section Reachable.

Implicit Types (pb : Builder) (cfg : config).

Definition builderInvariant pb : Prop :=
  stringsIndexed pb /\ functionIdsDense pb /\ locationIdsDense pb /\
  functionIndexNonzero pb.

(** The part of a Builder the invariant speaks of. *)
Definition tables pb :=
  (stringTable pb, functions pb, locations pb,
   stringIndex pb, functionIndex pb, locationIndex pb).

Lemma tables_invariant pb pb' :
  tables pb' = tables pb -> builderInvariant pb -> builderInvariant pb'.
Proof.
  unfold tables, builderInvariant, stringsIndexed, functionIdsDense,
    locationIdsDense, functionIndexNonzero.
  intros [= E1 E2 E3 E4 E5 E6]. rewrite E1, E2, E3, E4, E5. tauto.
Qed.

Lemma tables_extends pb pb' : tables pb' = tables pb -> extends pb pb'.
Proof. unfold tables. intros [= E1 E2 E3 E4 E5 E6]. split; by rewrite ?E1, ?E2, ?E3, ?E4, ?E5, ?E6. Qed.

Lemma NewBuilder_invariant : builderInvariant NewBuilder.
Proof.
  repeat split.
  - intros [|i] s; [|by destruct i]. by intros [= <-].
  - intros s idx Hs. simpl in Hs.
    apply lookup_singleton_Some in Hs as [<- <-]. by exists 0%nat.
  - by intros [|k] fn.
  - by intros [|k] loc.
  - by intros key id.
Qed.

Lemma writeSection_invariant c pb :
  builderInvariant pb -> builderInvariant (snd (writeSection c pb)).
Proof.
  intros (H1 & H2 & H3 & H4).
  repeat split;
    [apply (writeSection_stringsIndexed c pb H1) ..
    | by apply writeSection_functionIdsDense
    | by apply writeSection_locationIdsDense
    | by apply writeSection_nonzero].
Qed.

Lemma AddString_invariant pb s :
  builderInvariant pb -> builderInvariant (snd (AddString pb s)).
Proof. rewrite AddString_eq. apply (writeSection_invariant (CallAddString s)). Qed.

Lemma AddString_extends pb s : extends pb (snd (AddString pb s)).
Proof. rewrite AddString_eq. apply addStringLocked_extends. Qed.

Lemma SetSampleTypes_facts types pb :
  builderInvariant pb ->
  builderInvariant (SetSampleTypes pb types) /\ extends pb (SetSampleTypes pb types).
Proof.
  unfold SetSampleTypes. revert pb.
  induction types as [|t types IH]; intros pb H; simpl; [split; [done|apply extends_refl]|].
  pose proof (AddString_invariant pb (fst t) H) as H1.
  pose proof (AddString_extends pb (fst t)) as E1.
  destruct (AddString pb (fst t)) as [ty pb1]; simpl in H1, E1.
  pose proof (AddString_invariant pb1 (snd t) H1) as H2.
  pose proof (AddString_extends pb1 (snd t)) as E2.
  destruct (AddString pb1 (snd t)) as [un pb2]; simpl in H2, E2.
  match goal with |- builderInvariant (fold_left _ _ ?b) /\ _ => set (pb3 := b) end.
  assert (tables pb3 = tables pb2) as T by reflexivity.
  destruct (IH pb3 (tables_invariant _ _ T H2)) as [H3 E3].
  split; [done|].
  eapply extends_trans; [exact E1|]. eapply extends_trans; [exact E2|].
  eapply extends_trans; [apply (tables_extends _ _ T) | exact E3].
Qed.

Lemma SetPeriodType_facts typeName unit pb :
  builderInvariant pb ->
  builderInvariant (SetPeriodType pb typeName unit) /\
  extends pb (SetPeriodType pb typeName unit).
Proof.
  intros H. unfold SetPeriodType.
  pose proof (AddString_invariant pb typeName H) as H1.
  pose proof (AddString_extends pb typeName) as E1.
  destruct (AddString pb typeName) as [ty pb1]; simpl in H1, E1.
  pose proof (AddString_invariant pb1 unit H1) as H2.
  pose proof (AddString_extends pb1 unit) as E2.
  destruct (AddString pb1 unit) as [un pb2]; simpl in H2, E2.
  match goal with |- builderInvariant ?b /\ _ => set (pb3 := b) end.
  assert (tables pb3 = tables pb2) as T by reflexivity.
  split; [by apply (tables_invariant _ _ T)|].
  eapply extends_trans; [exact E1|]. eapply extends_trans; [exact E2|].
  apply (tables_extends _ _ T).
Qed.

(** The invariant holds in every state of a build. *)
Lemma reachable_invariant pb : reachable pb -> builderInvariant pb.
Proof.
  induction 1 as [|c pb _ IH|types pb _ IH|typeName unit pb _ IH|n pb _ IH|ss pb _ IH].
  - apply NewBuilder_invariant.
  - by apply writeSection_invariant.
  - by apply SetSampleTypes_facts.
  - by apply SetPeriodType_facts.
  - by apply (tables_invariant pb).
  - by apply (tables_invariant pb).
Qed.

(** A hit under the read lock returns what the write section would, and the
    write section then changes nothing: every call takes effect at one
    moment. *)
Lemma readSection_hit c pb id :
  readSection c pb = Some id -> writeSection c pb = (id, pb).
Proof.
  destruct c as [s|name filename|name filename]; simpl.
  - unfold AddString_read, AddString_write. by intros ->.
  - unfold GetOrCreateFunction_read, GetOrCreateFunction_write. by intros ->.
  - unfold GetOrCreateLocation_read, GetOrCreateLocation_write. by intros ->.
Qed.

(** Whatever the goroutines do, the shared Builder stays in a state of a build. *)
Lemma step_reachable cfg cfg' :
  step cfg cfg' -> reachable (shared cfg) -> reachable (shared cfg').
Proof. destruct 1; simpl; auto using reachable_write. Qed.

Lemma steps_reachable cfg cfg' :
  rtc step cfg cfg' -> reachable (shared cfg) -> reachable (shared cfg').
Proof. induction 1; eauto using step_reachable. Qed.

Lemma step_extends cfg cfg' :
  step cfg cfg' -> reachable (shared cfg) -> extends (shared cfg) (shared cfg').
Proof.
  destruct 1; simpl; intros Hr; try apply extends_refl.
  apply writeSection_extends. by apply reachable_invariant.
Qed.

Lemma steps_extends cfg cfg' :
  rtc step cfg cfg' -> reachable (shared cfg) -> extends (shared cfg) (shared cfg').
Proof.
  induction 1 as [|cfg1 cfg2 cfg3 Hs _ IH]; intros Hr; [apply extends_refl|].
  eapply extends_trans; [by apply step_extends|].
  apply IH. by eapply step_reachable.
Qed.

End Reachable.

Section BuilderClaims.

Implicit Types (pb : Builder) (cfg : config).

Lemma reachable_extends_NewBuilder pb : reachable pb -> extends NewBuilder pb.
Proof.
  induction 1 as [|c pb Hr IH|types pb Hr IH|typeName unit pb Hr IH|n pb _ IH|ss pb _ IH].
  - apply extends_refl.
  - eapply extends_trans; [exact IH|].
    apply writeSection_extends. by apply reachable_invariant.
  - eapply extends_trans; [exact IH|].
    by apply SetSampleTypes_facts, reachable_invariant.
  - eapply extends_trans; [exact IH|].
    by apply SetPeriodType_facts, reachable_invariant.
  - eapply extends_trans; [exact IH|]. by apply tables_extends.
  - eapply extends_trans; [exact IH|]. by apply tables_extends.
Qed.

Lemma stringsIndexed_NoDup pb : stringsIndexed pb -> NoDup (stringTable pb).
Proof.
  intros [Hti _]. apply NoDup_alt. intros i j s Hi Hj.
  apply Hti in Hi, Hj. rewrite Hi in Hj. injection Hj. lia.
Qed.

(** Two goroutines race to create the same Location: both miss under the
    read lock, the first to take the write lock creates, the second finds
    the key at its second look. *)
Definition raceCall : call := CallGetOrCreateLocation "op" "cat".

Definition raceStart : config :=
  {| shared := NewBuilder;
     goroutines := [[Called raceCall]; [Called raceCall]];
     returned := [] |}.

Definition raceEnd : config :=
  {| shared := snd (writeSection raceCall NewBuilder);
     goroutines := [[]; []];
     returned := [(raceCall, 1); (raceCall, 1)] |}.

Lemma race_steps : rtc step raceStart raceEnd.
Proof.
  eapply rtc_l; [apply (step_miss raceStart 0 raceCall []); reflexivity|].
  eapply rtc_l; [eapply (step_miss _ 1 raceCall []); reflexivity|].
  eapply rtc_l; [eapply (step_write _ 0 raceCall []); reflexivity|].
  eapply rtc_l; [eapply (step_write _ 1 raceCall []); reflexivity|].
  apply rtc_refl.
Qed.

(** After the race a goroutine interns one more string and creates one more
    Location of the same category. *)
Definition laterStart : config :=
  {| shared := shared raceEnd;
     goroutines := [[Called (CallAddString "op");
                     Called (CallGetOrCreateLocation "op2" "cat")]];
     returned := [] |}.

Definition laterEnd : config :=
  {| shared := snd (writeSection (CallGetOrCreateLocation "op2" "cat") (shared raceEnd));
     goroutines := [[]];
     returned := [(CallAddString "op", 1); (CallGetOrCreateLocation "op2" "cat", 2)] |}.

Lemma laterStart_reachable : reachable (shared laterStart).
Proof. apply (reachable_write raceCall), reachable_NewBuilder. Qed.

Lemma later_steps : rtc step laterStart laterEnd.
Proof.
  eapply rtc_l; [eapply (step_hit laterStart 0 (CallAddString "op")); reflexivity|].
  eapply rtc_l; [eapply (step_miss _ 0 (CallGetOrCreateLocation "op2" "cat") []); reflexivity|].
  eapply rtc_l; [eapply (step_write _ 0 (CallGetOrCreateLocation "op2" "cat") []); reflexivity|].
  apply rtc_refl.
Qed.

(** C5. At every point of a build, also with goroutines in the middle of
    their calls, the string table has no duplicate entry and holds the empty
    string at index 0; [AddString] on a string of the table returns its
    index and changes nothing, and on any other string appends it once at
    the end and returns that index. *)
Theorem C5_string_table_interning cfg0 cfg s :
  reachable (shared cfg0) -> rtc step cfg0 cfg ->
  let pb := shared cfg in
  NoDup (stringTable pb) /\
  stringTable pb !! 0%nat = Some EmptyString /\
  (s ∈ stringTable pb ->
     snd (AddString pb s) = pb /\
     exists i : nat, fst (AddString pb s) = Z.of_nat i /\
                     stringTable pb !! i = Some s) /\
  (s ∉ stringTable pb ->
     stringTable (snd (AddString pb s)) = stringTable pb ++ [s] /\
     fst (AddString pb s) = len (stringTable pb) /\
     NoDup (stringTable (snd (AddString pb s)))).
Proof.
  intros Hr0 Hsteps pb.
  assert (reachable pb) as Hr by (by eapply steps_reachable).
  pose proof (reachable_invariant _ Hr) as (Hs & _).
  split; [by apply stringsIndexed_NoDup|]. split.
  - destruct (reachable_extends_NewBuilder _ Hr) as [[ext Hext] _ _ _ _ _].
    by rewrite Hext.
  - rewrite AddString_eq.
    destruct (addStringLocked_spec pb s Hs) as [Hin Hout].
    split; [exact Hin|]. intros Hnot.
    destruct (Hout Hnot) as [Htab Hidx]. repeat split; [done..|].
    by apply stringsIndexed_NoDup, addStringLocked_stringsIndexed.
Qed.

Lemma C5_witness :
  reachable (shared raceStart) /\ rtc step raceStart raceEnd /\
  let pb := shared raceEnd in
  NoDup (stringTable pb) /\
  stringTable pb !! 0%nat = Some EmptyString /\
  ("op"%string ∈ stringTable pb ->
     snd (AddString pb "op") = pb /\
     exists i : nat, fst (AddString pb "op") = Z.of_nat i /\
                     stringTable pb !! i = Some "op"%string) /\
  ("op"%string ∉ stringTable pb ->
     stringTable (snd (AddString pb "op")) = stringTable pb ++ ["op"%string] /\
     fst (AddString pb "op") = len (stringTable pb) /\
     NoDup (stringTable (snd (AddString pb "op")))).
Proof.
  split; [apply reachable_NewBuilder|]. split; [apply race_steps|].
  exact (C5_string_table_interning raceStart raceEnd "op" reachable_NewBuilder race_steps).
Defined.

(** C6. At every point of a build the k-th Function in creation order has
    id k and the k-th Location has id k, counting from one; the Functions
    and Locations of an earlier point are still there with their ids, so no
    id is handed out twice. *)
Theorem C6_dense_ids cfg0 cfg :
  reachable (shared cfg0) -> rtc step cfg0 cfg ->
  (forall (k : nat) fn, functions (shared cfg) !! k = Some fn ->
                        Function_Id fn = Z.of_nat k + 1) /\
  (forall (k : nat) loc, locations (shared cfg) !! k = Some loc ->
                         Location_Id loc = Z.of_nat k + 1) /\
  functions (shared cfg0) `prefix_of` functions (shared cfg) /\
  locations (shared cfg0) `prefix_of` locations (shared cfg) /\
  NoDup (map Function_Id (functions (shared cfg))) /\
  NoDup (map Location_Id (locations (shared cfg))).
Proof.
  intros Hr0 Hsteps.
  assert (reachable (shared cfg)) as Hr by (by eapply steps_reachable).
  pose proof (reachable_invariant _ Hr) as (_ & Hf & Hl & _).
  destruct (steps_extends _ _ Hsteps Hr0) as [_ Ef El _ _ _].
  repeat split; try done.
  - apply NoDup_alt. intros i j x Hi Hj.
    apply list_lookup_fmap_Some in Hi as (fi & -> & Hi).
    apply list_lookup_fmap_Some in Hj as (fj & Hx & Hj).
    apply Hf in Hi, Hj. lia.
  - apply NoDup_alt. intros i j x Hi Hj.
    apply list_lookup_fmap_Some in Hi as (li & -> & Hi).
    apply list_lookup_fmap_Some in Hj as (lj & Hx & Hj).
    apply Hl in Hi, Hj. lia.
Qed.

Lemma C6_witness :
  reachable (shared laterStart) /\ rtc step laterStart laterEnd /\
  (forall (k : nat) fn, functions (shared laterEnd) !! k = Some fn ->
                        Function_Id fn = Z.of_nat k + 1) /\
  (forall (k : nat) loc, locations (shared laterEnd) !! k = Some loc ->
                         Location_Id loc = Z.of_nat k + 1) /\
  functions (shared laterStart) `prefix_of` functions (shared laterEnd) /\
  locations (shared laterStart) `prefix_of` locations (shared laterEnd) /\
  NoDup (map Function_Id (functions (shared laterEnd))) /\
  NoDup (map Location_Id (locations (shared laterEnd))).
Proof.
  split; [apply laterStart_reachable|]. split; [apply later_steps|].
  exact (C6_dense_ids laterStart laterEnd laterStart_reachable later_steps).
Defined.

(** C10. Whatever calls of [AddString], [GetOrCreateFunction] and
    [GetOrCreateLocation] the goroutines make from a state of a build, every
    string, Function and Location of that state is found afterwards at the
    same place and unchanged (its id and the handles it refers to
    included), and every key of the three indexes keeps its value. *)
Theorem C10_append_only cfg0 cfg :
  reachable (shared cfg0) -> rtc step cfg0 cfg ->
  (forall (i : nat) s, stringTable (shared cfg0) !! i = Some s ->
                       stringTable (shared cfg) !! i = Some s) /\
  (forall (k : nat) fn, functions (shared cfg0) !! k = Some fn ->
                        functions (shared cfg) !! k = Some fn) /\
  (forall (k : nat) loc, locations (shared cfg0) !! k = Some loc ->
                         locations (shared cfg) !! k = Some loc) /\
  (forall s idx, stringIndex (shared cfg0) !! s = Some idx ->
                 stringIndex (shared cfg) !! s = Some idx) /\
  (forall key id, functionIndex (shared cfg0) !! key = Some id ->
                  functionIndex (shared cfg) !! key = Some id) /\
  (forall key id, locationIndex (shared cfg0) !! key = Some id ->
                  locationIndex (shared cfg) !! key = Some id).
Proof.
  intros Hr0 Hsteps.
  destruct (steps_extends _ _ Hsteps Hr0) as [Es Ef El Is If Il].
  repeat split; intros ? ? H.
  - by eapply prefix_lookup_Some.
  - by eapply prefix_lookup_Some.
  - by eapply prefix_lookup_Some.
  - by eapply lookup_weaken.
  - by eapply lookup_weaken.
  - by eapply lookup_weaken.
Qed.

Lemma C10_witness :
  reachable (shared laterStart) /\ rtc step laterStart laterEnd /\
  (forall (i : nat) s, stringTable (shared laterStart) !! i = Some s ->
                       stringTable (shared laterEnd) !! i = Some s) /\
  (forall (k : nat) fn, functions (shared laterStart) !! k = Some fn ->
                        functions (shared laterEnd) !! k = Some fn) /\
  (forall (k : nat) loc, locations (shared laterStart) !! k = Some loc ->
                         locations (shared laterEnd) !! k = Some loc) /\
  (forall s idx, stringIndex (shared laterStart) !! s = Some idx ->
                 stringIndex (shared laterEnd) !! s = Some idx) /\
  (forall key id, functionIndex (shared laterStart) !! key = Some id ->
                  functionIndex (shared laterEnd) !! key = Some id) /\
  (forall key id, locationIndex (shared laterStart) !! key = Some id ->
                  locationIndex (shared laterEnd) !! key = Some id).
Proof.
  split; [apply laterStart_reachable|]. split; [apply later_steps|].
  exact (C10_append_only laterStart laterEnd laterStart_reachable later_steps).
Defined.

End BuilderClaims.

(** * Sums *)

(** The sum a Go loop [total += x] over [int64] values computes. *)
Definition sumInt64 (l : list Z) : Z :=
  fold_left (fun total x => int64 (total + x)) l 0.

Definition sumZ (l : list Z) : Z := foldr Z.add 0 l.

(** The sum of a weight over the values of a map. *)
Definition mapWeight {K V} `{Countable K} (w : V -> Z) (m : gmap K V) : Z :=
  sumZ (map (fun kv => w (snd kv)) (map_to_list m)).

Section Sums.

Lemma int64_mod z : int64 z mod 2 ^ 64 = z mod 2 ^ 64.
Proof.
  unfold int64. rewrite Zminus_mod_idemp_l. f_equal. lia.
Qed.

Lemma int64_congr a b : a mod 2 ^ 64 = b mod 2 ^ 64 -> int64 a = int64 b.
Proof.
  intros E. unfold int64.
  rewrite <- (Zplus_mod_idemp_l a), <- (Zplus_mod_idemp_l b). by rewrite E.
Qed.

Lemma int64_add_l a b : int64 (int64 a + b) = int64 (a + b).
Proof.
  apply int64_congr. rewrite <- Zplus_mod_idemp_l, int64_mod.
  by rewrite Zplus_mod_idemp_l.
Qed.

Lemma int64_add_r a b : int64 (a + int64 b) = int64 (a + b).
Proof. rewrite (Z.add_comm a), int64_add_l. f_equal. lia. Qed.

Lemma int64_small z : - 2 ^ 63 <= z < 2 ^ 63 -> int64 z = z.
Proof. intros Hz. unfold int64. rewrite Z.mod_small; lia. Qed.

Lemma sumZ_app l1 l2 : sumZ (l1 ++ l2) = sumZ l1 + sumZ l2.
Proof. induction l1 as [|x l1 IH]; simpl; lia. Qed.

Lemma sumZ_Permutation l1 l2 : l1 ≡ₚ l2 -> sumZ l1 = sumZ l2.
Proof. induction 1; simpl; lia. Qed.

Lemma sumZ_concat {A} (w : A -> Z) (ls : list (list A)) :
  sumZ (map w (concat ls)) = sumZ (map (fun l => sumZ (map w l)) ls).
Proof.
  induction ls as [|l ls IH]; simpl; [done|].
  by rewrite map_app, sumZ_app, IH.
Qed.

Lemma sumInt64_from total l :
  fold_left (fun total x => int64 (total + x)) l (int64 total) = int64 (total + sumZ l).
Proof.
  revert total. induction l as [|x l IH]; intros total; simpl.
  - f_equal. lia.
  - rewrite int64_add_l, IH. f_equal. lia.
Qed.

Lemma sumInt64_sumZ l : sumInt64 l = int64 (sumZ l).
Proof.
  unfold sumInt64. change (sumZ l) with (0 + sumZ l).
  rewrite <- sumInt64_from. reflexivity.
Qed.

Context {K V : Type} `{Countable K}.
Implicit Types (m : gmap K V) (w : V -> Z).

Lemma mapWeight_empty w : mapWeight w (∅ : gmap K V) = 0.
Proof. unfold mapWeight. by rewrite map_to_list_empty. Qed.

Lemma mapWeight_insert_None w m k v :
  m !! k = None -> mapWeight w (<[k := v]> m) = mapWeight w m + w v.
Proof.
  intros Hk. unfold mapWeight.
  rewrite (sumZ_Permutation _ _
             (Permutation_map _ (map_to_list_insert m k v Hk))).
  simpl. lia.
Qed.

Lemma mapWeight_insert_Some w m k v old :
  m !! k = Some old -> mapWeight w (<[k := v]> m) = mapWeight w m - w old + w v.
Proof.
  intros Hk. rewrite <- insert_delete_eq.
  rewrite mapWeight_insert_None by apply lookup_delete_eq.
  unfold mapWeight.
  rewrite <- (sumZ_Permutation _ _
                (Permutation_map _ (map_to_list_delete m k old Hk))).
  simpl. lia.
Qed.

Lemma mapWeight_fmap {U} (f : U -> V) w (m : gmap K U) :
  mapWeight w (f <$> m) = mapWeight (fun u => w (f u)) m.
Proof.
  unfold mapWeight. rewrite map_to_list_fmap.
  change (prod_map id f <$> map_to_list m) with (map (prod_map id f) (map_to_list m)).
  rewrite map_map. reflexivity.
Qed.

Lemma mapWeight_ext w1 w2 m :
  (forall v, w1 v = w2 v) -> mapWeight w1 m = mapWeight w2 m.
Proof.
  intros E. unfold mapWeight. f_equal. apply map_ext. intros [k v]. apply E.
Qed.

End Sums.

(** * The conversion: what is summed *)

(** [int64(e.Dur * 1000)] *)
Definition durationNs (e : TraceEvent) : Z := int64_of_float (Dur e * 1000)%float.

(** An event of phase [X] with a duration above zero. *)
Definition positiveComplete (e : TraceEvent) : bool :=
  String.eqb (Ph e) "X" && (0 <? Dur e)%float.

(** [Value[1]] of a sample. *)
Definition sampleDuration (s : Sample) : Z := Sample_Value s !!! 1%nat.

(** [Value[0]] of a sample. *)
Definition sampleCount (s : Sample) : Z := Sample_Value s !!! 0%nat.

Definition threadDuration (events : list eventWithEnd) : Z :=
  sumZ (map (fun e => durationNs (Event e)) events).

Definition samplesOf (pb : Builder) : list Sample := Profile_Sample (Builder_profile pb).

(** The orders in which one consumer can receive what the workers send:
    each worker's samples in its own order, the workers interleaved in any
    way. *)
Inductive merges {A} : list (list A) -> list A -> Prop :=
  | merges_done queues :
      Forall (fun q => q = []) queues -> merges queues []
  | merges_next queues i x q l :
      queues !! i = Some (x :: q) ->
      merges (<[i := q]> queues) l ->
      merges queues (x :: l).

Section Interleavings.

Context {A : Type}.

Implicit Types (queues : list (list A)) (l : list A).

Lemma merges_idle queues l : merges queues l -> merges ([] :: queues) l.
Proof.
  induction 1 as [queues Hall|queues i x q l Hi _ IH].
  - apply merges_done. by constructor.
  - by apply (merges_next _ (S i) x q).
Qed.

Lemma merges_concat queues : merges queues (concat queues).
Proof.
  induction queues as [|q0 queues IH]; simpl; [by apply merges_done|].
  induction q0 as [|x q0 IHq]; simpl; [by apply merges_idle|].
  by apply (merges_next _ 0%nat x q0).
Qed.

(** Every schedule gives such an order, and every such order is given by a
    schedule. *)
Lemma interleave_merges sched queues : merges queues (interleave sched queues).
Proof.
  revert queues. induction sched as [|i sched IH]; intros queues; simpl.
  - apply merges_concat.
  - destruct (queues !! i) as [[|x q]|] eqn:Hi; [apply IH| |apply IH].
    by apply (merges_next _ i x q).
Qed.

Lemma interleave_complete queues l :
  merges queues l -> exists sched, interleave sched queues = l.
Proof.
  induction 1 as [queues Hall|queues i x q l Hi _ [sched IH]].
  - exists []. simpl. induction Hall as [|q queues -> _ IH]; [done | exact IH].
  - exists (i :: sched). simpl. by rewrite Hi, IH.
Qed.

End Interleavings.

Section Received.

Lemma interleave_Permutation {A} (sched : list nat) (queues : list (list A)) :
  interleave sched queues ≡ₚ concat queues.
Proof.
  revert queues. induction sched as [|i sched IH]; intros queues; simpl; [done|].
  destruct (queues !! i) as [[|x q]|] eqn:Hq; try apply IH.
  rewrite IH. clear IH. revert i Hq.
  induction queues as [|q0 queues IHq]; intros [|i] Hq; simplify_eq/=; [done|].
  rewrite <- (IHq _ Hq). apply Permutation_middle.
Qed.

Lemma processEvents_timeNs stack events :
  map stackSample_timeNs (processEvents stack events) =
  map (fun e => durationNs (Event e)) events.
Proof.
  revert stack. induction events as [|e events IH]; intros stack; simpl; [done|].
  by rewrite IH.
Qed.

Lemma leb_zero_ltb d : is_nan d = false -> (d <=? 0)%float = negb (0 <? d)%float.
Proof.
  unfold is_nan.
  rewrite FloatAxioms.eqb_spec, FloatAxioms.leb_spec, FloatAxioms.ltb_spec.
  change (Prim2SF 0) with (S754_zero false).
  destruct (Prim2SF d) as [s|s| |s m e]; simpl; try destruct s; done.
Qed.

(** Off NaN, the events the grouping loop keeps are the events of phase [X]
    with a duration above zero. *)
Lemma skipped_positiveComplete e :
  is_nan (Dur e) = false -> negb (skipped e) = positiveComplete e.
Proof.
  intros Hnan. unfold skipped, positiveComplete.
  rewrite (leb_zero_ltb _ Hnan).
  destruct (String.eqb (Ph e) "X"), (0 <? Dur e)%float; reflexivity.
Qed.

Lemma groupByThread_weight events (m : gmap Z (list eventWithEnd)) :
  mapWeight threadDuration
    (fold_left
       (fun threadEvents e =>
          if skipped e then threadEvents
          else
            let tid := getTid (Tid e) in
            <[tid := (threadEvents !!! tid) ++
                     [ {| Event := e; End_ := (Ts e + Dur e)%float |} ] ]> threadEvents)
       events m) =
  mapWeight threadDuration m +
  sumZ (map durationNs (List.filter (fun e => negb (skipped e)) events)).
Proof.
  revert m. induction events as [|e events IH]; intros m; simpl; [lia|].
  rewrite IH. destruct (skipped e); simpl; [done|].
  rewrite lookup_total_alt.
  destruct (m !! getTid (Tid e)) as [l|] eqn:Hl; simpl.
  - rewrite (mapWeight_insert_Some _ _ _ _ l Hl).
    unfold threadDuration. rewrite map_app, sumZ_app. simpl. lia.
  - rewrite (mapWeight_insert_None _ _ _ _ Hl).
    unfold threadDuration. simpl. lia.
Qed.

(** No operation of the Builder writes the samples of the profile. *)
Lemma addStringLocked_samples pb s : samplesOf (snd (addStringLocked pb s)) = samplesOf pb.
Proof. unfold addStringLocked. by destruct (stringIndex pb !! s). Qed.

Lemma createFunction_samples pb name filename :
  samplesOf (snd (createFunction pb name filename)) = samplesOf pb.
Proof.
  unfold createFunction.
  pose proof (addStringLocked_samples pb name) as S1.
  destruct (addStringLocked pb name) as [fname pb1]; simpl in S1.
  pose proof (addStringLocked_samples pb1 name) as S2.
  destruct (addStringLocked pb1 name) as [sname pb2]; simpl in S2.
  pose proof (addStringLocked_samples pb2 filename) as S3.
  destruct (addStringLocked pb2 filename) as [ffile pb3]; simpl in S3.
  unfold samplesOf in *. simpl. congruence.
Qed.

Lemma GetOrCreateLocation_samples pb name filename :
  samplesOf (snd (GetOrCreateLocation pb name filename)) = samplesOf pb.
Proof.
  unfold GetOrCreateLocation, GetOrCreateLocation_read, GetOrCreateLocation_write.
  destruct (locationIndex pb !! indexKey name filename); simpl; [done|].
  destruct (default 0 (functionIndex pb !! indexKey name filename) =? 0); [|done].
  pose proof (createFunction_samples pb name filename) as S1.
  by destruct (createFunction pb name filename).
Qed.

Lemma buildLocationIds_samples pb names cats :
  samplesOf (snd (buildLocationIds pb names cats)) = samplesOf pb.
Proof.
  unfold buildLocationIds. generalize (length names) at 1 as n.
  generalize (replicate (length names) 0) as ids.
  generalize (seq 0 (length names)) as idxs.
  intros idxs. revert pb.
  induction idxs as [|i idxs IH]; intros pb ids n; simpl; [done|].
  pose proof (GetOrCreateLocation_samples pb (names !!! i) (cats !!! i)) as S1.
  destruct (GetOrCreateLocation pb (names !!! i) (cats !!! i)) as [locId pb1].
  rewrite IH. exact S1.
Qed.

Lemma aggregate_samples st sample :
  samplesOf (fst (aggregate st sample)) = samplesOf (fst st).
Proof.
  destruct st as [pb sampleMap]. unfold aggregate.
  destruct (sampleMap !! sampleKey (stackSample_stack sample)); simpl; [done|].
  pose proof (buildLocationIds_samples pb (stackSample_names sample)
                (stackSample_cats sample)) as S1.
  by destruct (buildLocationIds pb _ _).
Qed.

Lemma fold_aggregate_samples samples st :
  samplesOf (fst (fold_left aggregate samples st)) = samplesOf (fst st).
Proof.
  revert st. induction samples as [|x samples IH]; intros st; simpl; [done|].
  by rewrite IH, aggregate_samples.
Qed.

(** The durations of the sample map add up to the durations received. *)
Lemma aggregate_weight st sample :
  int64 (mapWeight sampleData_timeNs (snd (aggregate st sample))) =
  int64 (mapWeight sampleData_timeNs (snd st) + stackSample_timeNs sample).
Proof.
  destruct st as [pb sampleMap]. unfold aggregate.
  destruct (sampleMap !! sampleKey (stackSample_stack sample)) as [existing|] eqn:Hk; simpl.
  - rewrite (mapWeight_insert_Some _ _ _ _ existing Hk). simpl.
    rewrite int64_add_r. f_equal. lia.
  - destruct (buildLocationIds pb _ _) as [locationIds pb1]. simpl.
    by rewrite (mapWeight_insert_None _ _ _ _ Hk).
Qed.

Lemma fold_aggregate_weight samples st :
  int64 (mapWeight sampleData_timeNs (snd (fold_left aggregate samples st))) =
  int64 (mapWeight sampleData_timeNs (snd st) + sumZ (map stackSample_timeNs samples)).
Proof.
  revert st. induction samples as [|x samples IH]; intros st; simpl.
  - f_equal. lia.
  - rewrite IH, <- int64_add_l, aggregate_weight, int64_add_l. f_equal. lia.
Qed.

Lemma sumZ_nonneg l : Forall (fun x => 0 <= x) l -> 0 <= sumZ l.
Proof. induction 1; simpl; lia. Qed.

(** With no negative entry, an entry is at most the total. *)
Lemma mapWeight_entry_le (m : gmap string sampleData) k d :
  (forall k' d', m !! k' = Some d' -> 0 <= sampleData_timeNs d') ->
  m !! k = Some d ->
  sampleData_timeNs d <= mapWeight sampleData_timeNs m.
Proof.
  intros Hpos Hk. unfold mapWeight.
  rewrite <- (sumZ_Permutation _ _ (Permutation_map _ (map_to_list_delete m k d Hk))).
  simpl. enough (0 <= sumZ (map (fun kv => sampleData_timeNs (snd kv))
                              (map_to_list (delete k m)))) by lia.
  apply sumZ_nonneg, Forall_forall. intros t Ht.
  apply list_elem_of_In, in_map_iff in Ht as ([k' d'] & <- & Hin).
  apply list_elem_of_In, elem_of_map_to_list, lookup_delete_Some in Hin as [_ Hin].
  by eapply Hpos.
Qed.

(** While the durations are not negative and their total fits an [int64],
    no addition of the aggregation wraps around. *)
Lemma fold_aggregate_exact samples st :
  (forall k d, snd st !! k = Some d -> 0 <= sampleData_timeNs d) ->
  Forall (fun x => 0 <= stackSample_timeNs x) samples ->
  mapWeight sampleData_timeNs (snd st) + sumZ (map stackSample_timeNs samples) < 2 ^ 63 ->
  mapWeight sampleData_timeNs (snd (fold_left aggregate samples st)) =
  mapWeight sampleData_timeNs (snd st) + sumZ (map stackSample_timeNs samples).
Proof.
  intros Hpos Hsamples. revert st Hpos.
  induction Hsamples as [|x samples Hx Hsamples IH]; intros [pb m] Hpos Hbound.
  - simpl in *. lia.
  - change (sumZ (map stackSample_timeNs (x :: samples)))
      with (stackSample_timeNs x + sumZ (map stackSample_timeNs samples)) in *.
    cbn [fold_left snd] in *.
    pose proof (sumZ_nonneg _ (proj2 (Forall_fmap _ _ _) Hsamples)) as Hrest.
    change (stackSample_timeNs <$> samples) with (map stackSample_timeNs samples) in Hrest.
    assert (mapWeight sampleData_timeNs (snd (aggregate (pb, m) x)) =
            mapWeight sampleData_timeNs m + stackSample_timeNs x /\
            (forall k d, snd (aggregate (pb, m) x) !! k = Some d ->
                         0 <= sampleData_timeNs d)) as [Hw Hpos'].
    { unfold aggregate.
      destruct (m !! sampleKey (stackSample_stack x)) as [existing|] eqn:Hk; simpl.
      - pose proof (mapWeight_entry_le m _ _ Hpos Hk) as Hle.
        pose proof (Hpos _ _ Hk) as Hex.
        rewrite (mapWeight_insert_Some _ _ _ _ existing Hk). simpl.
        rewrite int64_small by lia. split; [lia|].
        intros k d [[_ <-]|[_ Hd]]%lookup_insert_Some; simpl; [lia | by eapply Hpos].
      - destruct (buildLocationIds pb _ _) as [locationIds pb1]. simpl.
        rewrite (mapWeight_insert_None _ _ _ _ Hk). simpl. split; [done|].
        intros k d [[_ <-]|[_ Hd]]%lookup_insert_Some; simpl; [lia | by eapply Hpos]. }
    rewrite (IH (aggregate (pb, m) x) Hpos'); rewrite Hw; lia.
Qed.

(** What the grouping loop puts on a thread are events of the trace that it
    does not skip. *)
Lemma groupByThread_elem events tid l e :
  groupByThread events !! tid = Some l -> In e l ->
  In (Event e) events /\ skipped (Event e) = false.
Proof.
  unfold groupByThread.
  enough (forall (m : gmap Z (list eventWithEnd)),
            (forall tid l e, m !! tid = Some l -> In e l ->
                             In (Event e) events /\ skipped (Event e) = false) ->
            forall done,
              (forall e, In e done -> In e events) ->
              forall tid l e,
                fold_left
                  (fun threadEvents e =>
                     if skipped e then threadEvents
                     else
                       let tid := getTid (Tid e) in
                       <[tid := (threadEvents !!! tid) ++
                                [ {| Event := e; End_ := (Ts e + Dur e)%float |} ] ]>
                         threadEvents) done m !! tid = Some l ->
                In e l -> In (Event e) events /\ skipped (Event e) = false) as E.
  { apply (E ∅); [intros ? ? ?; by rewrite lookup_empty | done]. }
  intros m Hm done. revert m Hm.
  induction done as [|e0 done IH]; intros m Hm Hdone tid' l' e'; simpl; [apply Hm|].
  apply IH; [|intros; apply Hdone; by right].
  destruct (skipped e0) eqn:Hs; [done|].
  intros tid1 l1 e1 Hl1 Hin.
  apply lookup_insert_Some in Hl1 as [[<- <-]|[_ Hl1]]; [|by eapply Hm].
  apply in_app_or in Hin as [Hin|[<-|[]]].
  - rewrite lookup_total_alt in Hin.
    destruct (m !! getTid (Tid e0)) as [l0|] eqn:Hl0; simpl in Hin; [|done].
    by eapply Hm.
  - simpl. split; [apply Hdone; by left | done].
Qed.

Lemma processEvents_timeNs_elem stack events x :
  In x (processEvents stack events) ->
  exists e, In e events /\ stackSample_timeNs x = durationNs (Event e).
Proof.
  revert stack. induction events as [|e events IH]; intros stack; simpl; [done|].
  intros [<-|Hin].
  - exists e. split; [by left | done].
  - destruct (IH _ Hin) as (e' & He' & Ht). exists e'. split; [by right | done].
Qed.

End Received.

Section ConversionTotals.

Variable sort_Slice :
  (eventWithEnd -> eventWithEnd -> bool) -> list eventWithEnd -> list eventWithEnd.

(** What every sort does: the result holds the elements of the slice. *)
Hypothesis sort_Slice_Permutation : forall less l, sort_Slice less l ≡ₚ l.

Variable sched : list nat.

Lemma append_samples (l : list (string * sampleData)) pb :
  samplesOf
    (fold_left
       (fun pb ks =>
          with_profile pb
            (with_Sample (Builder_profile pb)
               (Profile_Sample (Builder_profile pb) ++ [toSample (snd ks)])))
       l pb) =
  samplesOf pb ++ map (fun ks => toSample (snd ks)) l.
Proof.
  revert pb. induction l as [|ks l IH]; intros pb; simpl.
  - by rewrite app_nil_r.
  - rewrite IH. unfold samplesOf. simpl. by rewrite <- app_assoc.
Qed.

(** The samples of the profile are the entries of the sample map. *)
Lemma ConvertTrace_samples traceData :
  Profile_Sample (ConvertTrace sort_Slice sched traceData) =
  map (fun ks => toSample (snd ks))
    (map_to_list (snd (aggregated sort_Slice sched traceData))).
Proof.
  unfold ConvertTrace.
  pose proof (fold_aggregate_samples (received sort_Slice sched traceData)
                (initialBuilder, ∅)) as Hs.
  fold (aggregated sort_Slice sched traceData) in Hs.
  destruct (aggregated sort_Slice sched traceData) as [pb sampleMap].
  simpl in *. unfold Build.
  change (Profile_Sample (Builder_profile ?b)) with (samplesOf b).
  by rewrite append_samples, Hs.
Qed.

Lemma received_weight traceData :
  sumZ (map stackSample_timeNs (received sort_Slice sched traceData)) =
  sumZ (map durationNs
          (List.filter (fun e => negb (skipped e)) (TraceEvents traceData))).
Proof.
  unfold received.
  rewrite (sumZ_Permutation _ _ (Permutation_map _ (interleave_Permutation _ _))).
  rewrite sumZ_concat. unfold workerOutputs. rewrite map_map.
  transitivity (mapWeight threadDuration (sortedThreads sort_Slice traceData)).
  { unfold mapWeight. f_equal. apply map_ext. intros [tid events]. simpl.
    unfold ProcessThreadEvents. by rewrite processEvents_timeNs. }
  unfold sortedThreads. rewrite mapWeight_fmap.
  rewrite (mapWeight_ext _ threadDuration).
  2:{ intros l. unfold threadDuration.
      apply sumZ_Permutation, Permutation_map, sort_Slice_Permutation. }
  unfold groupByThread. rewrite groupByThread_weight, mapWeight_empty. lia.
Qed.

(** The durations received are durations of events the grouping keeps. *)
Lemma received_timeNs traceData x :
  In x (received sort_Slice sched traceData) ->
  exists e, In e (TraceEvents traceData) /\ skipped e = false /\
            stackSample_timeNs x = durationNs e.
Proof.
  unfold received. intros Hx.
  apply (Permutation_in _ (interleave_Permutation _ _)), in_concat in Hx
    as (l & Hl & Hx).
  unfold workerOutputs in Hl. apply in_map_iff in Hl as ([tid events] & <- & Hte).
  apply list_elem_of_In, elem_of_map_to_list in Hte.
  unfold sortedThreads in Hte. apply lookup_fmap_Some in Hte as (group & <- & Hgroup).
  destruct (processEvents_timeNs_elem _ _ _ Hx) as (e & He & Ht).
  apply (Permutation_in _ (sort_Slice_Permutation _ _)) in He.
  destruct (groupByThread_elem _ _ _ _ Hgroup He) as [Hin Hskip].
  by exists (Event e).
Qed.

(** The total as the code filters: the events of phase [X] that are not
    skipped for [Dur <= 0], NaN durations included. *)
Lemma kept_total_duration traceData :
  sumInt64 (map sampleDuration (Profile_Sample (ConvertTrace sort_Slice sched traceData))) =
  sumInt64 (map durationNs
              (List.filter (fun e => negb (skipped e)) (TraceEvents traceData))).
Proof.
  rewrite !sumInt64_sumZ, ConvertTrace_samples, map_map.
  change (sumZ (map (fun ks => sampleDuration (toSample (snd ks))) ?l))
    with (mapWeight sampleData_timeNs (snd (aggregated sort_Slice sched traceData))).
  unfold aggregated. rewrite fold_aggregate_weight. simpl snd.
  by rewrite mapWeight_empty, received_weight.
Qed.

Lemma filter_kept_positive events :
  Forall (fun e => is_nan (Dur e) = false) events ->
  List.filter (fun e => negb (skipped e)) events = List.filter positiveComplete events.
Proof.
  induction 1 as [|e events He _ IH]; simpl; [done|].
  by rewrite (skipped_positiveComplete e He), IH.
Qed.

(** C1 (as amended).  For every trace and every schedule of the workers,
    the durations [Value[1]] of the samples of the profile add up, as the
    [int64] a Go loop computes, to the [int64] sum of
    [int64(duration_us * 1000)] over the events the conversion keeps: those
    of phase [X] that are not dropped for [duration_us <= 0].  When no
    duration is NaN, these are the events of phase [X] with
    [duration_us > 0]; and when none of these durations is negative and
    their total fits an [int64], the two sums are equal as integers, nothing
    having wrapped around. *)
Theorem C1_total_duration traceData :
  let samples := Profile_Sample (ConvertTrace sort_Slice sched traceData) in
  let events := List.filter (fun e => negb (skipped e)) (TraceEvents traceData) in
  sumInt64 (map sampleDuration samples) = sumInt64 (map durationNs events) /\
  (Forall (fun e => is_nan (Dur e) = false) (TraceEvents traceData) ->
   events = List.filter positiveComplete (TraceEvents traceData)) /\
  (Forall (fun e => 0 <= durationNs e) events ->
   sumZ (map durationNs events) < 2 ^ 63 ->
   sumZ (map sampleDuration samples) = sumZ (map durationNs events)).
Proof.
  intros samples events. unfold samples, events.
  split; [apply kept_total_duration|]. split; [apply filter_kept_positive|].
  intros Hpos Hbound.
  rewrite ConvertTrace_samples, map_map.
  change (sumZ (map (fun ks => sampleDuration (toSample (snd ks))) ?l))
    with (mapWeight sampleData_timeNs (snd (aggregated sort_Slice sched traceData))).
  unfold aggregated. rewrite fold_aggregate_exact; simpl snd.
  - by rewrite mapWeight_empty, received_weight.
  - intros k d Hd. by rewrite lookup_empty in Hd.
  - apply Forall_forall. intros x Hx. apply list_elem_of_In in Hx.
    destruct (received_timeNs _ _ Hx) as (e & He & Hskip & ->).
    rewrite Forall_forall in Hpos. apply Hpos, list_elem_of_In, filter_In.
    split; [done|]. by rewrite Hskip.
  - rewrite mapWeight_empty, received_weight. lia.
Qed.

End ConversionTotals.

Section InsertionSort.

Context {A : Type} (less : A -> A -> bool).

Lemma insertSorted_Permutation x (l : list A) : insertSorted less x l ≡ₚ x :: l.
Proof.
  induction l as [|y l IH]; simpl; [done|].
  destruct (less x y); [|done]. rewrite IH. apply perm_swap.
Qed.

Lemma insertionSort_Permutation (l : list A) : insertionSort less l ≡ₚ l.
Proof.
  unfold insertionSort. rewrite <- Permutation_rev.
  enough (forall acc,
            fold_left (fun before x => insertSorted less x before) l acc ≡ₚ acc ++ l) as E
    by apply (E []).
  induction l as [|x l IH]; intros acc; simpl; [by rewrite app_nil_r|].
  rewrite IH, insertSorted_Permutation. apply Permutation_middle.
Qed.

End InsertionSort.

(** * The conversion: the location ids of a sample *)

(** The frames of a call stack, ancestors first: (name, category) pairs. *)
Definition frame : Type := string * string.

Definition frameOf (e : eventWithEnd) : frame := (Name (Event e), Cat (Event e)).

(** The three slices of a sample spell out the frames [fs]. *)
Definition framesOf (x : stackSample) (fs : list frame) : Prop :=
  stackSample_names x = map fst fs /\
  stackSample_cats x = map snd fs /\
  stackSample_stack x = map (fun f => frameKey (fst f) (snd f)) fs.

(** [GetOrCreateLocation] on one frame after the other. *)
Fixpoint resolveFrames (pb : Builder) (fs : list frame) : list Z * Builder :=
  match fs with
  | [] => ([], pb)
  | f :: fs' =>
      let '(id, pb) := GetOrCreateLocation pb (fst f) (snd f) in
      let '(ids, pb) := resolveFrames pb fs' in
      (id :: ids, pb)
  end.

(** The handle the location index holds for a frame. *)
Definition handleOf (pb : Builder) (f : frame) (id : Z) : Prop :=
  locationIndex pb !! indexKey (fst f) (snd f) = Some id.

Section LocationIds.

Implicit Types (pb : Builder) (fs : list frame).

Lemma buildLocationIds_loop names cats n fs_done fs_rest pb (ids_done : list Z) :
  names = map fst (fs_done ++ fs_rest) ->
  cats = map snd (fs_done ++ fs_rest) ->
  n = length (fs_done ++ fs_rest) ->
  fold_left
    (fun '(locationIds, pb) i =>
       let '(locId, pb) := GetOrCreateLocation pb (names !!! i) (cats !!! i) in
       (<[(n - 1 - i)%nat := locId]> locationIds, pb))
    (seq (length fs_done) (length fs_rest))
    (replicate (length fs_rest) 0 ++ ids_done, pb) =
  (rev (fst (resolveFrames pb fs_rest)) ++ ids_done, snd (resolveFrames pb fs_rest)).
Proof.
  intros Hn Hc Hlen. revert fs_done pb ids_done Hn Hc Hlen.
  induction fs_rest as [|f fs_rest IH]; intros fs_done pb ids_done Hn Hc Hlen; [done|].
  cbn [length seq fold_left resolveFrames].
  assert (names !!! length fs_done = fst f) as ->.
  { rewrite Hn, map_app. apply list_lookup_total_correct.
    rewrite lookup_app_r; rewrite length_map; [|lia]. by rewrite Nat.sub_diag. }
  assert (cats !!! length fs_done = snd f) as ->.
  { rewrite Hc, map_app. apply list_lookup_total_correct.
    rewrite lookup_app_r; rewrite length_map; [|lia]. by rewrite Nat.sub_diag. }
  destruct (GetOrCreateLocation pb (fst f) (snd f)) as [locId pb1].
  assert ((n - 1 - length fs_done)%nat = length fs_rest) as ->.
  { rewrite Hlen, length_app. simpl. lia. }
  assert (<[length fs_rest := locId]> (replicate (S (length fs_rest)) 0 ++ ids_done) =
          replicate (length fs_rest) 0 ++ locId :: ids_done) as ->.
  { change (S (length fs_rest)) with (1 + length fs_rest)%nat.
    rewrite Nat.add_comm, replicate_add, <- app_assoc. simpl.
    rewrite insert_app_r_alt; rewrite length_replicate; [|lia].
    by rewrite Nat.sub_diag. }
  specialize (IH (fs_done ++ [f]) pb1 (locId :: ids_done)).
  assert (length (fs_done ++ [f]) = S (length fs_done)) as Hl1
    by (rewrite length_app; simpl; lia).
  rewrite Hl1 in IH.
  rewrite IH; rewrite <- ?app_assoc; try done.
  destruct (resolveFrames pb1 fs_rest) as [ids pb2]. simpl.
  by rewrite <- app_assoc.
Qed.

(** The index writes of [buildLocationIds] store the handles in reverse. *)
Lemma buildLocationIds_rev pb x fs :
  framesOf x fs ->
  buildLocationIds pb (stackSample_names x) (stackSample_cats x) =
  (rev (fst (resolveFrames pb fs)), snd (resolveFrames pb fs)).
Proof.
  intros (Hn & Hc & _). unfold buildLocationIds.
  pose proof (buildLocationIds_loop (stackSample_names x) (stackSample_cats x)
                (length (stackSample_names x)) [] fs pb [] Hn Hc) as L.
  rewrite Hn, length_map in *. simpl in L.
  rewrite !app_nil_r in L. by apply L.
Qed.

Lemma GetOrCreateLocation_reachable pb name filename :
  reachable pb -> reachable (snd (GetOrCreateLocation pb name filename)).
Proof.
  intros Hr. unfold GetOrCreateLocation.
  destruct (GetOrCreateLocation_read pb name filename); [done|].
  apply (reachable_write (CallGetOrCreateLocation name filename) pb Hr).
Qed.

Lemma GetOrCreateLocation_extends pb name filename :
  reachable pb -> extends pb (snd (GetOrCreateLocation pb name filename)).
Proof.
  intros Hr. unfold GetOrCreateLocation.
  destruct (GetOrCreateLocation_read pb name filename); [apply extends_refl|].
  apply (writeSection_extends (CallGetOrCreateLocation name filename)).
  by apply reachable_invariant.
Qed.

(** The id [GetOrCreateLocation] returns is the one the index holds. *)
Lemma GetOrCreateLocation_handle pb name filename :
  handleOf (snd (GetOrCreateLocation pb name filename)) (name, filename)
    (fst (GetOrCreateLocation pb name filename)).
Proof.
  unfold handleOf, GetOrCreateLocation, GetOrCreateLocation_read,
    GetOrCreateLocation_write. simpl.
  destruct (locationIndex pb !! indexKey name filename) eqn:Hl; simpl; [done|].
  destruct (default 0 (functionIndex pb !! indexKey name filename) =? 0).
  - destruct (createFunction pb name filename). simpl. apply lookup_insert_eq.
  - simpl. apply lookup_insert_eq.
Qed.

Lemma handleOf_extends pb pb' f id : extends pb pb' -> handleOf pb f id -> handleOf pb' f id.
Proof. intros [_ _ _ _ _ E]. unfold handleOf. intros H. by eapply lookup_weaken. Qed.

Lemma resolveFrames_facts pb fs :
  reachable pb ->
  reachable (snd (resolveFrames pb fs)) /\
  extends pb (snd (resolveFrames pb fs)) /\
  Forall2 (handleOf (snd (resolveFrames pb fs))) fs (fst (resolveFrames pb fs)).
Proof.
  revert pb. induction fs as [|[name cat] fs IH]; intros pb Hr; simpl.
  - split; [done|]. split; [apply extends_refl | constructor].
  - pose proof (GetOrCreateLocation_reachable pb name cat Hr) as R1.
    pose proof (GetOrCreateLocation_extends pb name cat Hr) as E1.
    pose proof (GetOrCreateLocation_handle pb name cat) as H1.
    destruct (GetOrCreateLocation pb name cat) as [id pb1]. simpl in *.
    destruct (IH pb1 R1) as (R2 & E2 & H2).
    destruct (resolveFrames pb1 fs) as [ids pb2]. simpl in *.
    split; [done|]. split; [by eapply extends_trans|].
    constructor; [by eapply handleOf_extends | done].
Qed.

End LocationIds.

Section SampleFrames.

Definition entryFrame (s : stackEntry) : frame := (stackEntry_name s, stackEntry_cat s).

(** The entries that stay on the stack for an event. *)
Definition retained (stack : list stackEntry) (event : eventWithEnd) : list stackEntry :=
  keepContaining event (popEnded (Ts (Event event)) stack).

Lemma processEvent_frames stack event :
  framesOf (snd (processEvent stack event))
    (map entryFrame (retained stack event) ++ [frameOf event]).
Proof.
  unfold framesOf, processEvent, retained. simpl.
  rewrite !map_app, !map_map. simpl. done.
Qed.

Lemma processEvent_stack stack event :
  fst (processEvent stack event) =
  retained stack event ++
  [ {| stackEntry_event := event;
       stackEntry_name := Name (Event event);
       stackEntry_cat := Cat (Event event) |} ].
Proof. reflexivity. Qed.

Lemma processEvents_frames stack events x :
  In x (processEvents stack events) ->
  exists ancestors e, In e events /\ framesOf x (ancestors ++ [frameOf e]).
Proof.
  revert stack. induction events as [|e events IH]; intros stack; simpl; [done|].
  intros [<-|Hin].
  - exists (map entryFrame (retained stack e)), e. split; [by left|].
    apply processEvent_frames.
  - destruct (IH _ Hin) as (ancestors & e' & He' & Hf).
    exists ancestors, e'. split; [by right | done].
Qed.

Lemma initialBuilder_reachable : reachable initialBuilder.
Proof.
  unfold initialBuilder.
  apply reachable_Period, reachable_SetPeriodType, reachable_SetSampleTypes,
    reachable_NewBuilder.
Qed.

Variable sort_Slice :
  (eventWithEnd -> eventWithEnd -> bool) -> list eventWithEnd -> list eventWithEnd.
Variable sched : list nat.

(** Every sample received is the stack of one event of one thread. *)
Lemma received_frames traceData x :
  x ∈ received sort_Slice sched traceData ->
  exists ancestors e tid events,
    sortedThreads sort_Slice traceData !! tid = Some events /\
    In e events /\ framesOf x (ancestors ++ [frameOf e]).
Proof.
  unfold received. rewrite interleave_Permutation.
  intros Hx%list_elem_of_In. apply in_concat in Hx as (l & Hl & Hx).
  unfold workerOutputs in Hl. apply in_map_iff in Hl as ([tid events] & <- & Hte).
  apply list_elem_of_In, elem_of_map_to_list in Hte.
  destruct (processEvents_frames _ _ _ Hx) as (ancestors & e & He & Hf).
  by exists ancestors, e, tid, events.
Qed.

End SampleFrames.

(** * The entries of the sample map *)

(** Every entry of the sample map was made from a received sample of its
    key, and holds the handles of that sample's frames, leaf first. *)
Definition entriesResolved (samples : list stackSample)
    (st : Builder * gmap string sampleData) : Prop :=
  forall key d, snd st !! key = Some d ->
    exists x ancestors leaf ids lid,
      x ∈ samples /\
      sampleKey (stackSample_stack x) = key /\
      framesOf x (ancestors ++ [leaf]) /\
      sampleData_locationIds d = lid :: rev ids /\
      handleOf (fst st) leaf lid /\
      Forall2 (handleOf (fst st)) ancestors ids.

Section Aggregation.

Lemma aggregate_resolved samples pb sampleMap x ancestors leaf :
  reachable pb ->
  entriesResolved samples (pb, sampleMap) ->
  framesOf x (ancestors ++ [leaf]) ->
  reachable (fst (aggregate (pb, sampleMap) x)) /\
  entriesResolved (samples ++ [x]) (aggregate (pb, sampleMap) x).
Proof.
  intros Hr Hres Hx. unfold aggregate.
  destruct (sampleMap !! sampleKey (stackSample_stack x)) as [existing|] eqn:Hk.
  - split; [done|]. intros key d. simpl.
    intros [[<- <-]|[Hne Hd]]%lookup_insert_Some.
    + destruct (Hres _ _ Hk) as (x' & anc' & leaf' & ids & lid & Hin & ? & ? & ? & ? & ?).
      exists x', anc', leaf', ids, lid. simpl. split_and!; try done.
      apply elem_of_app. by left.
    + destruct (Hres _ _ Hd) as (x' & anc' & leaf' & ids & lid & Hin & ? & ? & ? & ? & ?).
      exists x', anc', leaf', ids, lid. split_and!; try done.
      apply elem_of_app. by left.
  - rewrite (buildLocationIds_rev pb x _ Hx).
    destruct (resolveFrames_facts pb (ancestors ++ [leaf]) Hr) as (Hr' & He & Hh).
    destruct (resolveFrames pb (ancestors ++ [leaf])) as [allIds pb']. simpl in *.
    split; [done|]. intros key d. simpl.
    intros [[<- <-]|[Hne Hd]]%lookup_insert_Some.
    + apply Forall2_app_inv_l in Hh as (ids & lids & Hanc & Hleaf & ->).
      apply Forall2_cons_inv_l in Hleaf as (lid & rest & Hlid & Hrest & ->).
      apply Forall2_nil_inv_l in Hrest as ->.
      exists x, ancestors, leaf, ids, lid. simpl. split_and!; try done.
      * apply elem_of_app. right. apply list_elem_of_singleton. done.
      * by rewrite rev_app_distr.
    + destruct (Hres _ _ Hd) as (x' & anc' & leaf' & ids & lid & Hin & ? & ? & ? & Hl & Ha).
      exists x', anc', leaf', ids, lid. simpl in *. split_and!; try done.
      * apply elem_of_app. by left.
      * by eapply handleOf_extends.
      * eapply Forall2_impl; [exact Ha|]. intros f id. by apply handleOf_extends.
Qed.

Lemma fold_aggregate_resolved xs samples st :
  reachable (fst st) ->
  entriesResolved samples st ->
  (forall x, x ∈ xs -> exists ancestors leaf, framesOf x (ancestors ++ [leaf])) ->
  reachable (fst (fold_left aggregate xs st)) /\
  entriesResolved (samples ++ xs) (fold_left aggregate xs st).
Proof.
  revert samples st. induction xs as [|x xs IH]; intros samples [pb sampleMap] Hr Hres Hwf.
  - simpl. by rewrite app_nil_r.
  - destruct (Hwf x) as (ancestors & leaf & Hx); [by left|].
    destruct (aggregate_resolved _ _ _ _ _ _ Hr Hres Hx) as [Hr' Hres'].
    simpl. destruct (aggregate (pb, sampleMap) x) as [pb' sampleMap'] eqn:Ha.
    replace (samples ++ x :: xs) with ((samples ++ [x]) ++ xs)
      by (by rewrite <- app_assoc).
    apply IH; [done..|]. intros x' Hx'. apply Hwf. by right.
Qed.

End Aggregation.

Section LeafFirst.

Variable sort_Slice :
  (eventWithEnd -> eventWithEnd -> bool) -> list eventWithEnd -> list eventWithEnd.
Variable sched : list nat.

Lemma aggregated_resolved traceData :
  reachable (fst (aggregated sort_Slice sched traceData)) /\
  entriesResolved (received sort_Slice sched traceData)
    (aggregated sort_Slice sched traceData).
Proof.
  unfold aggregated.
  apply (fold_aggregate_resolved (received sort_Slice sched traceData) []
           (initialBuilder, ∅)).
  - apply initialBuilder_reachable.
  - intros key d Hd. simpl in Hd. by rewrite lookup_empty in Hd.
  - intros x Hx.
    destruct (received_frames _ _ _ _ Hx) as (ancestors & e & _ & _ & _ & _ & Hf).
    by exists ancestors, (frameOf e).
Qed.

(** C7. Every sample of the profile comes from a received sample whose
    frames are, ancestors first, [ancestors ++ [leaf]]; its [LocationId] is
    the handle of the leaf followed by the handles of the ancestors in
    reverse, so index 0 holds the handle of the leaf.  When the key of a
    received sample is in the sample map already, the aggregation step
    leaves the Builder as it is (no handle is allocated) and the location
    ids of the entry as they are, and adds one to the count and the
    duration to the total. *)
Theorem C7_leaf_first traceData :
  (forall s, s ∈ Profile_Sample (ConvertTrace sort_Slice sched traceData) ->
     exists x ancestors leaf ids lid,
       x ∈ received sort_Slice sched traceData /\
       framesOf x (ancestors ++ [leaf]) /\
       Sample_LocationId s = lid :: rev ids /\
       handleOf (fst (aggregated sort_Slice sched traceData)) leaf lid /\
       Forall2 (handleOf (fst (aggregated sort_Slice sched traceData))) ancestors ids) /\
  (forall pb sampleMap x existing,
     sampleMap !! sampleKey (stackSample_stack x) = Some existing ->
     aggregate (pb, sampleMap) x =
     (pb,
      <[sampleKey (stackSample_stack x) :=
          {| sampleData_locationIds := sampleData_locationIds existing;
             sampleData_count := int64 (sampleData_count existing + 1);
             sampleData_timeNs :=
               int64 (sampleData_timeNs existing + stackSample_timeNs x) |}]>
        sampleMap)).
Proof.
  split.
  - intros s Hs. rewrite ConvertTrace_samples in Hs.
    apply list_elem_of_In, in_map_iff in Hs as ([key d] & <- & Hkd).
    apply list_elem_of_In, elem_of_map_to_list in Hkd.
    destruct (aggregated_resolved traceData) as [_ Hres].
    destruct (Hres _ _ Hkd) as (x & ancestors & leaf & ids & lid & ? & ? & ? & ? & ? & ?).
    by exists x, ancestors, leaf, ids, lid.
  - intros pb sampleMap x existing Hk. unfold aggregate. by rewrite Hk.
Qed.

End LeafFirst.

(** * The order of [float64] values

    The comparisons of binary64 are read through their specification on
    [spec_float]: every value but NaN has a rank in a lexicographic order of
    three integers, and [<=] and [<] compare ranks. *)

Definition rank (x : spec_float) : option (Z * Z * Z) :=
  match x with
  | S754_nan => None
  | S754_infinity true => Some (-2, 0, 0)
  | S754_finite true m e => Some (-1, - e, - Zpos m)
  | S754_zero _ => Some (0, 0, 0)
  | S754_finite false m e => Some (1, e, Zpos m)
  | S754_infinity false => Some (2, 0, 0)
  end.

Definition rankLe (a b : Z * Z * Z) : Prop :=
  a.1.1 < b.1.1 \/
  (a.1.1 = b.1.1 /\ (a.1.2 < b.1.2 \/ (a.1.2 = b.1.2 /\ a.2 <= b.2))).

Definition rankLt (a b : Z * Z * Z) : Prop :=
  a.1.1 < b.1.1 \/
  (a.1.1 = b.1.1 /\ (a.1.2 < b.1.2 \/ (a.1.2 = b.1.2 /\ a.2 < b.2))).

Definition floatRank (x : float) : option (Z * Z * Z) := rank (Prim2SF x).

Ltac rank_cases :=
  split;
  [ first [ done
          | intros _; eexists _, _; split; [reflexivity|]; split; [reflexivity|];
            simpl; lia ]
  | first [ done
          | intros (? & ? & [= <-] & [= <-] & Hrank); simpl in Hrank; lia
          | intros (? & ? & ? & ? & _); done ] ].

Section FloatOrder.

Lemma SFleb_rank x y :
  SFleb x y = true <-> exists a b, rank x = Some a /\ rank y = Some b /\ rankLe a b.
Proof.
  unfold SFleb, rankLe.
  destruct x as [sx|sx| |sx mx ex], y as [sy|sy| |sy my ey];
    try destruct sx; try destruct sy; simpl; try rank_cases.
  all: change (Pos.compare_cont Eq mx my) with (Pos.compare mx my).
  all: destruct (Z.compare_spec ex ey); destruct (Pos.compare_spec mx my); simpl.
  all: rank_cases.
Qed.

Lemma SFltb_rank x y :
  SFltb x y = true <-> exists a b, rank x = Some a /\ rank y = Some b /\ rankLt a b.
Proof.
  unfold SFltb, rankLt.
  destruct x as [sx|sx| |sx mx ex], y as [sy|sy| |sy my ey];
    try destruct sx; try destruct sy; simpl; try rank_cases.
  all: change (Pos.compare_cont Eq mx my) with (Pos.compare mx my).
  all: destruct (Z.compare_spec ex ey); destruct (Pos.compare_spec mx my); simpl.
  all: rank_cases.
Qed.

Lemma leb_rank x y :
  (x <=? y)%float = true <->
  exists a b, floatRank x = Some a /\ floatRank y = Some b /\ rankLe a b.
Proof. rewrite FloatAxioms.leb_spec. apply SFleb_rank. Qed.

Lemma ltb_rank x y :
  (x <? y)%float = true <->
  exists a b, floatRank x = Some a /\ floatRank y = Some b /\ rankLt a b.
Proof. rewrite FloatAxioms.ltb_spec. apply SFltb_rank. Qed.

End FloatOrder.

(** Turns the comparisons that hold in the context into facts on ranks. *)
Ltac float_ranks :=
  repeat match goal with
    | H : (_ <=? _)%float = true |- _ =>
        apply leb_rank in H as (? & ? & ? & ? & H); unfold rankLe in H
    | H : (_ <? _)%float = true |- _ =>
        apply ltb_rank in H as (? & ? & ? & ? & H); unfold rankLt in H
    end;
  repeat match goal with
    | H1 : floatRank ?x = Some _, H2 : floatRank ?x = Some _ |- _ =>
        rewrite H1 in H2; injection H2 as <-
    end.

Ltac float_order :=
  float_ranks;
  lazymatch goal with
  | |- (_ <=? _)%float = true =>
      apply leb_rank; eexists _, _; split; [eassumption|]; split; [eassumption|];
      unfold rankLe; lia
  | |- (_ <? _)%float = true =>
      apply ltb_rank; eexists _, _; split; [eassumption|]; split; [eassumption|];
      unfold rankLt; lia
  | |- False => lia
  end.

Section FloatOrderFacts.

Implicit Types x y z : float.

Lemma fle_trans x y z :
  (x <=? y)%float = true -> (y <=? z)%float = true -> (x <=? z)%float = true.
Proof. intros. float_order. Qed.

Lemma flt_fle_trans x y z :
  (x <? y)%float = true -> (y <=? z)%float = true -> (x <? z)%float = true.
Proof. intros. float_order. Qed.

Lemma fle_flt_trans x y z :
  (x <=? y)%float = true -> (y <? z)%float = true -> (x <? z)%float = true.
Proof. intros. float_order. Qed.

Lemma flt_fle x y : (x <? y)%float = true -> (x <=? y)%float = true.
Proof. intros. float_order. Qed.

Lemma flt_refl_r x y : (x <? y)%float = true -> (y <=? y)%float = true.
Proof. intros. float_order. Qed.

Lemma flt_refl_l x y : (x <? y)%float = true -> (x <=? x)%float = true.
Proof. intros. float_order. Qed.

Lemma flt_not_fle x y : (x <? y)%float = true -> (y <=? x)%float = false.
Proof.
  intros H. apply not_true_is_false. intros H'. float_order.
Qed.

Lemma fle_not_flt x y : (x <=? y)%float = true -> (y <? x)%float = false.
Proof.
  intros H. apply not_true_is_false. intros H'. float_order.
Qed.

Lemma fle_refl_l x y : (x <=? y)%float = true -> (x <=? x)%float = true.
Proof. intros. float_order. Qed.

Lemma fle_refl_r x y : (x <=? y)%float = true -> (y <=? y)%float = true.
Proof. intros. float_order. Qed.

(** A value that is not NaN is equal to itself. *)
Lemma not_nan_refl x : is_nan x = false -> (x <=? x)%float = true.
Proof.
  unfold is_nan. rewrite FloatAxioms.eqb_spec, FloatAxioms.leb_spec.
  unfold SFeqb, SFleb. destruct (SFcompare (Prim2SF x) (Prim2SF x)) as [[| |]|]; done.
Qed.

(** Two values that are not NaN compare one way or the other. *)
Lemma not_fle_flt x y :
  (x <=? x)%float = true -> (y <=? y)%float = true ->
  (x <=? y)%float = false -> (y <? x)%float = true.
Proof.
  intros Hx Hy Hxy. float_ranks.
  match goal with
  | Hx : floatRank x = Some ?a, Hy : floatRank y = Some ?b |- _ =>
      assert (~ rankLe a b) as Hn
  end.
  { intros Hle. apply not_true_iff_false in Hxy. apply Hxy.
    apply leb_rank. eexists _, _. eauto. }
  unfold rankLe in Hn. float_order.
Qed.

End FloatOrderFacts.

(** * Stack reconstruction *)

(** [b] lies within the interval of [a]. *)
Definition contains (a b : eventWithEnd) : bool :=
  (Ts (Event a) <=? Ts (Event b))%float && (End_ b <=? End_ a)%float.

(** The intervals of [a] and [b] share a moment. *)
Definition overlaps (a b : eventWithEnd) : bool :=
  (Ts (Event a) <? End_ b)%float && (Ts (Event b) <? End_ a)%float.

(** Properly nested: two intervals that overlap are contained one in the
    other. *)
Definition properlyNested (events : list eventWithEnd) : bool :=
  forallb
    (fun a => forallb (fun b => negb (overlaps a b) || contains a b || contains b a) events)
    events.

(** The events of a thread start in order, as after the sort. *)
Definition startsInOrder (events : list eventWithEnd) : Prop :=
  StronglySorted (fun a b => (Ts (Event a) <=? Ts (Event b))%float = true) events.

(** Every event ends after it starts. *)
Definition endsAfterStart (events : list eventWithEnd) : Prop :=
  Forall (fun e => (Ts (Event e) <? End_ e)%float = true) events.

(** The stack after the events of a prefix of the thread. *)
Definition stackAfter (stack : list stackEntry) (events : list eventWithEnd)
  : list stackEntry :=
  fold_left (fun stack e => fst (processEvent stack e)) events stack.

Definition entryOf (e : eventWithEnd) : stackEntry :=
  {| stackEntry_event := e;
     stackEntry_name := Name (Event e);
     stackEntry_cat := Cat (Event e) |}.

(** The sample of an event, given the entries that stay on the stack. *)
Definition sampleFor (entries : list stackEntry) (e : eventWithEnd) : stackSample :=
  {| stackSample_stack :=
       map (fun s => frameKey (stackEntry_name s) (stackEntry_cat s)) entries ++
       [frameKey (Name (Event e)) (Cat (Event e))];
     stackSample_names := map stackEntry_name entries ++ [Name (Event e)];
     stackSample_cats := map stackEntry_cat entries ++ [Cat (Event e)];
     stackSample_timeNs := int64_of_float (Dur (Event e) * 1000)%float |}.

Section StackReconstruction.

Implicit Types (stack : list stackEntry) (events : list eventWithEnd).

Lemma processEvents_app stack events1 events2 :
  processEvents stack (events1 ++ events2) =
  processEvents stack events1 ++ processEvents (stackAfter stack events1) events2.
Proof.
  revert stack. induction events1 as [|e events1 IH]; intros stack; simpl; [done|].
  by rewrite IH.
Qed.

Lemma processEvents_length stack events :
  length (processEvents stack events) = length events.
Proof.
  revert stack. induction events as [|e events IH]; intros stack; simpl; [done|].
  by rewrite IH.
Qed.

(** The sample of the event that follows the prefix [pre]. *)
Lemma ProcessThreadEvents_lookup pre e post :
  ProcessThreadEvents (pre ++ e :: post) !! length pre =
  Some (snd (processEvent (stackAfter [] pre) e)).
Proof.
  unfold ProcessThreadEvents. rewrite processEvents_app.
  rewrite lookup_app_r; rewrite processEvents_length; [|lia].
  by rewrite Nat.sub_diag.
Qed.

Lemma stackAfter_snoc stack events e :
  stackAfter stack (events ++ [e]) = retained (stackAfter stack events) e ++ [entryOf e].
Proof. unfold stackAfter. by rewrite fold_left_app. Qed.

Lemma stackAfter_app stack events1 events2 :
  stackAfter stack (events1 ++ events2) = stackAfter (stackAfter stack events1) events2.
Proof. apply fold_left_app. Qed.

Lemma processEvent_sample stack e :
  snd (processEvent stack e) = sampleFor (retained stack e) e.
Proof. reflexivity. Qed.

Lemma stackAfter_cons stack e events :
  stackAfter stack (e :: events) = stackAfter (retained stack e ++ [entryOf e]) events.
Proof. reflexivity. Qed.

Lemma popEnded_keep ts stack1 s stack2 :
  (End_ (stackEntry_event s) <? ts)%float = false ->
  popEnded ts (stack1 ++ s :: stack2) = stack1 ++ s :: popEnded ts stack2.
Proof.
  intros Hs. induction stack1 as [|x stack1 IH]; simpl.
  - rewrite Hs. by destruct (popEnded ts stack2).
  - rewrite IH. by destruct stack1.
Qed.

Lemma popEnded_incl ts stack s : In s (popEnded ts stack) -> In s stack.
Proof.
  revert s. induction stack as [|x stack IH]; intros s; simpl; [done|].
  destruct (popEnded ts stack) as [|y rest] eqn:Hp.
  - destruct (End_ (stackEntry_event x) <? ts)%float; simpl; [done|].
    intros [<-|[]]. by left.
  - intros [<-|Hin]; [by left|]. right. by apply IH.
Qed.

Lemma filter_all {A} (p : A -> bool) (l : list A) :
  (forall x, In x l -> p x = true) -> List.filter p l = l.
Proof.
  induction l as [|x l IH]; intros Hp; simpl; [done|].
  rewrite (Hp x) by (by left). f_equal. apply IH. intros y Hy. apply Hp. by right.
Qed.

Lemma filter_none {A} (p : A -> bool) (l : list A) :
  (forall x, In x l -> p x = false) -> List.filter p l = [].
Proof.
  induction l as [|x l IH]; intros Hp; simpl; [done|].
  rewrite (Hp x) by (by left). apply IH. intros y Hy. apply Hp. by right.
Qed.

(** What stays for an event [e] when the stack is [lower ++ top :: upper],
    every entry up to [top] ends no earlier than [e], and [e] starts before
    [top] ends: all of [lower ++ [top]], and of [upper] what contains [e]. *)
Lemma retained_lower lower top upper e :
  (End_ (stackEntry_event top) <? Ts (Event e))%float = false ->
  (forall s, In s (lower ++ [top]) -> (End_ e <=? End_ (stackEntry_event s))%float = true) ->
  retained (lower ++ top :: upper) e =
  lower ++ top :: keepContaining e (popEnded (Ts (Event e)) upper).
Proof.
  intros Hpop Hkeep. unfold retained. rewrite (popEnded_keep _ _ _ _ Hpop).
  unfold keepContaining.
  change (lower ++ top :: popEnded (Ts (Event e)) upper)
    with (lower ++ [top] ++ popEnded (Ts (Event e)) upper).
  rewrite app_assoc, List.filter_app, (filter_all _ _ Hkeep), <- app_assoc. done.
Qed.

End StackReconstruction.

Section ChildAndParent.

Implicit Types (A B M : eventWithEnd) (lower upper : list stackEntry).

(** [B] does not lie within the interval of the entry [s]. *)
Definition endsBefore B (s : stackEntry) : Prop :=
  (End_ B <=? End_ (stackEntry_event s))%float = false.

Lemma keepContaining_endsBefore B M ts upper :
  Forall (endsBefore B) upper ->
  Forall (endsBefore B) (keepContaining M (popEnded ts upper)).
Proof.
  rewrite !Forall_forall. intros Hupper s Hs.
  apply Hupper. apply list_elem_of_In. apply list_elem_of_In in Hs.
  unfold keepContaining in Hs. apply filter_In in Hs as [Hs _].
  by eapply popEnded_incl.
Qed.

(** The events between a container [A] of [B] and [B], none of which
    contains [B], leave the stack of [A] in place. *)
Lemma stackAfter_between A B lower mid upper :
  (forall s, In s (lower ++ [entryOf A]) ->
             (End_ A <=? End_ (stackEntry_event s))%float = true) ->
  (Ts (Event B) <=? End_ B)%float = true ->
  (End_ B <=? End_ A)%float = true ->
  Forall (fun M => (Ts (Event M) <=? Ts (Event B))%float = true /\
                   (End_ M <=? End_ M)%float = true /\
                   (End_ B <=? End_ M)%float = false) mid ->
  Forall (endsBefore B) upper ->
  exists upper',
    stackAfter (lower ++ entryOf A :: upper) mid = lower ++ entryOf A :: upper' /\
    Forall (endsBefore B) upper'.
Proof.
  intros HA HB HBA Hmid. revert upper.
  induction Hmid as [|M mid (HMB & HM & HnotM) _ IH]; intros upper Hupper.
  - by exists upper.
  - rewrite stackAfter_cons.
    assert ((End_ M <? End_ B)%float = true) as HMltB.
    { apply not_fle_flt; [by eapply fle_refl_l | done | done]. }
    rewrite retained_lower.
    + rewrite <- app_assoc. simpl. apply IH.
      apply Forall_app. split; [by apply keepContaining_endsBefore|].
      by repeat constructor.
    + simpl. apply fle_not_flt.
      eapply fle_trans; [exact HMB|]. by eapply fle_trans.
    + intros s Hs. eapply fle_trans; [|by apply HA].
      eapply fle_trans; [|exact HBA]. by apply flt_fle.
Qed.

Lemma StronglySorted_app_lookup {T} (R : T -> T -> Prop) (l1 l2 : list T) x y :
  StronglySorted R (l1 ++ l2) -> In x l1 -> In y l2 -> R x y.
Proof.
  induction l1 as [|a l1 IH]; simpl; [done|].
  intros Hs [<-|Hx] Hy.
  - apply StronglySorted_inv in Hs as [_ Hall].
    rewrite Forall_forall in Hall. apply Hall, list_elem_of_In, in_or_app. by right.
  - apply StronglySorted_inv in Hs as [Hs _]. by apply IH.
Qed.

(** C3 (as amended).  In a thread whose events start in order, let [A]
    be the last event before [B] whose interval contains that of [B]: [B]
    starts no earlier than [A], ends no earlier than it starts and no later
    than [A] ends, and no event between them contains [B]; the events
    between them have an end, that is, a duration that is not NaN.  Then the
    sample sent for [B] carries the stack of the sample sent for [A], in
    order, followed by [B] itself as the last frame. *)
Theorem C3_child_extends_parent pre A mid B post sA sB :
  let events := pre ++ A :: mid ++ B :: post in
  startsInOrder events ->
  contains A B = true ->
  (Ts (Event B) <=? End_ B)%float = true ->
  Forall (fun M => contains M B = false /\ is_nan (End_ M) = false) mid ->
  ProcessThreadEvents events !! length pre = Some sA ->
  ProcessThreadEvents events !! (length pre + 1 + length mid)%nat = Some sB ->
  stackSample_names sB = stackSample_names sA ++ [Name (Event B)] /\
  stackSample_cats sB = stackSample_cats sA ++ [Cat (Event B)] /\
  stackSample_stack sB =
    stackSample_stack sA ++ [frameKey (Name (Event B)) (Cat (Event B))].
Proof.
  intros events Hsorted HAB HB Hmid HsA HsB.
  unfold events in *.
  rewrite ProcessThreadEvents_lookup, processEvent_sample in HsA. injection HsA as <-.
  replace (pre ++ A :: mid ++ B :: post) with ((pre ++ A :: mid) ++ B :: post) in HsB
    by (by rewrite <- app_assoc).
  replace (length pre + 1 + length mid)%nat with (length (pre ++ A :: mid)) in HsB
    by (rewrite length_app; simpl; lia).
  rewrite ProcessThreadEvents_lookup, processEvent_sample in HsB. injection HsB as <-.
  (* the comparisons the hypotheses give *)
  apply andb_true_iff in HAB as [HtsAB HBA].
  assert (Forall (fun M => (Ts (Event M) <=? Ts (Event B))%float = true /\
                           (End_ M <=? End_ M)%float = true /\
                           (End_ B <=? End_ M)%float = false) mid) as Hmid'.
  { rewrite Forall_forall in Hmid. apply Forall_forall. intros M HM.
    assert ((Ts (Event M) <=? Ts (Event B))%float = true) as HMB.
    { apply list_elem_of_In in HM.
      apply (StronglySorted_app_lookup
               (fun a b => (Ts (Event a) <=? Ts (Event b))%float = true)
               (pre ++ A :: mid) (B :: post) M B);
        [by rewrite <- app_assoc | | by left].
      apply in_or_app. right. by right. }
    destruct (Hmid M HM) as [HnotM Hnan].
    split; [done|]. split; [by apply not_nan_refl|].
    unfold contains in HnotM. by rewrite HMB in HnotM. }
  (* the stack after [A] stays below what the events in between push *)
  rewrite stackAfter_app, stackAfter_cons.
  set (lower := retained (stackAfter [] pre) A).
  assert (forall s, In s (lower ++ [entryOf A]) ->
                    (End_ A <=? End_ (stackEntry_event s))%float = true) as Hlower.
  { intros s [Hs|[<-|[]]]%in_app_or.
    - unfold lower, retained, keepContaining in Hs. by apply filter_In in Hs as [_ Hs].
    - simpl. by eapply fle_refl_r. }
  destruct (stackAfter_between A B lower mid [] Hlower HB HBA Hmid')
    as (upper' & Hstack & Hupper'); [constructor|].
  rewrite Hstack.
  (* the round of [B] *)
  assert (retained (lower ++ entryOf A :: upper') B = lower ++ [entryOf A]) as ->.
  { rewrite retained_lower.
    - f_equal. f_equal. apply filter_none. intros s Hs.
      apply popEnded_incl in Hs. rewrite Forall_forall in Hupper'.
      by apply Hupper', list_elem_of_In.
    - simpl. apply fle_not_flt. by eapply fle_trans.
    - intros s Hs. eapply fle_trans; [exact HBA | by apply Hlower]. }
  unfold sampleFor. simpl. rewrite !map_app. done.
Qed.

End ChildAndParent.

(** * The content of the sample map *)

(** What the sample map holds for a key, the location ids aside:
    [(count, timeNs)]. *)
Definition entryValue (d : sampleData) : Z * Z :=
  (sampleData_count d, sampleData_timeNs d).

Definition content (sampleMap : gmap string sampleData) : gmap string (Z * Z) :=
  entryValue <$> sampleMap.

(** The aggregation step, on the content alone. *)
Definition tally (c : gmap string (Z * Z)) (kt : string * Z) : gmap string (Z * Z) :=
  match c !! fst kt with
  | Some (n, t) => <[fst kt := (int64 (n + 1), int64 (t + snd kt))]> c
  | None => <[fst kt := (1, snd kt)]> c
  end.

Definition keyAndTime (x : stackSample) : string * Z :=
  (sampleKey (stackSample_stack x), stackSample_timeNs x).

Section Content.

Lemma aggregate_content st x :
  content (snd (aggregate st x)) = tally (content (snd st)) (keyAndTime x).
Proof.
  destruct st as [pb sampleMap]. unfold aggregate, tally, content, keyAndTime. simpl.
  rewrite lookup_fmap.
  destruct (sampleMap !! sampleKey (stackSample_stack x)) as [existing|]; simpl.
  - by rewrite fmap_insert.
  - destruct (buildLocationIds pb _ _). simpl. by rewrite fmap_insert.
Qed.

Lemma fold_aggregate_content xs st :
  content (snd (fold_left aggregate xs st)) =
  fold_left tally (map keyAndTime xs) (content (snd st)).
Proof.
  revert st. induction xs as [|x xs IH]; intros st; simpl; [done|].
  by rewrite IH, aggregate_content.
Qed.

(** Two samples can be tallied in either order. *)
Lemma tally_comm c kt1 kt2 : tally (tally c kt1) kt2 = tally (tally c kt2) kt1.
Proof.
  destruct kt1 as [k1 t1], kt2 as [k2 t2]. unfold tally. simpl.
  destruct (decide (k1 = k2)) as [->|Hne].
  - destruct (c !! k2) as [[n t]|] eqn:Hk; rewrite ?lookup_insert_eq, ?insert_insert_eq.
    + f_equal. f_equal. rewrite !int64_add_l. f_equal. lia.
    + f_equal. f_equal. f_equal. lia.
  - destruct (c !! k1) as [[n1 u1]|] eqn:H1, (c !! k2) as [[n2 u2]|] eqn:H2;
      rewrite ?lookup_insert_ne, ?H1, ?H2 by done; by apply insert_insert_ne.
Qed.

Lemma fold_tally_Permutation l1 l2 :
  l1 ≡ₚ l2 -> forall c, fold_left tally l1 c = fold_left tally l2 c.
Proof.
  induction 1 as [|x l1 l2 _ IH|x y l|l1 l2 l3 _ IH1 _ IH2]; intros c; simpl.
  - done.
  - apply IH.
  - by rewrite tally_comm.
  - by rewrite IH1.
Qed.

End Content.

Section Schedules.

Variable sort_Slice :
  (eventWithEnd -> eventWithEnd -> bool) -> list eventWithEnd -> list eventWithEnd.

(** With the order [sort.Slice] leaves the events of each thread in,
    whatever that order is for events of equal start, the sample map holds
    the same (count, total duration) under the same keys for every schedule
    of the workers, and the profiles hold the same multiset of value
    vectors. *)
Lemma content_schedule_independent sched1 sched2 traceData :
  content (snd (aggregated sort_Slice sched1 traceData)) =
  content (snd (aggregated sort_Slice sched2 traceData)) /\
  map Sample_Value (Profile_Sample (ConvertTrace sort_Slice sched1 traceData)) ≡ₚ
  map Sample_Value (Profile_Sample (ConvertTrace sort_Slice sched2 traceData)).
Proof.
  assert (content (snd (aggregated sort_Slice sched1 traceData)) =
          content (snd (aggregated sort_Slice sched2 traceData))) as Hc.
  { unfold aggregated. rewrite !fold_aggregate_content.
    apply fold_tally_Permutation, Permutation_map. unfold received.
    by rewrite !interleave_Permutation. }
  split; [exact Hc|].
  rewrite !ConvertTrace_samples, !map_map.
  assert (forall m : gmap string sampleData,
            map (fun ks => Sample_Value (toSample (snd ks))) (map_to_list m) =
            map (fun kv => [fst (snd kv); snd (snd kv)]) (map_to_list (content m))) as E.
  { intros m. unfold content. rewrite map_to_list_fmap.
    change (prod_map id entryValue <$> map_to_list m)
      with (map (prod_map id entryValue) (map_to_list m)).
    by rewrite map_map. }
  by rewrite !E, Hc.
Qed.

End Schedules.

(** * Reading the wire format back

    A reader of the protobuf wire format, for the two wire kinds the encoder
    writes; it tells which fields an encoded message holds. *)

Inductive wireValue :=
  | Varint (v : Z)
  | Bytes (payload : list Z).

Definition field : Type := Z * wireValue.

Fixpoint decodeVarint (bs : list Z) : option (Z * list Z) :=
  match bs with
  | [] => None
  | b :: rest =>
      if Z.testbit b 7
      then match decodeVarint rest with
           | Some (v, rest') => Some (Z.lor (Z.land b 127) (Z.shiftl v 7), rest')
           | None => None
           end
      else Some (b, rest)
  end.

(** Every field takes at least one byte, so [fuel] is spent more slowly than
    the input. *)
Fixpoint readFields (fuel : nat) (bs : list Z) : option (list field) :=
  match bs with
  | [] => Some []
  | _ :: _ =>
      match fuel with
      | O => None
      | S fuel' =>
          match decodeVarint bs with
          | None => None
          | Some (key, rest) =>
              let num := Z.shiftr key 3 in
              match Z.land key 7 with
              | 0 =>
                  match decodeVarint rest with
                  | Some (v, rest') =>
                      option_map (cons (num, Varint v)) (readFields fuel' rest')
                  | None => None
                  end
              | 2 =>
                  match decodeVarint rest with
                  | Some (n, rest') =>
                      if len rest' <? n then None
                      else option_map (cons (num, Bytes (take (Z.to_nat n) rest')))
                             (readFields fuel' (drop (Z.to_nat n) rest'))
                  | None => None
                  end
              | _ => None
              end
          end
      end
  end.

Definition readMessage (bs : list Z) : option (list field) :=
  readFields (length bs) bs.

(** A scalar field that is written only when it is not zero. *)
Definition optionalVarint (num v : Z) : list field :=
  if v =? 0 then [] else [(num, Varint (uint64 v))].

(** The fields of an encoded profile, in the order [Encode] writes them. *)
Definition topLevelFields (p : Profile) : list field :=
  map (fun st => (1, Bytes (encodeValueType st))) (Profile_SampleType p) ++
  map (fun s => (2, Bytes (encodeSample s))) (Profile_Sample p) ++
  map (fun loc => (4, Bytes (encodeLocation loc))) (Profile_Location p) ++
  map (fun fn => (5, Bytes (encodeFunction fn))) (Profile_Function p) ++
  map (fun s => (6, Bytes (bytes_of_string s))) (Profile_StringTable p) ++
  optionalVarint 9 (Profile_TimeNanos p) ++
  optionalVarint 10 (Profile_DurationNanos p) ++
  match Profile_PeriodType p with
  | Some pt => [(11, Bytes (encodeValueType pt))]
  | None => []
  end ++
  optionalVarint 12 (Profile_Period p).

Section Varints.

Lemma byte_small v : 0 <= v < 128 -> byte v = v /\ Z.testbit v 7 = false.
Proof.
  intros Hv. unfold byte. rewrite Z.mod_small by lia. split; [done|].
  apply Z.testbit_false; [lia|].
  rewrite Z.div_small by (change (2 ^ 7) with 128; lia). done.
Qed.

Lemma continuation_byte v :
  0 <= v ->
  Z.testbit (Z.lor (byte v) 128) 7 = true /\
  Z.lor (Z.land (Z.lor (byte v) 128) 127) (Z.shiftl (Z.shiftr v 7) 7) = v.
Proof.
  intros Hv. split.
  - rewrite Z.lor_spec. change (Z.testbit 128 7) with true. apply orb_true_r.
  - apply Z.bits_inj'. intros n Hn.
    rewrite Z.lor_spec, Z.land_spec, Z.lor_spec.
    unfold byte. change 256 with (2 ^ 8). change 127 with (Z.ones 7).
    destruct (Z.lt_ge_cases n 7) as [Hlt|Hge].
    + rewrite Z.shiftl_spec_low by lia. rewrite Z.ones_spec_low by lia.
      rewrite Z.mod_pow2_bits_low by lia.
      change 128 with (2 ^ 7). rewrite Z.pow2_bits_false by lia.
      rewrite orb_false_r, andb_true_r, orb_false_r. done.
    + rewrite Z.ones_spec_high by lia. rewrite andb_false_r. simpl.
      rewrite Z.shiftl_spec by lia. rewrite Z.shiftr_spec by lia. f_equal. lia.
Qed.

Lemma decodeVarint_loop fuel v rest :
  0 <= v -> Z.log2 v <= Z.of_nat fuel ->
  decodeVarint (encodeVarint_loop fuel v ++ rest) = Some (v, rest).
Proof.
  revert v. induction fuel as [|fuel IH]; intros v Hv Hlog;
    cbn [encodeVarint_loop app decodeVarint].
  - assert (v < 128).
    { destruct (Z.eq_dec v 0) as [->|]; [lia|].
      assert (v < 2 ^ 1) by (apply Z.log2_lt_pow2; lia). lia. }
    destruct (byte_small v) as [-> ->]; [lia|]. done.
  - destruct (Z.leb_spec 128 v) as [Hbig|Hsmall];
      cbn [encodeVarint_loop app decodeVarint].
    + destruct (continuation_byte v Hv) as [-> Hval].
      rewrite IH.
      * by rewrite Hval.
      * apply Z.shiftr_nonneg. lia.
      * rewrite Z.log2_shiftr by lia. lia.
    + destruct (byte_small v) as [-> ->]; [lia|]. done.
Qed.

(** What [encodeVarint] writes is read back, for every value that is not
    negative. *)
Lemma decodeVarint_encodeVarint v rest :
  0 <= v -> decodeVarint (encodeVarint v ++ rest) = Some (v, rest).
Proof.
  intros Hv. apply decodeVarint_loop; [done|].
  rewrite Z2Nat.id; [lia | apply Z.log2_nonneg].
Qed.

Lemma decodeVarint_shorter bs v rest :
  decodeVarint bs = Some (v, rest) -> (length rest < length bs)%nat.
Proof.
  revert v rest. induction bs as [|b bs IH]; intros v rest; cbn [decodeVarint length];
    [done|].
  destruct (Z.testbit b 7).
  - destruct (decodeVarint bs) as [[v' rest']|] eqn:Hd; [|done].
    intros [= <- <-]. specialize (IH _ _ eq_refl). lia.
  - intros [= <- <-]. lia.
Qed.

Lemma readFields_fuel fuel fuel' bs :
  (length bs <= fuel)%nat -> (length bs <= fuel')%nat ->
  readFields fuel bs = readFields fuel' bs.
Proof.
  revert fuel' bs. induction fuel as [|fuel IH]; intros fuel' bs Hf Hf'.
  - destruct bs; [by destruct fuel'|simpl in Hf; lia].
  - destruct bs as [|b bs]; [by destruct fuel'|].
    destruct fuel' as [|fuel']; [simpl in Hf'; lia|].
    cbn [readFields].
    destruct (decodeVarint (b :: bs)) as [[key rest]|] eqn:Hkey; [|done].
    apply decodeVarint_shorter in Hkey. simpl in Hkey, Hf, Hf'.
    destruct (Z.land key 7) as [|wt|wt]; [|destruct wt as [wt|wt|]; try done;
                                             destruct wt; try done|done].
    + destruct (decodeVarint rest) as [[v rest']|] eqn:Hv; [|done].
      apply decodeVarint_shorter in Hv.
      rewrite (IH fuel' rest'); [done|lia..].
    + destruct (decodeVarint rest) as [[n rest']|] eqn:Hn; [|done].
      apply decodeVarint_shorter in Hn.
      destruct (len rest' <? n); [done|].
      rewrite (IH fuel' (drop (Z.to_nat n) rest')); [done|rewrite length_drop; lia..].
Qed.

End Varints.

Section ReadingFields.

Lemma uint64_nonneg z : 0 <= uint64 z.
Proof. unfold uint64. apply Z.mod_pos_bound. lia. Qed.

Lemma len_nonneg {A} (l : list A) : 0 <= len l.
Proof. unfold len. lia. Qed.

Lemma readMessage_nil : readMessage [] = Some [].
Proof. reflexivity. Qed.

(** A one-byte tag of wire kind 0 followed by a varint. *)
Lemma read_varint_field tag v rest fs :
  0 <= tag < 128 -> Z.land tag 7 = 0 -> 0 <= v ->
  readMessage rest = Some fs ->
  readMessage (tag :: encodeVarint v ++ rest) = Some ((Z.shiftr tag 3, Varint v) :: fs).
Proof.
  intros Htag Hkind Hv Hrest. unfold readMessage in *.
  cbn [length readFields decodeVarint].
  destruct (byte_small tag Htag) as [_ ->]. rewrite Hkind.
  rewrite decodeVarint_encodeVarint by done.
  rewrite (readFields_fuel _ (length rest) rest), Hrest; [done| |done].
  rewrite length_app. lia.
Qed.

(** A one-byte tag of wire kind 2 followed by a length and that many bytes. *)
Lemma read_bytes_field tag msg rest fs :
  0 <= tag < 128 -> Z.land tag 7 = 2 ->
  readMessage rest = Some fs ->
  readMessage (tag :: encodeVarint (len msg) ++ msg ++ rest) =
  Some ((Z.shiftr tag 3, Bytes msg) :: fs).
Proof.
  intros Htag Hkind Hrest. unfold readMessage in *.
  cbn [length readFields decodeVarint].
  destruct (byte_small tag Htag) as [_ ->]. rewrite Hkind.
  rewrite decodeVarint_encodeVarint by apply len_nonneg.
  destruct (Z.ltb_spec (len (msg ++ rest)) (len msg)) as [Hlt|_].
  { unfold len in Hlt. rewrite length_app in Hlt. lia. }
  unfold len. rewrite Nat2Z.id, take_app_length, drop_app_length.
  rewrite (readFields_fuel _ (length rest) rest), Hrest; [done| |done].
  rewrite !length_app. lia.
Qed.

Lemma fold_appendMessage {A} (num : Z) (enc : A -> list Z) (l : list A) buf :
  fold_left (fun buf x => appendMessage buf num (enc x)) l buf =
  buf ++ concat (map (fun x => encodeTag num 2 ++ encodeVarint (len (enc x)) ++ enc x) l).
Proof.
  revert buf. induction l as [|x l IH]; intros buf; simpl.
  - by rewrite app_nil_r.
  - rewrite IH. unfold appendMessage. by rewrite <- !app_assoc.
Qed.

(** A run of length-delimited fields of one number. *)
Lemma read_repeated {A} (num tag : Z) (enc : A -> list Z) (l : list A) rest fs :
  encodeTag num 2 = [tag] -> 0 <= tag < 128 -> Z.land tag 7 = 2 -> Z.shiftr tag 3 = num ->
  readMessage rest = Some fs ->
  readMessage
    (concat (map (fun x => encodeTag num 2 ++ encodeVarint (len (enc x)) ++ enc x) l) ++ rest) =
  Some (map (fun x => (num, Bytes (enc x))) l ++ fs).
Proof.
  intros Htag Hrange Hkind Hnum Hrest.
  induction l as [|x l IH]; simpl; [done|].
  rewrite <- !app_assoc. rewrite Htag at 1. cbn [app].
  rewrite (read_bytes_field tag (enc x) _ _ Hrange Hkind IH). by rewrite Hnum.
Qed.

Lemma read_repeated_end {A} (num tag : Z) (enc : A -> list Z) (l : list A) :
  encodeTag num 2 = [tag] -> 0 <= tag < 128 -> Z.land tag 7 = 2 -> Z.shiftr tag 3 = num ->
  readMessage
    (concat (map (fun x => encodeTag num 2 ++ encodeVarint (len (enc x)) ++ enc x) l)) =
  Some (map (fun x => (num, Bytes (enc x))) l).
Proof.
  intros Htag Hrange Hkind Hnum.
  pose proof (read_repeated num tag enc l [] [] Htag Hrange Hkind Hnum readMessage_nil) as H.
  by rewrite !app_nil_r in H.
Qed.

Lemma read_optional (num tag v : Z) rest fs :
  encodeTag num 0 = [tag] -> 0 <= tag < 128 -> Z.land tag 7 = 0 -> Z.shiftr tag 3 = num ->
  readMessage rest = Some fs ->
  readMessage
    ((if v =? 0 then [] else encodeTag num 0 ++ encodeVarint (uint64 v)) ++ rest) =
  Some (optionalVarint num v ++ fs).
Proof.
  intros Htag Hrange Hkind Hnum Hrest. unfold optionalVarint.
  destruct (v =? 0); [done|].
  rewrite Htag. cbn [app].
  rewrite (read_varint_field tag _ _ _ Hrange Hkind (uint64_nonneg v) Hrest).
  by rewrite Hnum.
Qed.

Lemma Encode_app p :
  Encode p =
  concat (map (fun st => encodeTag 1 2 ++ encodeVarint (len (encodeValueType st)) ++
                         encodeValueType st) (Profile_SampleType p)) ++
  concat (map (fun s => encodeTag 2 2 ++ encodeVarint (len (encodeSample s)) ++
                        encodeSample s) (Profile_Sample p)) ++
  concat (map (fun loc => encodeTag 4 2 ++ encodeVarint (len (encodeLocation loc)) ++
                          encodeLocation loc) (Profile_Location p)) ++
  concat (map (fun fn => encodeTag 5 2 ++ encodeVarint (len (encodeFunction fn)) ++
                         encodeFunction fn) (Profile_Function p)) ++
  concat (map (fun s => encodeTag 6 2 ++ encodeVarint (len (bytes_of_string s)) ++
                        bytes_of_string s) (Profile_StringTable p)) ++
  (if Profile_TimeNanos p =? 0 then []
   else encodeTag 9 0 ++ encodeVarint (uint64 (Profile_TimeNanos p))) ++
  (if Profile_DurationNanos p =? 0 then []
   else encodeTag 10 0 ++ encodeVarint (uint64 (Profile_DurationNanos p))) ++
  match Profile_PeriodType p with
  | Some pt => encodeTag 11 2 ++ encodeVarint (len (encodeValueType pt)) ++ encodeValueType pt
  | None => []
  end ++
  (if Profile_Period p =? 0 then []
   else encodeTag 12 0 ++ encodeVarint (uint64 (Profile_Period p))) ++ [].
Proof.
  unfold Encode. cbv zeta. rewrite !fold_appendMessage. unfold appendMessage.
  destruct (Profile_TimeNanos p =? 0), (Profile_DurationNanos p =? 0),
    (Profile_PeriodType p), (Profile_Period p =? 0);
    cbn [app]; rewrite <- ?app_assoc, ?app_nil_r; reflexivity.
Qed.

(** Reading an encoded profile back gives [topLevelFields]. *)
Lemma readMessage_Encode p : readMessage (Encode p) = Some (topLevelFields p).
Proof.
  rewrite Encode_app. unfold topLevelFields.
  assert (readMessage
            ((if Profile_Period p =? 0 then []
              else encodeTag 12 0 ++ encodeVarint (uint64 (Profile_Period p))) ++ []) =
          Some (optionalVarint 12 (Profile_Period p))) as H12.
  { rewrite <- (app_nil_r (optionalVarint 12 (Profile_Period p))).
    apply (read_optional 12 96); [reflexivity|lia|reflexivity|reflexivity|].
    apply readMessage_nil. }
  assert (forall rest fs, readMessage rest = Some fs ->
            readMessage
              (match Profile_PeriodType p with
               | Some pt => encodeTag 11 2 ++ encodeVarint (len (encodeValueType pt)) ++
                            encodeValueType pt
               | None => []
               end ++ rest) =
            Some (match Profile_PeriodType p with
                  | Some pt => [(11, Bytes (encodeValueType pt))]
                  | None => []
                  end ++ fs)) as H11.
  { intros rest fs Hrest. destruct (Profile_PeriodType p) as [pt|]; [|done].
    change (encodeTag 11 2) with [90]. cbn [app]. rewrite <- !app_assoc.
    by rewrite (read_bytes_field 90 _ _ fs). }
  apply (read_repeated 1 10); [reflexivity|lia|reflexivity|reflexivity|].
  apply (read_repeated 2 18); [reflexivity|lia|reflexivity|reflexivity|].
  apply (read_repeated 4 34); [reflexivity|lia|reflexivity|reflexivity|].
  apply (read_repeated 5 42); [reflexivity|lia|reflexivity|reflexivity|].
  apply (read_repeated 6 50); [reflexivity|lia|reflexivity|reflexivity|].
  apply (read_optional 9 72); [reflexivity|lia|reflexivity|reflexivity|].
  apply (read_optional 10 80); [reflexivity|lia|reflexivity|reflexivity|].
  apply H11, H12.
Qed.

End ReadingFields.

Section NestedMessages.

Lemma read_ValueType vt :
  readMessage (encodeValueType vt) =
  Some [(1, Varint (uint64 (ValueType_Type vt))); (2, Varint (uint64 (ValueType_Unit vt)))].
Proof.
  unfold encodeValueType.
  change (encodeTag 1 0) with [8]. change (encodeTag 2 0) with [16]. cbn [app].
  apply (read_varint_field 8); [lia|reflexivity|apply uint64_nonneg|].
  rewrite <- (app_nil_r (encodeVarint _)).
  apply (read_varint_field 16); [lia|reflexivity|apply uint64_nonneg|].
  apply readMessage_nil.
Qed.

Lemma read_Function fn :
  0 <= Function_Id fn ->
  readMessage (encodeFunction fn) =
  Some [(1, Varint (Function_Id fn));
        (2, Varint (uint64 (Function_Name fn)));
        (3, Varint (uint64 (Function_SystemName fn)));
        (4, Varint (uint64 (Function_Filename fn)))].
Proof.
  intros Hid. unfold encodeFunction.
  change (encodeTag 1 0) with [8]. change (encodeTag 2 0) with [16].
  change (encodeTag 3 0) with [24]. change (encodeTag 4 0) with [32]. cbn [app].
  apply (read_varint_field 8); [lia|reflexivity|done|].
  apply (read_varint_field 16); [lia|reflexivity|apply uint64_nonneg|].
  apply (read_varint_field 24); [lia|reflexivity|apply uint64_nonneg|].
  rewrite <- (app_nil_r (encodeVarint _)).
  apply (read_varint_field 32); [lia|reflexivity|apply uint64_nonneg|].
  apply readMessage_nil.
Qed.

Lemma read_Line line :
  0 <= Line_FunctionId line ->
  readMessage (encodeLine line) =
  Some ((1, Varint (Line_FunctionId line)) :: optionalVarint 2 (Line_Line line)).
Proof.
  intros Hid. unfold encodeLine, optionalVarint.
  change (encodeTag 1 0) with [8]. change (encodeTag 2 0) with [16]. cbn [app].
  destruct (Line_Line line =? 0).
  - rewrite <- (app_nil_r (encodeVarint _)).
    apply (read_varint_field 8); [lia|reflexivity|done|]. apply readMessage_nil.
  - cbn [app]. apply (read_varint_field 8); [lia|reflexivity|done|].
    rewrite <- (app_nil_r (encodeVarint _)).
    apply (read_varint_field 16); [lia|reflexivity|apply uint64_nonneg|].
    apply readMessage_nil.
Qed.

Lemma read_Location loc :
  0 <= Location_Id loc ->
  readMessage (encodeLocation loc) =
  Some ((1, Varint (Location_Id loc)) ::
        map (fun line => (4, Bytes (encodeLine line))) (Location_Line loc)).
Proof.
  intros Hid. unfold encodeLocation. rewrite fold_appendMessage.
  change (encodeTag 1 0) with [8]. cbn [app].
  apply (read_varint_field 8); [lia|reflexivity|done|].
  by apply (read_repeated_end 4 34).
Qed.

Lemma In_optionalVarint num num' v w :
  In (num', w) (optionalVarint num v) <-> num' = num /\ v <> 0 /\ w = Varint (uint64 v).
Proof.
  unfold optionalVarint. destruct (Z.eqb_spec v 0) as [->|Hv]; simpl.
  - split; [done|]. by intros (_ & ? & _).
  - split.
    + by intros [[= <- <-]|[]].
    + intros (-> & _ & ->). by left.
Qed.

(** Which of the three scalars an encoded profile holds. *)
Lemma topLevelFields_scalar p num w :
  num = 9 \/ num = 10 \/ num = 12 ->
  In (num, w) (topLevelFields p) <->
  let v := if num =? 9 then Profile_TimeNanos p
           else if num =? 10 then Profile_DurationNanos p
           else Profile_Period p in
  v <> 0 /\ w = Varint (uint64 v).
Proof.
  intros Hnum. unfold topLevelFields.
  rewrite !in_app_iff, !in_map_iff, !In_optionalVarint.
  assert (~ In (num, w) match Profile_PeriodType p with
                        | Some pt => [(11, Bytes (encodeValueType pt))]
                        | None => []
                        end) as H11.
  { destruct (Profile_PeriodType p); simpl; [|tauto].
    intros [Heq|[]]. injection Heq as Heq _. lia. }
  split.
  - intros H.
    repeat match type of H with _ \/ _ => destruct H as [H|H] end;
      try (destruct H as (x & Heq & _); injection Heq as Heq _; lia);
      try done.
    + destruct H as (-> & ? & ?). done.
    + destruct H as (-> & ? & ?). done.
    + destruct H as (-> & ? & ?). done.
  - destruct Hnum as [-> | [-> | ->]]; simpl; intros [? ?]; tauto.
Qed.

End NestedMessages.

(** * Sorting by the contract of [sort.Slice] *)

(** What [sort.Slice] asks of [less], on the elements of the slice: a
    transitive ordering in the words of package [sort], that is, no element
    is less than itself, [less] is transitive and so is its negation.  The
    comparison [<] of [float64] is one as long as no element is NaN. *)
Definition strictWeakOrder {A} (less : A -> A -> bool) (l : list A) : Prop :=
  (forall a, In a l -> less a a = false) /\
  (forall a b c, In a l -> In b l -> In c l ->
                 less a b = true -> less b c = true -> less a c = true) /\
  (forall a b c, In a l -> In b l -> In c l ->
                 less a b = false -> less b c = false -> less a c = false).

(** What [sort.Slice] promises of its result: the same elements, and, when
    [less] is such an ordering of them, no element less than the one before
    it.  Equal elements may come in any order; nothing is promised of the
    order for another [less]. *)
Definition sortsSlices {A} (sort : (A -> A -> bool) -> list A -> list A) : Prop :=
  forall less l,
    sort less l ≡ₚ l /\
    (strictWeakOrder less l -> Sorted (fun a b => less b a = false) (sort less l)).

Section SortContract.

Context {A : Type} (less : A -> A -> bool).

Lemma Sorted_snoc (R : A -> A -> Prop) (l : list A) x :
  Sorted R l -> (forall y, last l = Some y -> R y x) -> Sorted R (l ++ [x]).
Proof.
  induction 1 as [|a l Hl IH Ha]; intros Hx; simpl; [by repeat constructor|].
  constructor.
  - apply IH. intros y Hy. apply Hx. destruct l; [done|]. by rewrite last_cons, Hy.
  - destruct Ha as [|b l Hab]; simpl; constructor; [|done].
    apply Hx. done.
Qed.

Lemma Sorted_rev (R : A -> A -> Prop) (l : list A) :
  Sorted R l -> Sorted (fun a b => R b a) (rev l).
Proof.
  induction 1 as [|a l Hl IH Ha]; simpl; [constructor|].
  apply Sorted_snoc; [done|]. intros y Hy.
  destruct Ha as [|b l Hab]; [done|].
  simpl in Hy. rewrite last_snoc in Hy. by injection Hy as <-.
Qed.

(** The elements before [x], the nearest first, stay in order when [x]
    takes its place among them. *)
Lemma insertSorted_Sorted x (before : list A) :
  (forall a b, In a (x :: before) -> In b (x :: before) ->
               less a b = true -> less b a = false) ->
  Sorted (fun a b => less a b = false) before ->
  Sorted (fun a b => less a b = false) (insertSorted less x before).
Proof.
  intros Hasym. induction before as [|y before IH]; intros Hs; simpl.
  - by repeat constructor.
  - destruct (less x y) eqn:Hxy.
    + apply Sorted_inv in Hs as [Hs Hy]. constructor.
      * apply IH; [|done]. intros a b Ha Hb. apply Hasym.
        -- destruct Ha as [<-|Ha]; [by left | by right; right].
        -- destruct Hb as [<-|Hb]; [by left | by right; right].
      * destruct before as [|z before]; simpl.
        -- constructor. apply Hasym; [by left | by right; left | done].
        -- destruct (less x z); constructor; [by apply HdRel_inv in Hy|].
           apply Hasym; [by left | by right; left | done].
    + constructor; [done|]. by constructor.
Qed.

Lemma insertionSort_Sorted (l : list A) :
  strictWeakOrder less l ->
  Sorted (fun a b => less b a = false) (insertionSort less l).
Proof.
  intros (Hirr & Htrans & _).
  assert (forall a b, In a l -> In b l -> less a b = true -> less b a = false) as Hasym.
  { intros a b Ha Hb Hab. destruct (less b a) eqn:Hba; [|done].
    by rewrite <- (Hirr a Ha), <- (Htrans a b a Ha Hb Ha Hab Hba). }
  unfold insertionSort. apply (Sorted_rev (fun a b => less a b = false)).
  enough (forall rest acc,
            (forall a, In a (acc ++ rest) -> In a l) ->
            Sorted (fun a b => less a b = false) acc ->
            Sorted (fun a b => less a b = false)
              (fold_left (fun before x => insertSorted less x before) rest acc)) as E
    by (apply E; [by intros a | constructor]).
  induction rest as [|x rest IH]; intros acc Hin Hacc; simpl; [done|].
  apply IH.
  - intros a Ha. apply Hin. apply in_app_or in Ha as [Ha|Ha].
    + apply (Permutation_in _ (insertSorted_Permutation less x acc)) in Ha.
      destruct Ha as [<-|Ha]; apply in_or_app; [right; by left | by left].
    + apply in_or_app. right. by right.
  - apply insertSorted_Sorted; [|done]. intros a b Ha Hb. apply Hasym; apply Hin.
    + destruct Ha as [<-|Ha]; apply in_or_app; [right; by left | by left].
    + destruct Hb as [<-|Hb]; apply in_or_app; [right; by left | by left].
Qed.

End SortContract.

Lemma insertionSort_sortsSlices {A} : sortsSlices (@insertionSort A).
Proof.
  intros less l. split; [apply insertionSort_Permutation|].
  apply insertionSort_Sorted.
Qed.

(** * What a profile resolves to *)

Definition findLocation (p : Profile) (id : Z) : option Location :=
  List.find (fun loc => Location_Id loc =? id) (Profile_Location p).

Definition findFunction (p : Profile) (id : Z) : option Function :=
  List.find (fun fn => Function_Id fn =? id) (Profile_Function p).

(** The (name, file name) strings of a Function. *)
Definition functionFrame (p : Profile) (fn : Function) : option frame :=
  match Profile_StringTable p !! Z.to_nat (Function_Name fn),
        Profile_StringTable p !! Z.to_nat (Function_Filename fn) with
  | Some name, Some filename => Some (name, filename)
  | _, _ => None
  end.

(** The frame of a Location: the strings of the Function of its first
    line. *)
Definition locationFrame (p : Profile) (loc : Location) : option frame :=
  match Location_Line loc with
  | line :: _ =>
      match findFunction p (Line_FunctionId line) with
      | Some fn => functionFrame p fn
      | None => None
      end
  | [] => None
  end.

(** The frame a location id stands for. *)
Definition resolveFrame (p : Profile) (id : Z) : option frame :=
  match findLocation p id with
  | Some loc => locationFrame p loc
  | None => None
  end.

(** The samples of a profile as a reader sees them: the frames, leaf first,
    and the value vector. *)
Definition resolvedContent (p : Profile) : list (list (option frame) * list Z) :=
  map (fun s => (map (resolveFrame p) (Sample_LocationId s), Sample_Value s))
    (Profile_Sample p).

(** * Keys and separators *)

Fixpoint hasChar (c : ascii) (s : string) : bool :=
  match s with
  | EmptyString => false
  | String a s' => Ascii.eqb a c || hasChar c s'
  end.

Definition nul : ascii := ascii_of_nat 0.

Definition semicolon : ascii := ";"%char.

(** A frame whose key can be read back: no NUL in the name, no semicolon in
    the category. *)
Definition plainFrame (f : frame) : Prop :=
  hasChar nul (fst f) = false /\ hasChar semicolon (snd f) = false.

Definition chainKey (fs : list frame) : string :=
  sampleKey (map (fun f => frameKey (fst f) (snd f)) fs).

Section Separators.

Lemma append_nil (s : string) : EmptyString +:+ s = s.
Proof. reflexivity. Qed.

Lemma append_cons a (s1 s2 : string) : String a s1 +:+ s2 = String a (s1 +:+ s2).
Proof. reflexivity. Qed.

Lemma append_nil_r (s : string) : s +:+ EmptyString = s.
Proof. induction s as [|a s IH]; [done | by rewrite append_cons, IH]. Qed.

Lemma append_assoc (s1 s2 s3 : string) : (s1 +:+ s2) +:+ s3 = s1 +:+ (s2 +:+ s3).
Proof.
  induction s1 as [|a s1 IH]; [done|]. by rewrite !append_cons, IH.
Qed.

(** A string is cut in one way only at the first occurrence of a character. *)
Lemma split_unique c s1 r1 s2 r2 :
  hasChar c s1 = false -> hasChar c s2 = false ->
  s1 +:+ String c r1 = s2 +:+ String c r2 -> s1 = s2 /\ r1 = r2.
Proof.
  revert s2. induction s1 as [|a s1 IH]; intros [|b s2];
    rewrite ?append_nil, ?append_cons; simpl; intros H1 H2 E.
  - by injection E.
  - injection E as -> _. by rewrite Ascii.eqb_refl in H2.
  - injection E as <- _. by rewrite Ascii.eqb_refl in H1.
  - apply orb_false_elim in H1 as [_ H1]. apply orb_false_elim in H2 as [_ H2].
    injection E as -> E. by destruct (IH _ H1 H2 E) as [-> ->].
Qed.

Lemma frameKey_eq name cat : frameKey name cat = name +:+ String nul cat.
Proof. reflexivity. Qed.

Lemma indexKey_eq name filename : indexKey name filename = name +:+ String nul filename.
Proof. reflexivity. Qed.

Lemma indexKey_inj n1 c1 n2 c2 :
  hasChar nul n1 = false -> hasChar nul n2 = false ->
  indexKey n1 c1 = indexKey n2 c2 -> n1 = n2 /\ c1 = c2.
Proof. rewrite !indexKey_eq. apply split_unique. Qed.

Lemma sampleKey_from stack key :
  fold_left (fun key s => key +:+ (s +:+ ";")) stack key = key +:+ sampleKey stack.
Proof.
  unfold sampleKey. revert key.
  induction stack as [|s stack IH]; intros key; cbn [fold_left].
  - by rewrite append_nil_r.
  - by rewrite IH, (IH (EmptyString +:+ (s +:+ ";"))), append_nil, append_assoc.
Qed.

Lemma sampleKey_cons s stack :
  sampleKey (s :: stack) = s +:+ String semicolon (sampleKey stack).
Proof.
  unfold sampleKey at 1. cbn [fold_left].
  by rewrite sampleKey_from, append_nil, append_assoc.
Qed.

Lemma chainKey_cons f fs :
  chainKey (f :: fs) = fst f +:+ String nul (snd f +:+ String semicolon (chainKey fs)).
Proof.
  unfold chainKey. cbn [map].
  by rewrite sampleKey_cons, frameKey_eq, append_assoc, append_cons.
Qed.

(** On plain frames the key of the sample map tells the chains apart. *)
Lemma chainKey_inj fs1 fs2 :
  Forall plainFrame fs1 -> Forall plainFrame fs2 ->
  chainKey fs1 = chainKey fs2 -> fs1 = fs2.
Proof.
  intros H1. revert fs2.
  induction H1 as [|[n1 c1] fs1 [Hn1 Hc1] _ IH]; intros fs2 H2 E.
  - destruct fs2 as [|f fs2]; [done|]. rewrite chainKey_cons in E.
    by destruct (fst f).
  - destruct H2 as [|[n2 c2] fs2 [Hn2 Hc2] H2].
    + rewrite chainKey_cons in E. simpl in E. by destruct n1.
    + rewrite !chainKey_cons in E. simpl in *.
      destruct (split_unique _ _ _ _ _ Hn1 Hn2 E) as [-> E'].
      destruct (split_unique _ _ _ _ _ Hc1 Hc2 E') as [-> E''].
      by rewrite (IH _ H2 E'').
Qed.

End Separators.

(** * One Function and one Location per key *)

Definition keyOf (f : frame) : string := indexKey (fst f) (snd f).

(** The Functions and the function index agree: the k-th Function is the
    one its key is indexed to, and every entry of the index is the place of
    a Function of that key. *)
Definition functionsKeyed (pb : Builder) : Prop :=
  (forall (k : nat) fn, functions pb !! k = Some fn ->
     exists f, functionFrame (Build pb) fn = Some f /\
               functionIndex pb !! keyOf f = Some (Z.of_nat k + 1)) /\
  (forall key id, functionIndex pb !! key = Some id ->
     exists (k : nat) fn f,
       id = Z.of_nat k + 1 /\ functions pb !! k = Some fn /\
       functionFrame (Build pb) fn = Some f /\ keyOf f = key).

Definition locationsKeyed (pb : Builder) : Prop :=
  (forall (k : nat) loc, locations pb !! k = Some loc ->
     exists f, locationFrame (Build pb) loc = Some f /\
               locationIndex pb !! keyOf f = Some (Z.of_nat k + 1)) /\
  (forall key id, locationIndex pb !! key = Some id ->
     exists (k : nat) loc f,
       id = Z.of_nat k + 1 /\ locations pb !! k = Some loc /\
       locationFrame (Build pb) loc = Some f /\ keyOf f = key).

(** What a call has returned is what the index holds for its key. *)
Definition answered (pb : Builder) (c : call) (id : Z) : Prop :=
  match c with
  | CallAddString s => stringIndex pb !! s = Some id
  | CallGetOrCreateFunction name filename =>
      functionIndex pb !! indexKey name filename = Some id
  | CallGetOrCreateLocation name filename =>
      locationIndex pb !! indexKey name filename = Some id
  end.

Section Keyed.

Implicit Types (pb : Builder) (cfg : config).

Lemma find_by_id {A} (ident : A -> Z) (l : list A) (base : Z) (k : nat) x :
  (forall (j : nat) y, l !! j = Some y -> ident y = base + Z.of_nat j) ->
  l !! k = Some x ->
  List.find (fun y => ident y =? base + Z.of_nat k) l = Some x.
Proof.
  revert base k. induction l as [|y l IH]; intros base k Hl Hk; [done|].
  destruct k as [|k]; simpl in *.
  - injection Hk as ->. rewrite (Hl 0%nat x eq_refl). by rewrite Z.eqb_refl.
  - rewrite (Hl 0%nat y eq_refl).
    destruct (Z.eqb_spec (base + Z.of_nat 0) (base + Z.of_nat (S k))) as [E|_]; [lia|].
    replace (base + Z.of_nat (S k)) with ((base + 1) + Z.of_nat k) by lia.
    apply IH; [|done]. intros j z Hj. rewrite (Hl (S j) z Hj). lia.
Qed.

Lemma findFunction_dense pb (k : nat) fn :
  functionIdsDense pb -> functions pb !! k = Some fn ->
  findFunction (Build pb) (Z.of_nat k + 1) = Some fn.
Proof.
  intros Hd Hk. unfold findFunction.
  rewrite (Z.add_comm (Z.of_nat k) 1).
  apply (find_by_id Function_Id); [|done].
  intros j y Hj. rewrite (Hd j y Hj). lia.
Qed.

Lemma findFunction_lookup pb id fn :
  findFunction (Build pb) id = Some fn ->
  exists k : nat, functions pb !! k = Some fn /\ Function_Id fn = id.
Proof.
  unfold findFunction. intros [Hin Hid]%find_some.
  apply list_elem_of_In, list_elem_of_lookup in Hin as [k Hk].
  exists k. split; [done | lia].
Qed.

Lemma functionFrame_extends pb pb' fn f :
  stringTable pb `prefix_of` stringTable pb' ->
  functionFrame (Build pb) fn = Some f -> functionFrame (Build pb') fn = Some f.
Proof.
  intros Hp. unfold functionFrame, Build.
  change (Profile_StringTable (Builder_profile pb)) with (stringTable pb).
  change (Profile_StringTable (Builder_profile pb')) with (stringTable pb').
  destruct (stringTable pb !! Z.to_nat (Function_Name fn)) as [name|] eqn:Hn; [|done].
  destruct (stringTable pb !! Z.to_nat (Function_Filename fn)) as [file|] eqn:Hf; [|done].
  by rewrite (prefix_lookup_Some _ _ _ _ Hn Hp), (prefix_lookup_Some _ _ _ _ Hf Hp).
Qed.

Lemma locationFrame_extends pb pb' loc f :
  extends pb pb' -> functionIdsDense pb' ->
  locationFrame (Build pb) loc = Some f -> locationFrame (Build pb') loc = Some f.
Proof.
  intros [Es Ef _ _ _ _] Hd. unfold locationFrame.
  destruct (Location_Line loc) as [|line lines]; [done|].
  destruct (findFunction (Build pb) (Line_FunctionId line)) as [fn|] eqn:Hfn; [|done].
  apply findFunction_lookup in Hfn as (k & Hk & Hid).
  pose proof (prefix_lookup_Some _ _ _ _ Hk Ef) as Hk'.
  pose proof (Hd _ _ Hk') as Hid'.
  rewrite <- Hid, Hid', (findFunction_dense pb' k fn Hd Hk').
  by apply functionFrame_extends.
Qed.

(** The index of the string [addStringLocked] returns holds that string. *)
Lemma addStringLocked_lookup pb s :
  stringsIndexed pb ->
  stringTable (snd (addStringLocked pb s)) !! Z.to_nat (fst (addStringLocked pb s)) = Some s.
Proof.
  intros [_ Hit]. unfold addStringLocked.
  destruct (stringIndex pb !! s) as [idx|] eqn:Hs; simpl.
  - destruct (Hit _ _ Hs) as (i & -> & Hi). by rewrite Nat2Z.id.
  - unfold stringTable, len. simpl. rewrite Nat2Z.id.
    rewrite lookup_app_r by lia. by rewrite Nat.sub_diag.
Qed.

Lemma createFunction_spec pb name filename :
  stringsIndexed pb ->
  exists fn,
    functions (snd (createFunction pb name filename)) = functions pb ++ [fn] /\
    functionFrame (Build (snd (createFunction pb name filename))) fn =
      Some (name, filename) /\
    functionIndex (snd (createFunction pb name filename)) =
      <[indexKey name filename := len (functions pb) + 1]> (functionIndex pb) /\
    fst (createFunction pb name filename) = len (functions pb) + 1.
Proof.
  intros H0. unfold createFunction.
  pose proof (addStringLocked_lookup pb name H0) as L1.
  pose proof (addStringLocked_stringsIndexed pb name H0) as H1.
  pose proof (addStringLocked_frame pb name) as F1.
  destruct (addStringLocked pb name) as [fname pb1]; simpl in L1, H1, F1.
  pose proof (addStringLocked_extends pb1 name) as E2.
  pose proof (addStringLocked_stringsIndexed pb1 name H1) as H2.
  pose proof (addStringLocked_frame pb1 name) as F2.
  destruct (addStringLocked pb1 name) as [sname pb2]; simpl in E2, H2, F2.
  pose proof (addStringLocked_lookup pb2 filename H2) as L3.
  pose proof (addStringLocked_extends pb2 filename) as E3.
  pose proof (addStringLocked_frame pb2 filename) as F3.
  destruct (addStringLocked pb2 filename) as [ffile pb3]; simpl in L3, E3, F3.
  destruct F1 as (F1 & _ & I1 & _), F2 as (F2 & _ & I2 & _), F3 as (F3 & _ & I3 & _).
  destruct E2 as [E2 _ _ _ _ _], E3 as [E3 _ _ _ _ _].
  eexists. unfold functions in *. simpl. rewrite F3, F2, F1, I3, I2, I1.
  split; [reflexivity|]. split; [|done].
  unfold functionFrame, Build. simpl.
  change (Profile_StringTable (Builder_profile pb3)) with (stringTable pb3).
  rewrite L3.
  by rewrite (prefix_lookup_Some _ _ _ _ (prefix_lookup_Some _ _ _ _ L1 E2) E3).
Qed.

Definition keyed pb : Prop := functionsKeyed pb /\ locationsKeyed pb.

(** The part of a Builder that interning a string leaves alone. *)
Definition frameTables pb :=
  (functions pb, locations pb, functionIndex pb, locationIndex pb).

Lemma keyed_strings pb pb' :
  extends pb pb' -> functionIdsDense pb' -> frameTables pb' = frameTables pb ->
  keyed pb -> keyed pb'.
Proof.
  unfold frameTables. intros E Hd [= F L FI LI] [[F1 F2] [L1 L2]].
  pose proof (extends_strings _ _ E) as Es.
  split; split.
  - rewrite F, FI. intros k fn Hk. destruct (F1 _ _ Hk) as (f & Hf & Hi).
    exists f. split; [by eapply functionFrame_extends | done].
  - rewrite F, FI. intros key id Hi.
    destruct (F2 _ _ Hi) as (k & fn & f & ? & ? & Hf & ?).
    exists k, fn, f. split_and!; try done. by eapply functionFrame_extends.
  - rewrite L, LI. intros k loc Hk. destruct (L1 _ _ Hk) as (f & Hf & Hi).
    exists f. split; [by eapply locationFrame_extends | done].
  - rewrite L, LI. intros key id Hi.
    destruct (L2 _ _ Hi) as (k & loc & f & ? & ? & Hf & ?).
    exists k, loc, f. split_and!; try done. by eapply locationFrame_extends.
Qed.

Lemma createFunction_keyed pb name filename :
  builderInvariant pb -> keyed pb ->
  functionIndex pb !! indexKey name filename = None ->
  keyed (snd (createFunction pb name filename)).
Proof.
  intros (Hs & Hd & _ & _) [[F1 F2] [L1 L2]] Hnone.
  pose proof (createFunction_extends pb name filename Hnone) as E.
  pose proof (createFunction_dense pb name filename Hd) as Hd'.
  destruct (createFunction_functions pb name filename) as (_ & _ & _ & _ & Hl & Hli).
  destruct (createFunction_spec pb name filename Hs) as (fn & Hf & Hfr & Hfi & _).
  pose proof (extends_strings _ _ E) as Es.
  set (pb' := snd (createFunction pb name filename)) in *.
  split; split.
  - rewrite Hf, Hfi. intros k fn0 [Hk|[Hlen Hk]]%lookup_app_Some.
    + destruct (F1 _ _ Hk) as (f & Hfr0 & Hi). exists f.
      split; [by eapply functionFrame_extends|].
      rewrite lookup_insert_ne; [done|]. intros Heq. by rewrite <- Heq, Hnone in Hi.
    + apply list_lookup_singleton_Some in Hk as [Hk ->].
      exists (name, filename). split; [done|].
      unfold keyOf. simpl. rewrite lookup_insert_eq. f_equal. unfold len. lia.
  - rewrite Hf, Hfi. intros key id [[<- <-]|[Hne Hi]]%lookup_insert_Some.
    + exists (length (functions pb)), fn, (name, filename). split_and!; try done.
      rewrite lookup_app_r by lia. by rewrite Nat.sub_diag.
    + destruct (F2 _ _ Hi) as (k & fn0 & f & ? & Hk & Hfr0 & ?).
      exists k, fn0, f. split_and!; try done.
      * by apply lookup_app_l_Some.
      * by eapply functionFrame_extends.
  - rewrite Hl, Hli. intros k loc Hk. destruct (L1 _ _ Hk) as (f & Hfr0 & Hi).
    exists f. split; [by eapply locationFrame_extends | done].
  - rewrite Hl, Hli. intros key id Hi.
    destruct (L2 _ _ Hi) as (k & loc & f & ? & ? & Hfr0 & ?).
    exists k, loc, f. split_and!; try done. by eapply locationFrame_extends.
Qed.

(** The writes that close the write section of [GetOrCreateLocation]. *)
Lemma newLocation_keyed pb key funcId :
  functionIdsDense pb -> keyed pb ->
  functionIndex pb !! key = Some funcId -> locationIndex pb !! key = None ->
  keyed
    {| Builder_profile :=
         with_Location (Builder_profile pb)
           (Profile_Location (Builder_profile pb) ++
            [ {| Location_Id := len (Profile_Location (Builder_profile pb)) + 1;
                 Location_Line := [ {| Line_FunctionId := funcId; Line_Line := 0 |} ] |} ]);
       stringIndex := stringIndex pb;
       functionIndex := functionIndex pb;
       locationIndex :=
         <[key := len (Profile_Location (Builder_profile pb)) + 1]> (locationIndex pb) |}.
Proof.
  intros Hd [[F1 F2] [L1 L2]] Hfi Hnone.
  destruct (F2 _ _ Hfi) as (j & fn & f & -> & Hj & Hfr & Hkey).
  split; [by split|]. split.
  - unfold locations. simpl. intros k loc [Hk|[Hlen Hk]]%lookup_app_Some.
    + destruct (L1 _ _ Hk) as (f0 & Hfr0 & Hi). exists f0. split; [exact Hfr0|].
      rewrite lookup_insert_ne; [done|]. intros Heq. by rewrite <- Heq, Hnone in Hi.
    + apply list_lookup_singleton_Some in Hk as [Hk <-].
      exists f. split.
      * unfold locationFrame. simpl.
        change (findFunction (Build pb) (Z.of_nat j + 1) ≫= functionFrame (Build pb) = Some f).
        by rewrite (findFunction_dense pb j fn Hd Hj).
      * rewrite Hkey, lookup_insert_eq. f_equal. unfold len. lia.
  - unfold locations. simpl. intros key' id [[<- <-]|[Hne Hi]]%lookup_insert_Some.
    + eexists (length (Profile_Location (Builder_profile pb))), _, f.
      split_and!; [done| |  |done].
      * rewrite lookup_app_r by lia. by rewrite Nat.sub_diag.
      * unfold locationFrame. simpl.
        change (findFunction (Build pb) (Z.of_nat j + 1) ≫= functionFrame (Build pb) = Some f).
        by rewrite (findFunction_dense pb j fn Hd Hj).
    + destruct (L2 _ _ Hi) as (k & loc & f0 & ? & Hk & Hfr0 & ?).
      exists k, loc, f0. split_and!; try done. by apply lookup_app_l_Some.
Qed.

Lemma writeSection_keyed c pb :
  builderInvariant pb -> keyed pb -> keyed (snd (writeSection c pb)).
Proof.
  intros Hinv Hk.
  pose proof (writeSection_invariant c pb Hinv) as (_ & Hd' & _ & _).
  destruct c as [s|name filename|name filename]; simpl in *.
  - rewrite AddString_write_eq in *.
    apply (keyed_strings pb); [apply addStringLocked_extends | done | | done].
    unfold frameTables.
    by destruct (addStringLocked_frame pb s) as (-> & -> & -> & ->).
  - unfold GetOrCreateFunction_write.
    destruct (functionIndex pb !! indexKey name filename) eqn:Hf; simpl;
      [done | by apply createFunction_keyed].
  - unfold GetOrCreateLocation_write.
    destruct (locationIndex pb !! indexKey name filename) eqn:Hl; simpl; [done|].
    destruct Hinv as (Hs & Hd & Hld & Hnz).
    destruct (functionIndex pb !! indexKey name filename) as [fid|] eqn:Hf; simpl.
    + destruct (Z.eqb_spec fid 0) as [->|_]; [by apply Hnz in Hf|].
      by apply newLocation_keyed.
    + pose proof (createFunction_keyed pb name filename (conj Hs (conj Hd (conj Hld Hnz)))
                    Hk Hf) as Hk1.
      pose proof (createFunction_dense pb name filename Hd) as Hd1.
      destruct (createFunction_functions pb name filename) as (_ & _ & _ & _ & _ & Hli).
      destruct (createFunction_spec pb name filename Hs) as (fn & _ & _ & Hfi & Hid).
      destruct (createFunction pb name filename) as [fid pb1]. simpl in *.
      apply newLocation_keyed; [done | done | | congruence].
      rewrite Hfi, Hid. apply lookup_insert_eq.
Qed.

Lemma GetOrCreateLocation_write_handle pb name filename :
  locationIndex (snd (GetOrCreateLocation_write pb name filename)) !! indexKey name filename =
  Some (fst (GetOrCreateLocation_write pb name filename)).
Proof.
  unfold GetOrCreateLocation_write.
  destruct (locationIndex pb !! indexKey name filename) eqn:Hl; simpl; [done|].
  destruct (default 0 (functionIndex pb !! indexKey name filename) =? 0).
  - destruct (createFunction pb name filename). simpl. apply lookup_insert_eq.
  - simpl. apply lookup_insert_eq.
Qed.

Lemma AddString_frameTables pb s : frameTables (snd (AddString pb s)) = frameTables pb.
Proof.
  rewrite AddString_eq. unfold frameTables.
  by destruct (addStringLocked_frame pb s) as (-> & -> & -> & ->).
Qed.

Lemma SetSampleTypes_frameTables types pb :
  frameTables (SetSampleTypes pb types) = frameTables pb.
Proof.
  unfold SetSampleTypes. revert pb.
  induction types as [|t types IH]; intros pb; simpl; [done|].
  pose proof (AddString_frameTables pb (fst t)) as T1.
  destruct (AddString pb (fst t)) as [ty pb1]; simpl in T1.
  pose proof (AddString_frameTables pb1 (snd t)) as T2.
  destruct (AddString pb1 (snd t)) as [un pb2]; simpl in T2.
  rewrite IH. by rewrite <- T1, <- T2.
Qed.

Lemma SetPeriodType_frameTables typeName unit pb :
  frameTables (SetPeriodType pb typeName unit) = frameTables pb.
Proof.
  unfold SetPeriodType.
  pose proof (AddString_frameTables pb typeName) as T1.
  destruct (AddString pb typeName) as [ty pb1]; simpl in T1.
  pose proof (AddString_frameTables pb1 unit) as T2.
  destruct (AddString pb1 unit) as [un pb2]; simpl in T2.
  by rewrite <- T1, <- T2.
Qed.

(** In every state of a build the two indexes and the two lists agree. *)
Lemma reachable_keyed pb : reachable pb -> keyed pb.
Proof.
  induction 1 as [|c pb Hr IH|types pb Hr IH|typeName unit pb Hr IH|n pb _ IH|ss pb _ IH].
  - split; split; by intros [|?] ?.
  - apply writeSection_keyed; [by apply reachable_invariant | done].
  - destruct (SetSampleTypes_facts types pb (reachable_invariant _ Hr))
      as [(_ & Hd & _ & _) E].
    by apply (keyed_strings pb); [| |apply SetSampleTypes_frameTables|].
  - destruct (SetPeriodType_facts typeName unit pb (reachable_invariant _ Hr))
      as [(_ & Hd & _ & _) E].
    by apply (keyed_strings pb); [| |apply SetPeriodType_frameTables|].
  - exact IH.
  - exact IH.
Qed.

End Keyed.

Section Deduplication.

Implicit Types (pb : Builder) (cfg : config).

Lemma findLocation_dense pb (k : nat) loc :
  locationIdsDense pb -> locations pb !! k = Some loc ->
  findLocation (Build pb) (Z.of_nat k + 1) = Some loc.
Proof.
  intros Hd Hk. unfold findLocation.
  rewrite (Z.add_comm (Z.of_nat k) 1).
  apply (find_by_id Location_Id); [|done].
  intros j y Hj. rewrite (Hd j y Hj). lia.
Qed.

Lemma readSection_answered c pb id : readSection c pb = Some id -> answered pb c id.
Proof. by destruct c. Qed.

Lemma writeSection_answered c pb :
  builderInvariant pb -> answered (snd (writeSection c pb)) c (fst (writeSection c pb)).
Proof.
  intros (Hs & _ & _ & _). destruct c as [s|name filename|name filename]; simpl.
  - unfold AddString_write.
    destruct (stringIndex pb !! s) eqn:E; simpl; [done | apply lookup_insert_eq].
  - unfold GetOrCreateFunction_write.
    destruct (functionIndex pb !! indexKey name filename) eqn:E; simpl; [done|].
    destruct (createFunction_spec pb name filename Hs) as (fn & _ & _ & -> & ->).
    apply lookup_insert_eq.
  - apply (GetOrCreateLocation_write_handle pb name filename).
Qed.

Lemma answered_extends pb pb' c id : extends pb pb' -> answered pb c id -> answered pb' c id.
Proof. intros [] H. destruct c; simpl in *; by eapply lookup_weaken. Qed.

Lemma step_answered cfg cfg' :
  step cfg cfg' -> reachable (shared cfg) ->
  (forall c id, (c, id) ∈ returned cfg -> answered (shared cfg) c id) ->
  forall c id, (c, id) ∈ returned cfg' -> answered (shared cfg') c id.
Proof.
  destruct 1 as [cfg i c rest id Hg Hread|cfg i c rest Hg Hread|cfg i c rest Hg];
    simpl; intros Hr H c0 id0 Hin.
  - apply elem_of_app in Hin as [Hin|Hin]; [by apply H|].
    apply list_elem_of_singleton in Hin as [= -> ->]. by apply readSection_answered.
  - by apply H.
  - pose proof (reachable_invariant _ Hr) as Hinv.
    apply elem_of_app in Hin as [Hin|Hin].
    + eapply answered_extends; [|by apply H].
      apply writeSection_extends. by destruct Hinv as (_ & _ & _ & ?).
    + apply list_elem_of_singleton in Hin as [= -> ->]. by apply writeSection_answered.
Qed.

Lemma steps_answered cfg cfg' :
  rtc step cfg cfg' -> reachable (shared cfg) ->
  (forall c id, (c, id) ∈ returned cfg -> answered (shared cfg) c id) ->
  forall c id, (c, id) ∈ returned cfg' -> answered (shared cfg') c id.
Proof.
  induction 1 as [|cfg1 cfg2 cfg3 Hs _ IH]; intros Hr H; [done|].
  apply IH; [by eapply step_reachable | by eapply step_answered].
Qed.

(** X1.  Deduplication under concurrency.  From a state of a build,
    whatever the goroutines call and however their read and write sections
    interleave: every Function and every Location is the one the index
    holds for the key [name + NUL + filename] of its strings; no two
    Functions and no two Locations have the same key; the calls with one key
    all return the same id; and the id a call returns is that of the one
    Function, or Location, of its key. *)
Theorem builder_deduplicates cfg0 cfg :
  reachable (shared cfg0) -> returned cfg0 = [] -> rtc step cfg0 cfg ->
  let pb := shared cfg in
  (forall (k : nat) fn, functions pb !! k = Some fn ->
     exists f, functionFrame (Build pb) fn = Some f /\
               functionIndex pb !! keyOf f = Some (Function_Id fn)) /\
  (forall (k : nat) loc, locations pb !! k = Some loc ->
     exists f, locationFrame (Build pb) loc = Some f /\
               locationIndex pb !! keyOf f = Some (Location_Id loc)) /\
  (forall (i j : nat) fn1 fn2 f1 f2,
     functions pb !! i = Some fn1 -> functions pb !! j = Some fn2 ->
     functionFrame (Build pb) fn1 = Some f1 -> functionFrame (Build pb) fn2 = Some f2 ->
     keyOf f1 = keyOf f2 -> i = j) /\
  (forall (i j : nat) loc1 loc2 f1 f2,
     locations pb !! i = Some loc1 -> locations pb !! j = Some loc2 ->
     locationFrame (Build pb) loc1 = Some f1 -> locationFrame (Build pb) loc2 = Some f2 ->
     keyOf f1 = keyOf f2 -> i = j) /\
  (forall c id1 id2, (c, id1) ∈ returned cfg -> (c, id2) ∈ returned cfg -> id1 = id2) /\
  (forall name filename id,
     (CallGetOrCreateFunction name filename, id) ∈ returned cfg ->
     exists fn f, findFunction (Build pb) id = Some fn /\
                  functionFrame (Build pb) fn = Some f /\
                  keyOf f = indexKey name filename) /\
  (forall name filename id,
     (CallGetOrCreateLocation name filename, id) ∈ returned cfg ->
     exists loc f, findLocation (Build pb) id = Some loc /\
                   locationFrame (Build pb) loc = Some f /\
                   keyOf f = indexKey name filename).
Proof.
  intros Hr0 Hret Hsteps pb.
  assert (reachable pb) as Hr by (by eapply steps_reachable).
  pose proof (reachable_invariant _ Hr) as (_ & Hfd & Hld & _).
  destruct (reachable_keyed _ Hr) as [[F1 F2] [L1 L2]].
  assert (forall c id, (c, id) ∈ returned cfg -> answered pb c id) as Hans.
  { apply (steps_answered cfg0); [done..|]. rewrite Hret. by intros ? ? ?%elem_of_nil. }
  split_and!.
  - intros k fn Hk. destruct (F1 _ _ Hk) as (f & Hf & Hi).
    exists f. by rewrite (Hfd _ _ Hk).
  - intros k loc Hk. destruct (L1 _ _ Hk) as (f & Hf & Hi).
    exists f. by rewrite (Hld _ _ Hk).
  - intros i j fn1 fn2 f1 f2 Hi Hj Hf1 Hf2 Hkey.
    destruct (F1 _ _ Hi) as (f1' & Hf1' & Hi1), (F1 _ _ Hj) as (f2' & Hf2' & Hi2).
    rewrite Hf1 in Hf1'. rewrite Hf2 in Hf2'.
    injection Hf1' as <-. injection Hf2' as <-.
    rewrite Hkey, Hi2 in Hi1. injection Hi1. lia.
  - intros i j loc1 loc2 f1 f2 Hi Hj Hf1 Hf2 Hkey.
    destruct (L1 _ _ Hi) as (f1' & Hf1' & Hi1), (L1 _ _ Hj) as (f2' & Hf2' & Hi2).
    rewrite Hf1 in Hf1'. rewrite Hf2 in Hf2'.
    injection Hf1' as <-. injection Hf2' as <-.
    rewrite Hkey, Hi2 in Hi1. injection Hi1. lia.
  - intros c id1 id2 H1%Hans H2%Hans.
    destruct c; simpl in *; congruence.
  - intros name filename id Hin%Hans. simpl in Hin.
    destruct (F2 _ _ Hin) as (k & fn & f & -> & Hk & Hf & Hkey).
    exists fn, f. split_and!; try done. by apply findFunction_dense.
  - intros name filename id Hin%Hans. simpl in Hin.
    destruct (L2 _ _ Hin) as (k & loc & f & -> & Hk & Hf & Hkey).
    exists loc, f. split_and!; try done. by apply findLocation_dense.
Qed.

End Deduplication.

(** * The chains of the samples received *)

(** The (name, category) pairs of a sample, ancestors first. *)
Definition chainOf (x : stackSample) : list frame :=
  zip (stackSample_names x) (stackSample_cats x).

(** The update of the entry of a key, as the aggregation loop writes it. *)
Definition bump (entry : option (Z * Z)) (timeNs : Z) : option (Z * Z) :=
  match entry with
  | Some (n, t) => Some (int64 (n + 1), int64 (t + timeNs))
  | None => Some (1, timeNs)
  end.

Section Chains.

Lemma framesOf_chainOf x fs : framesOf x fs -> chainOf x = fs.
Proof.
  intros (Hn & Hc & _). unfold chainOf. rewrite Hn, Hc. clear Hn Hc.
  induction fs as [|[n c] fs IH]; [done|]. cbn [map zip_with fst snd]. by f_equal.
Qed.

Lemma framesOf_key x fs : framesOf x fs -> sampleKey (stackSample_stack x) = chainKey fs.
Proof. intros (_ & _ & Hs). unfold chainKey. by rewrite Hs. Qed.

Lemma keepContaining_incl event stack s : In s (keepContaining event stack) -> In s stack.
Proof. unfold keepContaining. by intros [? _]%filter_In. Qed.

(** Every frame of every sample of a thread is the frame of one of its
    events. *)
Lemma processEvents_chain (P : frame -> Prop) stack events x :
  Forall (fun s => P (entryFrame s)) stack ->
  Forall (fun e => P (frameOf e)) events ->
  In x (processEvents stack events) ->
  exists fs, framesOf x fs /\ Forall P fs.
Proof.
  intros Hstack Hevents. revert stack Hstack.
  induction Hevents as [|e events He _ IH]; intros stack Hstack; simpl; [done|].
  assert (Forall (fun s => P (entryFrame s)) (retained stack e)) as Hret.
  { apply Forall_forall. intros s Hs%list_elem_of_In.
    rewrite Forall_forall in Hstack. apply Hstack, list_elem_of_In.
    by eapply popEnded_incl, keepContaining_incl. }
  intros [<-|Hin].
  - exists (map entryFrame (retained stack e) ++ [frameOf e]).
    split; [apply processEvent_frames|].
    apply Forall_app. split; [by apply Forall_fmap | by constructor].
  - apply (IH (fst (processEvent stack e))); [|done].
    rewrite processEvent_stack. apply Forall_app. split; [done | by constructor].
Qed.

(** Every event of a thread sends a sample of which it is the leaf. *)
Lemma processEvents_leaf stack events e :
  In e events ->
  exists x ancestors, In x (processEvents stack events) /\
                      framesOf x (ancestors ++ [frameOf e]).
Proof.
  revert stack. induction events as [|e0 events IH]; intros stack; simpl; [done|].
  intros [->|Hin].
  - exists (snd (processEvent stack e)), (map entryFrame (retained stack e)).
    split; [by left | apply processEvent_frames].
  - destruct (IH (fst (processEvent stack e0)) Hin) as (x & ancestors & Hx & Hf).
    exists x, ancestors. split; [by right | done].
Qed.

Lemma tally_lookup c kt k :
  tally c kt !! k = if decide (fst kt = k) then bump (c !! k) (snd kt) else c !! k.
Proof.
  unfold tally, bump. destruct (decide (fst kt = k)) as [<-|Hne].
  - destruct (c !! fst kt) as [[n t]|]; by rewrite lookup_insert_eq.
  - destruct (c !! fst kt) as [[n t]|]; by rewrite lookup_insert_ne.
Qed.

(** The entry of a key is the tally of the samples of that key alone. *)
Lemma fold_tally_lookup l c k :
  fold_left tally l c !! k =
  fold_left bump (map snd (List.filter (fun kt => bool_decide (fst kt = k)) l)) (c !! k).
Proof.
  revert c. induction l as [|kt l IH]; intros c; simpl; [done|].
  rewrite IH, tally_lookup. unfold bool_decide.
  destruct (decide_rel eq (fst kt) k); simpl; [|done].
  by destruct (decide (fst kt = k)).
Qed.

Lemma filter_map {A B} (f : A -> B) (p : B -> bool) (l : list A) :
  List.filter p (map f l) = map f (List.filter (fun x => p (f x)) l).
Proof.
  induction l as [|x l IH]; simpl; [done|]. rewrite IH. by destruct (p (f x)).
Qed.

Lemma int64_idem z : int64 (int64 z) = int64 z.
Proof. pose proof (int64_add_l z 0) as H. by rewrite !Z.add_0_r in H. Qed.

Lemma fold_bump_Some ts n t :
  int64 n = n ->
  exists n' t', fold_left bump ts (Some (n, t)) = Some (n', t') /\
                n' = int64 (n + Z.of_nat (length ts)) /\
                int64 t' = int64 (t + sumZ ts).
Proof.
  revert n t. induction ts as [|u ts IH]; intros n t Hn; simpl.
  - exists n, t. split; [done|]. split; [rewrite <- Hn at 1|]; f_equal; lia.
  - destruct (IH (int64 (n + 1)) (int64 (t + u)) (int64_idem _)) as (n' & t' & -> & -> & Ht).
    exists (int64 (int64 (n + 1) + Z.of_nat (length ts))), t'.
    split; [done|]. rewrite Ht, !int64_add_l.
    split; f_equal; unfold sumZ; simpl; lia.
Qed.

(** What a tally from nothing comes to: nothing for no sample, and for
    [ts] the number of samples and their total, as [int64] values. *)
Lemma fold_bump_None ts :
  match fold_left bump ts None with
  | None => ts = []
  | Some (n, t) =>
      ts <> [] /\ n = int64 (Z.of_nat (length ts)) /\ int64 t = int64 (sumZ ts)
  end.
Proof.
  destruct ts as [|u ts]; simpl; [done|].
  destruct (fold_bump_Some ts 1 u eq_refl) as (n' & t' & -> & -> & Ht).
  split; [done|]. rewrite Ht. split; f_equal; unfold sumZ; simpl; lia.
Qed.

End Chains.

(** No name of a kept event holds a NUL and no category a semicolon. *)
Definition plainTrace (traceData : TraceData) : Prop :=
  forall e, In e (TraceEvents traceData) -> skipped e = false ->
            plainFrame (Name e, Cat e).

(** The strings of every Function satisfy [P]. *)
Definition framesWithin (P : frame -> Prop) (pb : Builder) : Prop :=
  forall (k : nat) fn f,
    functions pb !! k = Some fn -> functionFrame (Build pb) fn = Some f -> P f.

(** One round of the grouping loop. *)
Definition group (threadEvents : gmap Z (list eventWithEnd)) (e : TraceEvent)
  : gmap Z (list eventWithEnd) :=
  if skipped e then threadEvents
  else
    let tid := getTid (Tid e) in
    <[tid := (threadEvents !!! tid) ++
             [ {| Event := e; End_ := (Ts e + Dur e)%float |} ] ]> threadEvents.

Section Grouping.

Lemma group_mono events m tid l0 x :
  m !! tid = Some l0 -> In x l0 ->
  exists l1, fold_left group events m !! tid = Some l1 /\ In x l1.
Proof.
  revert m l0. induction events as [|e events IH]; intros m l0 Hm Hx; simpl; [eauto|].
  unfold group at 2. destruct (skipped e); [by eapply IH|].
  destruct (decide (getTid (Tid e) = tid)) as [->|Hne].
  - eapply IH; [apply lookup_insert_eq|].
    rewrite lookup_total_alt, Hm. simpl. apply in_or_app. by left.
  - eapply IH; [|done]. by rewrite lookup_insert_ne.
Qed.

(** Every event the filter keeps is put on its thread. *)
Lemma groupByThread_kept events e :
  In e events -> skipped e = false ->
  exists l, groupByThread events !! getTid (Tid e) = Some l /\
            In {| Event := e; End_ := (Ts e + Dur e)%float |} l.
Proof.
  unfold groupByThread. change (fold_left _ events ∅) with (fold_left group events ∅).
  generalize (∅ : gmap Z (list eventWithEnd)).
  induction events as [|e0 events IH]; intros m; simpl; [done|].
  intros [->|Hin] Hs; [|by apply IH].
  unfold group at 2. rewrite Hs.
  eapply group_mono; [apply lookup_insert_eq|]. apply in_or_app. right. by left.
Qed.

End Grouping.

Section Within.

Implicit Types (pb : Builder) (P : frame -> Prop).

Lemma createFunction_within P pb name filename :
  reachable pb -> framesWithin P pb -> P (name, filename) ->
  functionIndex pb !! indexKey name filename = None ->
  framesWithin P (snd (createFunction pb name filename)).
Proof.
  intros Hr Hw HP Hnone.
  pose proof (reachable_invariant _ Hr) as (Hs & _).
  destruct (reachable_keyed _ Hr) as [[F1 _] _].
  pose proof (createFunction_extends pb name filename Hnone) as [Es _ _ _ _ _].
  destruct (createFunction_spec pb name filename Hs) as (fn & Hf & Hfr & _).
  intros k fn0 f Hk Hf0. rewrite Hf in Hk.
  apply lookup_app_Some in Hk as [Hk|[_ Hk]].
  - destruct (F1 _ _ Hk) as (f0 & Hfr0 & _).
    rewrite (functionFrame_extends _ _ _ _ Es Hfr0) in Hf0. injection Hf0 as <-.
    by eapply Hw.
  - apply list_lookup_singleton_Some in Hk as [_ <-]. congruence.
Qed.

Lemma GetOrCreateLocation_within P pb name filename :
  reachable pb -> framesWithin P pb -> P (name, filename) ->
  framesWithin P (snd (GetOrCreateLocation pb name filename)).
Proof.
  intros Hr Hw HP. unfold GetOrCreateLocation, GetOrCreateLocation_read.
  destruct (locationIndex pb !! indexKey name filename) eqn:Hl; [done|].
  unfold GetOrCreateLocation_write. rewrite Hl.
  destruct (functionIndex pb !! indexKey name filename) as [fid|] eqn:Hf; simpl.
  - pose proof (reachable_invariant _ Hr) as (_ & _ & _ & Hnz).
    destruct (Z.eqb_spec fid 0) as [->|Hne]; [by apply Hnz in Hf | exact Hw].
  - pose proof (createFunction_within P pb name filename Hr Hw HP Hf) as Hw1.
    destruct (createFunction pb name filename) as [fid pb1]. exact Hw1.
Qed.

Lemma resolveFrames_within P pb fs :
  reachable pb -> framesWithin P pb -> Forall P fs ->
  framesWithin P (snd (resolveFrames pb fs)).
Proof.
  intros Hr Hw Hfs. revert pb Hr Hw.
  induction Hfs as [|[name cat] fs Hf _ IH]; intros pb Hr Hw; simpl; [done|].
  pose proof (GetOrCreateLocation_reachable pb name cat Hr) as R1.
  pose proof (GetOrCreateLocation_within P pb name cat Hr Hw Hf) as W1.
  destruct (GetOrCreateLocation pb name cat) as [id pb1]. simpl in *.
  specialize (IH pb1 R1 W1). by destruct (resolveFrames pb1 fs).
Qed.

Lemma aggregate_within P pb sampleMap x fs :
  reachable pb -> framesWithin P pb -> framesOf x fs -> Forall P fs ->
  reachable (fst (aggregate (pb, sampleMap) x)) /\
  framesWithin P (fst (aggregate (pb, sampleMap) x)).
Proof.
  intros Hr Hw Hx Hfs. unfold aggregate.
  destruct (sampleMap !! sampleKey (stackSample_stack x)); [done|].
  rewrite (buildLocationIds_rev pb x _ Hx).
  destruct (resolveFrames_facts pb fs Hr) as (Hr' & _ & _).
  pose proof (resolveFrames_within P pb fs Hr Hw Hfs) as Hw'.
  by destruct (resolveFrames pb fs).
Qed.

Lemma fold_aggregate_within P xs st :
  reachable (fst st) -> framesWithin P (fst st) ->
  (forall x, In x xs -> exists fs, framesOf x fs /\ Forall P fs) ->
  reachable (fst (fold_left aggregate xs st)) /\
  framesWithin P (fst (fold_left aggregate xs st)).
Proof.
  revert st. induction xs as [|x xs IH]; intros [pb sampleMap] Hr Hw Hxs; simpl; [done|].
  destruct (Hxs x) as (fs & Hx & Hfs); [by left|].
  destruct (aggregate_within P pb sampleMap x fs Hr Hw Hx Hfs) as [Hr' Hw'].
  apply IH; [done..|]. intros x' Hx'. apply Hxs. by right.
Qed.

(** The key of every sample aggregated is a key of the sample map. *)
Lemma aggregate_dom st x key :
  is_Some (snd st !! key) \/ key = sampleKey (stackSample_stack x) ->
  is_Some (snd (aggregate st x) !! key).
Proof.
  destruct st as [pb sampleMap]. unfold aggregate. simpl.
  destruct (sampleMap !! sampleKey (stackSample_stack x)) as [existing|] eqn:Hk.
  - simpl. intros [Hs| ->]; [|by rewrite lookup_insert_eq].
    destruct (decide (sampleKey (stackSample_stack x) = key)) as [<-|Hne];
      [by rewrite lookup_insert_eq | by rewrite lookup_insert_ne].
  - destruct (buildLocationIds pb _ _) as [locationIds pb1]. simpl.
    intros [Hs| ->]; [|by rewrite lookup_insert_eq].
    destruct (decide (sampleKey (stackSample_stack x) = key)) as [<-|Hne];
      [by rewrite lookup_insert_eq | by rewrite lookup_insert_ne].
Qed.

Lemma fold_aggregate_dom xs st key :
  is_Some (snd st !! key) \/ (exists x, In x xs /\ key = sampleKey (stackSample_stack x)) ->
  is_Some (snd (fold_left aggregate xs st) !! key).
Proof.
  revert st. induction xs as [|x xs IH]; intros st; simpl.
  - intros [Hs|(x & [] & _)]. done.
  - intros [Hs|(x' & [<-|Hin] & ->)]; apply IH.
    + left. apply aggregate_dom. by left.
    + left. apply aggregate_dom. by right.
    + right. by exists x'.
Qed.

End Within.

Section PlainTraces.

Variable sort_Slice :
  (eventWithEnd -> eventWithEnd -> bool) -> list eventWithEnd -> list eventWithEnd.

Hypothesis sort_Slice_Permutation : forall less l, sort_Slice less l ≡ₚ l.

Variable sched : list nat.

(** The frames of every sample received are frames of events that were
    kept. *)
Lemma received_chain (P : frame -> Prop) traceData x :
  (forall e, In e (TraceEvents traceData) -> skipped e = false -> P (Name e, Cat e)) ->
  In x (received sort_Slice sched traceData) ->
  exists fs, framesOf x fs /\ Forall P fs.
Proof.
  unfold received. intros HP Hx.
  apply (Permutation_in _ (interleave_Permutation _ _)), in_concat in Hx
    as (l & Hl & Hx).
  unfold workerOutputs in Hl. apply in_map_iff in Hl as ([tid events] & <- & Hte).
  apply list_elem_of_In, elem_of_map_to_list in Hte.
  unfold sortedThreads in Hte. apply lookup_fmap_Some in Hte as (threadEvents & <- & Hgroup).
  apply (processEvents_chain P [] (sort_Slice lessTs threadEvents) x);
    [constructor| |exact Hx].
  apply Forall_forall. intros e He%list_elem_of_In.
  apply (Permutation_in _ (sort_Slice_Permutation _ _)) in He.
  destruct (groupByThread_elem _ _ _ _ Hgroup He) as [Hin Hskip].
  by apply HP.
Qed.

(** Every event that is kept is the leaf of a sample received. *)
Lemma received_leaf traceData e :
  In e (TraceEvents traceData) -> skipped e = false ->
  exists x ancestors,
    In x (received sort_Slice sched traceData) /\
    framesOf x (ancestors ++ [(Name e, Cat e)]).
Proof.
  intros Hin Hskip.
  destruct (groupByThread_kept _ _ Hin Hskip) as (l & Hl & He).
  apply (Permutation_in _ (Permutation_sym (sort_Slice_Permutation lessTs l))) in He.
  destruct (processEvents_leaf [] _ _ He) as (x & ancestors & Hx & Hf).
  exists x, ancestors. split; [|exact Hf].
  unfold received.
  apply (Permutation_in _ (Permutation_sym (interleave_Permutation _ _))).
  apply in_concat. exists (ProcessThreadEvents (sort_Slice lessTs l)).
  split; [|exact Hx].
  unfold workerOutputs. apply in_map_iff.
  exists (getTid (Tid e), sort_Slice lessTs l). split; [done|].
  apply list_elem_of_In, elem_of_map_to_list.
  unfold sortedThreads. by rewrite lookup_fmap, Hl.
Qed.

(** C4 (as amended).  In a trace whose kept events have no NUL in their
    names and no semicolon in their categories, two samples received have
    the same key of the sample map exactly when their chains of (name,
    category) pairs are the same; and the entry of the sample map under the
    key of a chain is the tally of exactly the samples received with that
    chain: there is none when no sample has the chain, and otherwise its
    count is their number and its duration their total. *)
Theorem C4_merge_by_chain traceData :
  plainTrace traceData ->
  (forall x1 x2,
     In x1 (received sort_Slice sched traceData) ->
     In x2 (received sort_Slice sched traceData) ->
     (sampleKey (stackSample_stack x1) = sampleKey (stackSample_stack x2) <->
      chainOf x1 = chainOf x2)) /\
  (forall fs,
     Forall plainFrame fs ->
     let same :=
       List.filter (fun x => bool_decide (chainOf x = fs))
         (received sort_Slice sched traceData) in
     let entry := content (snd (aggregated sort_Slice sched traceData)) !! chainKey fs in
     entry = fold_left bump (map stackSample_timeNs same) None /\
     match entry with
     | None => same = []
     | Some (n, t) =>
         same <> [] /\ n = int64 (Z.of_nat (length same)) /\
         int64 t = int64 (sumZ (map stackSample_timeNs same))
     end).
Proof.
  intros Hplain. split.
  { intros x1 x2 Hx1 Hx2.
    destruct (received_chain plainFrame traceData x1 Hplain Hx1) as (fs1 & Hf1 & Hp1).
    destruct (received_chain plainFrame traceData x2 Hplain Hx2) as (fs2 & Hf2 & Hp2).
    rewrite (framesOf_key _ _ Hf1), (framesOf_key _ _ Hf2).
    rewrite (framesOf_chainOf _ _ Hf1), (framesOf_chainOf _ _ Hf2).
    split; [by apply chainKey_inj | by intros ->]. }
  intros fs Hfs same entry.
  assert (entry = fold_left bump (map stackSample_timeNs same) None) as E.
  { unfold entry, aggregated. rewrite fold_aggregate_content, fold_tally_lookup.
    simpl. unfold content. rewrite fmap_empty, lookup_empty.
    rewrite filter_map, map_map. simpl. f_equal. f_equal. unfold same.
    apply filter_ext_in. intros x Hx.
    destruct (received_chain plainFrame traceData x Hplain Hx) as (fs' & Hf & Hp).
    rewrite (framesOf_key _ _ Hf), (framesOf_chainOf _ _ Hf).
    apply bool_decide_ext. split; [by apply chainKey_inj | by intros ->]. }
  split; [exact E|]. rewrite E.
  pose proof (fold_bump_None (map stackSample_timeNs same)) as H.
  destruct (fold_left bump (map stackSample_timeNs same) None) as [[n t]|].
  - rewrite length_map in H. destruct H as (Hne & ? & ?).
    split_and!; try done. intros Hnil. by rewrite Hnil in Hne.
  - by apply map_eq_nil in H.
Qed.

Lemma append_samples_profile (l : list (string * sampleData)) pb :
  Builder_profile
    (fold_left
       (fun pb ks =>
          with_profile pb
            (with_Sample (Builder_profile pb)
               (Profile_Sample (Builder_profile pb) ++ [toSample (snd ks)])))
       l pb) =
  with_Sample (Builder_profile pb)
    (Profile_Sample (Builder_profile pb) ++ map (fun ks => toSample (snd ks)) l).
Proof.
  revert pb. induction l as [|ks l IH]; intros pb; simpl.
  - rewrite app_nil_r. by destruct (Builder_profile pb).
  - rewrite IH. simpl. unfold with_Sample. simpl. by rewrite <- app_assoc.
Qed.

(** The profile returned is the Builder's after the aggregation, with the
    samples put in. *)
Lemma ConvertTrace_profile traceData :
  exists samples,
    ConvertTrace sort_Slice sched traceData =
    with_Sample (Build (fst (aggregated sort_Slice sched traceData))) samples.
Proof.
  unfold ConvertTrace.
  destruct (aggregated sort_Slice sched traceData) as [pb sampleMap].
  unfold Build. rewrite append_samples_profile. by eexists.
Qed.

(** C2 (as amended).  In a trace whose kept events have no NUL in their
    names and no semicolon in their categories, whatever the number of
    events and threads and whatever the schedule of the workers: for every
    event that is kept, the profile holds a Function with the name and the
    category of the event as its name and file name, and no other such
    Function; and a Location whose line refers to such a Function, and no
    other such Location. *)
Theorem C2_every_pair_once traceData e :
  plainTrace traceData ->
  In e (TraceEvents traceData) -> skipped e = false ->
  let p := ConvertTrace sort_Slice sched traceData in
  (exists (k : nat) fn,
     Profile_Function p !! k = Some fn /\
     functionFrame p fn = Some (Name e, Cat e) /\
     forall (k' : nat) fn',
       Profile_Function p !! k' = Some fn' ->
       functionFrame p fn' = Some (Name e, Cat e) -> k' = k) /\
  (exists (k : nat) loc,
     Profile_Location p !! k = Some loc /\
     locationFrame p loc = Some (Name e, Cat e) /\
     forall (k' : nat) loc',
       Profile_Location p !! k' = Some loc' ->
       locationFrame p loc' = Some (Name e, Cat e) -> k' = k).
Proof.
  intros Hplain Hin Hskip p.
  destruct (ConvertTrace_profile traceData) as (samples & Hp).
  set (pb := fst (aggregated sort_Slice sched traceData)) in *.
  assert (forall fn, functionFrame p fn = functionFrame (Build pb) fn) as Hff
    by (intros fn; unfold p; by rewrite Hp).
  assert (forall loc, locationFrame p loc = locationFrame (Build pb) loc) as Hlf
    by (intros loc; unfold p; by rewrite Hp).
  assert (Profile_Function p = functions pb) as Hfs by (unfold p; by rewrite Hp).
  assert (Profile_Location p = locations pb) as Hls by (unfold p; by rewrite Hp).
  rewrite Hfs, Hls. setoid_rewrite Hff. setoid_rewrite Hlf.
  clearbody p. clear Hp Hff Hlf Hfs Hls p samples.
  (* the Builder after the aggregation *)
  destruct (aggregated_resolved sort_Slice sched traceData) as [Hr Hres].
  fold pb in Hr.
  destruct (fold_aggregate_within (fun f => hasChar nul (fst f) = false)
              (received sort_Slice sched traceData) (initialBuilder, ∅))
    as [_ Hw].
  { apply initialBuilder_reachable. }
  { intros k fn f Hk. vm_compute in Hk. by destruct k. }
  { intros x Hx.
    destruct (received_chain plainFrame traceData x Hplain Hx) as (fs & Hf & Hp).
    exists fs. split; [done|]. eapply Forall_impl; [exact Hp|]. by intros f [? _]. }
  fold (aggregated sort_Slice sched traceData) in Hw. fold pb in Hw.
  pose proof (reachable_invariant _ Hr) as (_ & Hfd & Hld & _).
  destruct (reachable_keyed _ Hr) as [[F1 F2] [L1 L2]].
  (* the sample of the event and the entry of its key *)
  destruct (received_leaf traceData e Hin Hskip) as (x & ancestors & Hx & Hf).
  destruct (fold_aggregate_dom (received sort_Slice sched traceData) (initialBuilder, ∅)
              (sampleKey (stackSample_stack x))) as [d Hd].
  { right. by exists x. }
  fold (aggregated sort_Slice sched traceData) in Hd.
  destruct (Hres _ _ Hd) as (x' & anc' & leaf' & ids & lid & Hx' & Hkey & Hf' & _ & Hh & _).
  apply list_elem_of_In in Hx'.
  destruct (received_chain plainFrame traceData x Hplain Hx) as (fs & Hfx & Hpx).
  destruct (received_chain plainFrame traceData x' Hplain Hx') as (fs' & Hfx' & Hpx').
  pose proof (framesOf_chainOf _ _ Hf) as Hc1. pose proof (framesOf_chainOf _ _ Hfx) as Hc2.
  pose proof (framesOf_chainOf _ _ Hf') as Hc3. pose proof (framesOf_chainOf _ _ Hfx') as Hc4.
  rewrite (framesOf_key _ _ Hfx), (framesOf_key _ _ Hfx') in Hkey.
  apply chainKey_inj in Hkey; [|done..].
  assert (leaf' = (Name e, Cat e)) as ->.
  { assert (anc' ++ [leaf'] = ancestors ++ [(Name e, Cat e)]) as Happ by congruence.
    by apply app_inj_tail in Happ as [_ ?]. }
  fold pb in Hh. unfold handleOf in Hh. simpl in Hh.
  (* the Location of the key, and its Function *)
  destruct (L2 _ _ Hh) as (k & loc & f & -> & Hk & Hloc & Hkf).
  assert (exists (j : nat) fn, functions pb !! j = Some fn /\
                               functionFrame (Build pb) fn = Some f) as (j & fn & Hj & Hfn).
  { unfold locationFrame in Hloc. destruct (Location_Line loc) as [|line ?]; [done|].
    destruct (findFunction (Build pb) (Line_FunctionId line)) as [fn|] eqn:Hfind; [|done].
    apply findFunction_lookup in Hfind as (j & Hj & _). by exists j, fn. }
  assert (f = (Name e, Cat e)) as ->.
  { destruct (Hplain e Hin Hskip) as [Hn _]. simpl in Hn.
    pose proof (Hw _ _ _ Hj Hfn) as Hnf. simpl in Hnf.
    destruct f as [n c]. unfold keyOf in Hkf. simpl in *.
    by destruct (indexKey_inj _ _ _ _ Hnf Hn Hkf) as [-> ->]. }
  split.
  - exists j, fn. split_and!; try done. intros j' fn' Hj' Hfn'.
    destruct (F1 _ _ Hj) as (f1 & Hf1 & Hi1), (F1 _ _ Hj') as (f2 & Hf2 & Hi2).
    rewrite Hfn in Hf1. rewrite Hfn' in Hf2. injection Hf1 as <-. injection Hf2 as <-.
    rewrite Hi1 in Hi2. injection Hi2. lia.
  - exists k, loc. split_and!; try done. intros k' loc' Hk' Hloc'.
    destruct (L1 _ _ Hk') as (f2 & Hf2 & Hi2).
    rewrite Hloc' in Hf2. injection Hf2 as <-.
    unfold keyOf in Hi2. simpl in Hi2. rewrite Hh in Hi2. injection Hi2. lia.
Qed.

End PlainTraces.

(** * The stacks of a profile, whatever the schedule *)

Section ResolvedStacks.

Implicit Types (pb : Builder) (f : frame).

(** The handle of a frame resolves to the frame, in a Builder whose frames
    have no NUL in their names. *)
Lemma handle_resolves pb f id :
  reachable pb ->
  framesWithin (fun f' => hasChar nul (fst f') = false) pb ->
  hasChar nul (fst f) = false ->
  handleOf pb f id -> resolveFrame (Build pb) id = Some f.
Proof.
  intros Hr Hw Hf Hh.
  pose proof (reachable_invariant _ Hr) as (_ & _ & Hld & _).
  destruct (reachable_keyed _ Hr) as [_ [_ L2]].
  destruct (L2 _ _ Hh) as (k & loc & f' & -> & Hk & Hlf & Hkey).
  unfold resolveFrame. rewrite (findLocation_dense pb k loc Hld Hk), Hlf. f_equal.
  assert (hasChar nul (fst f') = false) as Hf'.
  { unfold locationFrame in Hlf. destruct (Location_Line loc) as [|line ?]; [done|].
    destruct (findFunction (Build pb) (Line_FunctionId line)) as [fn|] eqn:Hfind; [|done].
    apply findFunction_lookup in Hfind as (j & Hj & _). by eapply Hw. }
  destruct f as [n c], f' as [n' c']. unfold keyOf in Hkey. simpl in *.
  by destruct (indexKey_inj _ _ _ _ Hf' Hf Hkey) as [-> ->].
Qed.

Lemma handles_resolve pb fs ids :
  reachable pb ->
  framesWithin (fun f' => hasChar nul (fst f') = false) pb ->
  Forall plainFrame fs ->
  Forall2 (handleOf pb) fs ids ->
  map (resolveFrame (Build pb)) ids = map Some fs.
Proof.
  intros Hr Hw Hp Hh. induction Hh as [|f id fs ids Hf _ IH]; [done|].
  apply Forall_cons in Hp as [[Hn _] Hp]. simpl.
  by rewrite (handle_resolves pb f id Hr Hw Hn Hf), IH.
Qed.

End ResolvedStacks.

Section ScheduleIndependence.

Variable sort_Slice :
  (eventWithEnd -> eventWithEnd -> bool) -> list eventWithEnd -> list eventWithEnd.

Hypothesis sort_Slice_Permutation : forall less l, sort_Slice less l ≡ₚ l.

(** In a plain trace, the key of an entry of the sample map is the key of
    one chain of frames, and the location ids of the entry resolve to that
    chain, leaf first. *)
Lemma entry_resolves sched traceData key d :
  plainTrace traceData ->
  snd (aggregated sort_Slice sched traceData) !! key = Some d ->
  exists fs,
    Forall plainFrame fs /\ key = chainKey fs /\
    map (resolveFrame (ConvertTrace sort_Slice sched traceData))
      (sampleData_locationIds d) = map Some (rev fs).
Proof.
  intros Hplain Hd.
  destruct (aggregated_resolved sort_Slice sched traceData) as [Hr Hres].
  destruct (fold_aggregate_within (fun f => hasChar nul (fst f) = false)
              (received sort_Slice sched traceData) (initialBuilder, ∅))
    as [_ Hw].
  { apply initialBuilder_reachable. }
  { intros k fn f Hk. vm_compute in Hk. by destruct k. }
  { intros x Hx.
    destruct (received_chain sort_Slice sort_Slice_Permutation sched plainFrame
                traceData x Hplain Hx) as (fs & Hf & Hp).
    exists fs. split; [done|]. eapply Forall_impl; [exact Hp|]. by intros f [? _]. }
  fold (aggregated sort_Slice sched traceData) in Hw.
  destruct (Hres _ _ Hd) as (x & ancestors & leaf & ids & lid & Hx & Hkey & Hf & Hids & Hl & Ha).
  apply list_elem_of_In in Hx.
  destruct (received_chain sort_Slice sort_Slice_Permutation sched plainFrame
              traceData x Hplain Hx) as (fs & Hfx & Hp).
  rewrite <- (framesOf_chainOf _ _ Hfx), (framesOf_chainOf _ _ Hf) in Hp.
  exists (ancestors ++ [leaf]). split; [done|]. split.
  { rewrite <- Hkey. by apply framesOf_key. }
  destruct (ConvertTrace_profile sort_Slice sched traceData) as (samples & Hprofile).
  rewrite Hprofile.
  change (resolveFrame (with_Sample ?p samples)) with (resolveFrame p).
  apply Forall_app in Hp as [Hpa Hpl]. apply Forall_cons in Hpl as [[Hnl _] _].
  rewrite Hids, rev_app_distr. simpl. f_equal.
  - by apply handle_resolves.
  - rewrite !map_rev. f_equal. by apply handles_resolve.
Qed.

(** Two lists of entries with the same keys and values in the same places
    are read alike by readers that agree at every such pair of entries. *)
Lemma map_entries_ext {B} (g1 g2 : string * sampleData -> B)
    (l1 l2 : list (string * sampleData)) :
  map (prod_map id entryValue) l1 = map (prod_map id entryValue) l2 ->
  (forall k d1 d2, In (k, d1) l1 -> In (k, d2) l2 -> entryValue d1 = entryValue d2 ->
                   g1 (k, d1) = g2 (k, d2)) ->
  map g1 l1 = map g2 l2.
Proof.
  revert l2. induction l1 as [|[k1 d1] l1 IH]; intros [|[k2 d2] l2]; cbn [map]; try done.
  intros Heq Hg.
  pose proof (f_equal (fun l => fst <$> head l) Heq) as Hk.
  pose proof (f_equal (fun l => snd <$> head l) Heq) as Hv.
  pose proof (f_equal (@tail _) Heq) as E.
  cbn in Hk, Hv, E. injection Hk as ->. apply (inj Some) in Hv. f_equal.
  - apply Hg; [by left | by left | done].
  - apply IH; [done|]. intros k d d' H1 H2. apply Hg; by right.
Qed.

(** C9 (as amended).  Whatever order [sort.Slice] leaves the events of a
    thread in, events of equal start included, two schedules of the workers
    give the same content.  For every trace, the sample map holds the same
    (count, total duration) under the same keys, and the profiles hold the
    same multiset of value vectors.  For a trace whose kept events have no
    NUL in their names and no semicolon in their categories, the profiles
    hold the same multiset of pairs of a stack, as the frames its location
    ids resolve to, and its (count, total duration). *)
Theorem C9_schedule_independent sched1 sched2 traceData :
  (content (snd (aggregated sort_Slice sched1 traceData)) =
   content (snd (aggregated sort_Slice sched2 traceData)) /\
   map Sample_Value (Profile_Sample (ConvertTrace sort_Slice sched1 traceData)) ≡ₚ
   map Sample_Value (Profile_Sample (ConvertTrace sort_Slice sched2 traceData))) /\
  (plainTrace traceData ->
   resolvedContent (ConvertTrace sort_Slice sched1 traceData) ≡ₚ
   resolvedContent (ConvertTrace sort_Slice sched2 traceData)).
Proof.
  split; [apply content_schedule_independent|]. intros Hplain.
  destruct (content_schedule_independent sort_Slice sched1 sched2 traceData) as [Hc _].
  unfold resolvedContent. rewrite !ConvertTrace_samples, !map_map.
  apply (f_equal map_to_list) in Hc. unfold content in Hc.
  rewrite !map_to_list_fmap in Hc.
  rewrite (map_entries_ext _
             (fun ks => (map (resolveFrame (ConvertTrace sort_Slice sched2 traceData))
                           (Sample_LocationId (toSample (snd ks))),
                         Sample_Value (toSample (snd ks))))
             _ _ Hc); [done|].
  intros k d1 d2 H1 H2 Hv. simpl.
  apply list_elem_of_In, elem_of_map_to_list in H1.
  apply list_elem_of_In, elem_of_map_to_list in H2.
  destruct (entry_resolves _ _ _ _ Hplain H1) as (fs1 & Hp1 & Hk1 & ->).
  destruct (entry_resolves _ _ _ _ Hplain H2) as (fs2 & Hp2 & Hk2 & ->).
  rewrite Hk1 in Hk2. apply chainKey_inj in Hk2; [|done..]. subst fs2.
  injection Hv as -> ->. done.
Qed.

End ScheduleIndependence.

(** * Example traces *)

Definition completeEvent (name cat : string) (tid : Z) (ts dur : float) : TraceEvent :=
  {| Ph := "X"; Cat := cat; Name := name; Tid := TidInt tid; Ts := ts; Dur := dur |}.

Definition withEnd (e : TraceEvent) : eventWithEnd :=
  {| Event := e; End_ := (Ts e + Dur e)%float |}.

(** The trace of [TestConvertTrace], with the three events
    [TestConvertTrace_FilteredEvents] expects to be dropped. *)
Definition testTrace : TraceData :=
  {| TraceEvents :=
       [ completeEvent "op1" "cat1" 1 100 50;
         completeEvent "op2" "cat1" 1 110 30;
         completeEvent "op3" "cat2" 2 200 20;
         {| Ph := "B"; Cat := "cat1"; Name := "op1"; Tid := TidInt 1; Ts := 100; Dur := 50 |};
         completeEvent "op2" "cat1" 1 200 0;
         completeEvent "op3" "cat1" 1 300 (-1) ] |}.

(** One thread: [A] holds [C] and then [B]. *)
Definition eventA : eventWithEnd := withEnd (completeEvent "A" "c" 1 0 100).
Definition eventC : eventWithEnd := withEnd (completeEvent "C" "c" 1 10 10).
Definition eventB : eventWithEnd := withEnd (completeEvent "B" "c" 1 30 10).

Definition nestedThread : list eventWithEnd := [eventA; eventC; eventB].

(** One thread, properly nested, with two events of the same start: [X] of
    50 microseconds comes before [Y] of 100, and [B] lies within both. *)
Definition tieX : eventWithEnd := withEnd (completeEvent "X" "c" 1 0 50).
Definition tieY : eventWithEnd := withEnd (completeEvent "Y" "c" 1 0 100).
Definition tieB : eventWithEnd := withEnd (completeEvent "B" "c" 1 10 10).

Definition tieThread : list eventWithEnd := [tieX; tieY; tieB].

(** Two threads; the two events of the first start together. *)
Definition tieTrace : TraceData :=
  {| TraceEvents :=
       [ completeEvent "X" "c" 1 0 50;
         completeEvent "Y" "c" 1 0 100;
         completeEvent "Z" "c" 2 0 10 ] |}.

(** One thread: [N], whose duration is NaN, starts within [A] and before
    [B]. *)
Definition eventN : eventWithEnd := withEnd (completeEvent "N" "c" 1 5 nan).

Definition nanThread : list eventWithEnd := [eventA; eventN; eventB].

(** One event, of a duration that is NaN. *)
Definition nanTrace : TraceData :=
  {| TraceEvents := [ completeEvent "op" "cat" 1 0 nan ] |}.

(** One thread, the same operation twice, one run after the other, each of
    9e15 microseconds: 9e18 nanoseconds, which an [int64] holds once but
    not twice. *)
Definition bigTrace : TraceData :=
  {| TraceEvents :=
       [ completeEvent "op" "cat" 1 0 9000000000000000;
         completeEvent "op" "cat" 1 9000000000000000 9000000000000000 ] |}.

(** A category that holds both separators: the one-frame stack of [a] in
    this category has the key of the two-frame stack [a/x; b/y]. *)
Definition oddCategory : string := "x;b" +:+ NUL +:+ "y".

(** One thread: the odd event, then [a/x] with [b/y] inside. *)
Definition collisionTrace : TraceData :=
  {| TraceEvents :=
       [ completeEvent "a" oddCategory 1 0 1;
         completeEvent "a" "x" 1 5 10;
         completeEvent "b" "y" 1 6 2 ] |}.

(** The same events with the odd one on a thread of its own. *)
Definition raceTrace : TraceData :=
  {| TraceEvents :=
       [ completeEvent "a" oddCategory 1 0 1;
         completeEvent "a" "x" 2 5 10;
         completeEvent "b" "y" 2 6 2 ] |}.

(** * The claims on the conversion, at the example traces *)

Section Examples.

Open Scope string_scope.

Lemma C1_witness :
  let samples := Profile_Sample (ConvertTrace insertionSort [1%nat] testTrace) in
  let events := List.filter (fun e => negb (skipped e)) (TraceEvents testTrace) in
  sumInt64 (map sampleDuration samples) = sumInt64 (map durationNs events) /\
  (Forall (fun e => is_nan (Dur e) = false) (TraceEvents testTrace) ->
   events = List.filter positiveComplete (TraceEvents testTrace)) /\
  (Forall (fun e => 0 <= durationNs e) events ->
   sumZ (map durationNs events) < 2 ^ 63 ->
   sumZ (map sampleDuration samples) = sumZ (map durationNs events)).
Proof.
  exact (C1_total_duration insertionSort
           (fun less l => insertionSort_Permutation less l) [1%nat] testTrace).
Defined.

(** C1 as stated fails on two counts.  The two runs of [bigTrace] have
    durations above zero and are merged into one sample, whose duration
    wraps around: the samples add up to a negative number, the events to
    18e18.  And the event of [nanTrace] is kept, since [NaN <= 0] is false,
    though its duration is not above zero: the samples add up to
    [int64(NaN)], the events of a duration above zero to nothing. *)
Lemma C1_counterexample :
  (Forall (fun e => is_nan (Dur e) = false) (TraceEvents bigTrace) /\
   List.filter positiveComplete (TraceEvents bigTrace) = TraceEvents bigTrace /\
   map durationNs (TraceEvents bigTrace) = [9000000000000000000; 9000000000000000000] /\
   Profile_Sample (ConvertTrace insertionSort [] bigTrace) =
     [ {| Sample_LocationId := [1]; Sample_Value := [2; -446744073709551616] |} ]) /\
  (List.filter positiveComplete (TraceEvents nanTrace) = [] /\
   List.filter (fun e => negb (skipped e)) (TraceEvents nanTrace) = TraceEvents nanTrace /\
   Profile_Sample (ConvertTrace insertionSort [] nanTrace) =
     [ {| Sample_LocationId := [1]; Sample_Value := [1; - 2 ^ 63] |} ]).
Proof. split; split_and!; try (vm_compute; reflexivity). repeat constructor. Qed.

(** Both sides of C1 at the test trace: 50 + 30 + 20 microseconds. *)
Example C1_testTrace :
  sumInt64 (map sampleDuration
              (Profile_Sample (ConvertTrace insertionSort [1%nat] testTrace))) = 100000.
Proof. vm_compute. reflexivity. Qed.

Lemma C3_witness :
  exists sA sB,
    ProcessThreadEvents nestedThread !! 0%nat = Some sA /\
    ProcessThreadEvents nestedThread !! 2%nat = Some sB /\
    stackSample_names sB = (stackSample_names sA ++ ["B"])%list /\
    stackSample_cats sB = (stackSample_cats sA ++ ["c"])%list /\
    stackSample_stack sB = (stackSample_stack sA ++ [frameKey "B" "c"])%list.
Proof.
  eexists _, _. split; [reflexivity|]. split; [reflexivity|].
  apply (C3_child_extends_parent [] eventA [eventC] eventB []).
  - repeat constructor.
  - reflexivity.
  - reflexivity.
  - repeat constructor.
  - reflexivity.
  - reflexivity.
Defined.

(** C3 as stated fails when two events start together.  The thread is
    properly nested and starts in order; [B] lies within the interval of
    [X], and every other event that contains [B] contains [X] too, so [X]
    is the innermost event around [B]; yet the sample of [B] is [Y; B], not
    the stack [X] of [X] followed by [B].  It fails as well when an event
    between the two has no end: in [nanThread], which starts in order and
    is properly nested, [B] lies within [A], and [N], which does not contain
    [B], empties the stack, so that the sample of [B] is [B] alone. *)
Lemma C3_counterexample :
  (startsInOrder tieThread /\
   endsAfterStart tieThread /\
   properlyNested tieThread = true /\
   contains tieX tieB = true /\
   (forall e, In e tieThread -> contains e tieB = true ->
              e = tieB \/ contains e tieX = true) /\
   exists sX sB,
     ProcessThreadEvents tieThread !! 0%nat = Some sX /\
     ProcessThreadEvents tieThread !! 2%nat = Some sB /\
     stackSample_names sX = ["X"] /\
     stackSample_names sB = ["Y"; "B"] /\
     stackSample_names sB <> (stackSample_names sX ++ ["B"])%list) /\
  (startsInOrder nanThread /\
   properlyNested nanThread = true /\
   contains eventA eventB = true /\
   contains eventN eventB = false /\
   is_nan (End_ eventN) = true /\
   exists sA sB,
     ProcessThreadEvents nanThread !! 0%nat = Some sA /\
     ProcessThreadEvents nanThread !! 2%nat = Some sB /\
     stackSample_names sA = ["A"] /\
     stackSample_names sB = ["B"] /\
     stackSample_names sB <> (stackSample_names sA ++ ["B"])%list).
Proof.
  split.
  - split; [repeat constructor|]. split; [repeat constructor|].
    split; [reflexivity|]. split; [reflexivity|]. split.
    + intros e [<-|[<-|[<-|[]]]] _; [by right | by right | by left].
    + eexists _, _. split; [reflexivity|]. split; [reflexivity|].
      split; [reflexivity|]. split; [reflexivity|]. discriminate.
  - split; [repeat constructor|]. split; [reflexivity|].
    split; [reflexivity|]. split; [reflexivity|]. split; [reflexivity|].
    eexists _, _. split; [reflexivity|]. split; [reflexivity|].
    split; [reflexivity|]. split; [reflexivity|]. discriminate.
Qed.

(** The key of the sample map on which the two stacks of the collision
    traces meet. *)
Definition sharedKey : string := "a" +:+ NUL +:+ "x;b" +:+ NUL +:+ "y;".

(** C4 as stated fails.  The thread sends three samples; the first has
    the one frame [a] of the odd category, the third the two frames [a/x]
    and [b/y]; both have the same key, so the third only adds to the entry
    of the first: one sample of count 2 that resolves to the frame of the
    first. *)
Lemma C4_distinct_stacks_merged :
  map (fun x => (stackSample_names x, stackSample_cats x,
                 sampleKey (stackSample_stack x)))
    (received insertionSort [] collisionTrace) =
  [ (["a"], [oddCategory], sharedKey);
    (["a"], ["x"], "a" +:+ NUL +:+ "x;");
    (["a"; "b"], ["x"; "y"], sharedKey) ] /\
  resolvedContent (ConvertTrace insertionSort [] collisionTrace) ≡ₚ
  [ ([Some ("a", oddCategory)], [2; 3000]);
    ([Some ("a", "x")], [1; 10000]) ].
Proof. split; vm_compute; reflexivity. Qed.

(** C2 as stated fails.  The event [b/y] is kept, but its stack is
    merged into the entry of another stack and never resolved: the profile
    holds two Functions and two Locations, none of them for [b/y], and the
    location index has no entry for it. *)
Lemma C2_pair_without_location :
  let p := ConvertTrace insertionSort [] collisionTrace in
  In (completeEvent "b" "y" 1 6 2) (TraceEvents collisionTrace) /\
  skipped (completeEvent "b" "y" 1 6 2) = false /\
  map (functionFrame p) (Profile_Function p) = [Some ("a", oddCategory); Some ("a", "x")] /\
  map (fun loc => resolveFrame p (Location_Id loc)) (Profile_Location p) =
    [Some ("a", oddCategory); Some ("a", "x")] /\
  locationIndex (fst (aggregated insertionSort [] collisionTrace)) !! indexKey "b" "y" = None /\
  functionIndex (fst (aggregated insertionSort [] collisionTrace)) !! indexKey "b" "y" = None.
Proof.
  split; [right; right; by left|].
  split_and!; vm_compute; reflexivity.
Qed.

Lemma testTrace_plain : plainTrace testTrace.
Proof.
  intros e [<-|[<-|[<-|[<-|[<-|[<-|[]]]]]]] Hs;
    first [discriminate Hs | split; reflexivity].
Qed.

Lemma C2_witness :
  let e := completeEvent "op2" "cat1" 1 110 30 in
  let p := ConvertTrace insertionSort [1%nat] testTrace in
  (exists (k : nat) fn,
     Profile_Function p !! k = Some fn /\
     functionFrame p fn = Some (Name e, Cat e) /\
     forall (k' : nat) fn',
       Profile_Function p !! k' = Some fn' ->
       functionFrame p fn' = Some (Name e, Cat e) -> k' = k) /\
  (exists (k : nat) loc,
     Profile_Location p !! k = Some loc /\
     locationFrame p loc = Some (Name e, Cat e) /\
     forall (k' : nat) loc',
       Profile_Location p !! k' = Some loc' ->
       locationFrame p loc' = Some (Name e, Cat e) -> k' = k).
Proof.
  apply (C2_every_pair_once insertionSort
           (fun less l => insertionSort_Permutation less l) [1%nat] testTrace
           (completeEvent "op2" "cat1" 1 110 30) testTrace_plain).
  - right. left. reflexivity.
  - reflexivity.
Defined.

Lemma C4_witness :
  let fs := [("op1", "cat1"); ("op2", "cat1")] in
  let same :=
    List.filter (fun x => bool_decide (chainOf x = fs))
      (received insertionSort [1%nat] testTrace) in
  let entry := content (snd (aggregated insertionSort [1%nat] testTrace)) !! chainKey fs in
  entry = fold_left bump (map stackSample_timeNs same) None /\
  match entry with
  | None => same = []
  | Some (n, t) =>
      same <> [] /\ n = int64 (Z.of_nat (length same)) /\
      int64 t = int64 (sumZ (map stackSample_timeNs same))
  end.
Proof.
  apply (proj2 (C4_merge_by_chain insertionSort
                  (fun less l => insertionSort_Permutation less l) [1%nat] testTrace
                  testTrace_plain)).
  repeat constructor.
Defined.

Lemma builder_deduplicates_witness :
  exists loc f,
    findLocation (Build (shared raceEnd)) 1 = Some loc /\
    locationFrame (Build (shared raceEnd)) loc = Some f /\
    keyOf f = indexKey "op" "cat".
Proof.
  apply (proj2 (proj2 (proj2 (proj2 (proj2 (proj2
           (builder_deduplicates raceStart raceEnd reachable_NewBuilder eq_refl
              race_steps)))))) "op" "cat" 1).
  apply list_elem_of_In. left. reflexivity.
Defined.

Lemma C7_witness :
  exists x ancestors leaf ids lid,
    x ∈ received insertionSort [1%nat] testTrace /\
    framesOf x (ancestors ++ [leaf])%list /\
    [3; 1] = lid :: rev ids /\
    handleOf (fst (aggregated insertionSort [1%nat] testTrace)) leaf lid /\
    Forall2 (handleOf (fst (aggregated insertionSort [1%nat] testTrace))) ancestors ids.
Proof.
  apply (proj1 (C7_leaf_first insertionSort [1%nat] testTrace)
           {| Sample_LocationId := [3; 1]; Sample_Value := [1; 30000] |}).
  apply list_elem_of_In. vm_compute. right. left. reflexivity.
Defined.

Lemma raceTrace_first_schedule :
  resolvedContent (ConvertTrace insertionSort [0%nat] raceTrace) =
  [ ([Some ("b", "y"); Some ("a", "x")], [2; 3000]);
    ([Some ("a", "x")], [1; 10000]) ].
Proof. vm_compute. reflexivity. Qed.

Lemma raceTrace_second_schedule :
  resolvedContent (ConvertTrace insertionSort [1%nat; 1%nat] raceTrace) =
  [ ([Some ("a", oddCategory)], [2; 3000]);
    ([Some ("a", "x")], [1; 10000]) ].
Proof. vm_compute. reflexivity. Qed.

(** With a NaN among the starts, [<] is no ordering of them and the sort
    promises nothing: the insertion sort leaves 5, NaN, 3 as they are. *)
Example insertionSort_NaN :
  map (fun a => Name (Event a))
    (insertionSort lessTs
       [ withEnd (completeEvent "e0" "c" 1 5 1);
         withEnd (completeEvent "e1" "c" 1 nan 1);
         withEnd (completeEvent "e2" "c" 1 3 1) ]) = ["e0"; "e1"; "e2"].
Proof. vm_compute. reflexivity. Qed.

Lemma tieTrace_plain : plainTrace tieTrace.
Proof.
  intros e [<-|[<-|[<-|[]]]] Hs; split; reflexivity.
Qed.

Lemma C9_witness :
  content (snd (aggregated insertionSort [0%nat] tieTrace)) =
  content (snd (aggregated insertionSort [1%nat; 1%nat] tieTrace)) /\
  resolvedContent (ConvertTrace insertionSort [0%nat] tieTrace) ≡ₚ
  resolvedContent (ConvertTrace insertionSort [1%nat; 1%nat] tieTrace).
Proof.
  pose proof (C9_schedule_independent insertionSort
                (fun less l => insertionSort_Permutation less l)
                [0%nat] [1%nat; 1%nat] tieTrace) as H.
  exact (conj (proj1 (proj1 H)) (proj2 H tieTrace_plain)).
Defined.

(** The two schedules hand the samples over in different orders. *)
Example tieTrace_received :
  map stackSample_names (received insertionSort [0%nat] tieTrace) =
    [["Z"]; ["X"]; ["Y"]] /\
  map stackSample_names (received insertionSort [1%nat; 1%nat] tieTrace) =
    [["X"]; ["Y"]; ["Z"]].
Proof. split; vm_compute; reflexivity. Qed.

(** C9 as stated fails.  With one sort, two schedules of the workers of
    [raceTrace] give profiles whose samples resolve to different stacks:
    the first sample the consumer receives fixes the stack of the entry that
    the two stacks of the one key share. *)
Lemma C9_counterexample :
  resolvedContent (ConvertTrace insertionSort [0%nat] raceTrace) =
    [ ([Some ("b", "y"); Some ("a", "x")], [2; 3000]);
      ([Some ("a", "x")], [1; 10000]) ] /\
  resolvedContent (ConvertTrace insertionSort [1%nat; 1%nat] raceTrace) =
    [ ([Some ("a", oddCategory)], [2; 3000]);
      ([Some ("a", "x")], [1; 10000]) ] /\
  ~ (resolvedContent (ConvertTrace insertionSort [0%nat] raceTrace) ≡ₚ
     resolvedContent (ConvertTrace insertionSort [1%nat; 1%nat] raceTrace)).
Proof.
  split; [apply raceTrace_first_schedule|]. split; [apply raceTrace_second_schedule|].
  rewrite raceTrace_first_schedule, raceTrace_second_schedule. intros H.
  apply (Permutation_in ([Some ("b", "y"); Some ("a", "x")], [2; 3000])) in H;
    [|by left].
  destruct H as [H|[H|[]]]; discriminate.
Qed.

End Examples.

(** * The claims on the encoder *)

Section Elision.

(** C8 (as amended).  Reading an encoded profile back: the scalars
    [time_nanos] (9), [duration_nanos] (10) and [period] (12) are there
    exactly when they are not zero, and the [line] field (2) of a Line
    likewise.  The integer fields of the other nested messages are written
    whatever their value: [type] and [unit] of a ValueType, the four fields
    of a Function, the [id] of a Location and the [function_id] of a
    Line. *)
Theorem C8_elided_and_written :
  (forall p num w,
     num = 9 \/ num = 10 \/ num = 12 ->
     exists fs,
       readMessage (Encode p) = Some fs /\
       (In (num, w) fs <->
        let v := if num =? 9 then Profile_TimeNanos p
                 else if num =? 10 then Profile_DurationNanos p
                 else Profile_Period p in
        v <> 0 /\ w = Varint (uint64 v))) /\
  (forall line,
     0 <= Line_FunctionId line ->
     readMessage (encodeLine line) =
     Some ((1, Varint (Line_FunctionId line)) ::
           if Line_Line line =? 0 then [] else [(2, Varint (uint64 (Line_Line line)))])) /\
  (forall vt,
     readMessage (encodeValueType vt) =
     Some [(1, Varint (uint64 (ValueType_Type vt)));
           (2, Varint (uint64 (ValueType_Unit vt)))]) /\
  (forall fn,
     0 <= Function_Id fn ->
     readMessage (encodeFunction fn) =
     Some [(1, Varint (Function_Id fn));
           (2, Varint (uint64 (Function_Name fn)));
           (3, Varint (uint64 (Function_SystemName fn)));
           (4, Varint (uint64 (Function_Filename fn)))]) /\
  (forall loc,
     0 <= Location_Id loc ->
     readMessage (encodeLocation loc) =
     Some ((1, Varint (Location_Id loc)) ::
           map (fun line => (4, Bytes (encodeLine line))) (Location_Line loc))).
Proof.
  split.
  { intros p num w Hnum. exists (topLevelFields p).
    split; [apply readMessage_Encode | by apply topLevelFields_scalar]. }
  split; [apply read_Line|]. split; [apply read_ValueType|].
  split; [apply read_Function | apply read_Location].
Qed.

(** The profile of a trace with one event of an empty category. *)
Definition emptyCategoryTrace : TraceData :=
  {| TraceEvents := [ completeEvent "op" "" 1 0 10 ] |}.

Lemma C8_witness :
  (exists fs,
     readMessage (Encode (ConvertTrace insertionSort [] emptyCategoryTrace)) = Some fs /\
     (In (12, Varint 1000000) fs <-> 1000000 <> 0 /\ Varint 1000000 = Varint (uint64 1000000))) /\
  readMessage (encodeLine {| Line_FunctionId := 1; Line_Line := 0 |}) = Some [(1, Varint 1)].
Proof.
  split.
  - apply (proj1 C8_elided_and_written
             (ConvertTrace insertionSort [] emptyCategoryTrace) 12 (Varint 1000000)).
    right. right. reflexivity.
  - apply (proj1 (proj2 C8_elided_and_written) {| Line_FunctionId := 1; Line_Line := 0 |}).
    simpl. lia.
Defined.

(** C8 as stated fails on the nested messages.  A ValueType of two zeros
    takes four bytes, which read back as its two fields with value zero;
    and the Function of an event of an empty category, as the conversion
    builds it, is written with its [filename] field (4) of value zero. *)
Lemma C8_counterexample :
  encodeValueType {| ValueType_Type := 0; ValueType_Unit := 0 |} = [8; 0; 16; 0] /\
  readMessage (encodeValueType {| ValueType_Type := 0; ValueType_Unit := 0 |}) =
    Some [(1, Varint 0); (2, Varint 0)] /\
  Profile_Function (ConvertTrace insertionSort [] emptyCategoryTrace) =
    [ {| Function_Id := 1; Function_Name := 6;
         Function_SystemName := 6; Function_Filename := 0 |} ] /\
  encodeFunction {| Function_Id := 1; Function_Name := 6;
                    Function_SystemName := 6; Function_Filename := 0 |} =
    [8; 1; 16; 6; 24; 6; 32; 0] /\
  In (5, Bytes [8; 1; 16; 6; 24; 6; 32; 0])
    (topLevelFields (ConvertTrace insertionSort [] emptyCategoryTrace)) /\
  readMessage [8; 1; 16; 6; 24; 6; 32; 0] =
    Some [(1, Varint 1); (2, Varint 6); (3, Varint 6); (4, Varint 0)].
Proof.
  split_and!; try (vm_compute; reflexivity).
  vm_compute. do 4 right. left. reflexivity.
Qed.

End Elision.

(** * Package converter: the trace analysis *)

(** [CategoryStats] and [OperationStats] have the same two fields; the
    counters are Go [int]s that count events of a slice, whose length is an
    [int], so they do not wrap around. *)
Record CategoryStats := {
  CategoryStats_Count : Z;
  CategoryStats_TimeNs : Z
}.

Record OperationStats := {
  OperationStats_Count : Z;
  OperationStats_TimeNs : Z
}.

Record TraceAnalysis := {
  TotalEvents : Z;
  CompleteEvents : Z;
  SkippedZeroDuration : Z;
  ConvertedEvents : Z;
  UniqueOperations : Z;
  TotalTimeNs : Z;
  TraceAnalysis_CategoryStats : gmap string CategoryStats;
  TraceAnalysis_OperationStats : gmap string OperationStats
}.

(** One round of the loop of [AnalyzeTrace]. *)
Definition analyzeEvent (a : TraceAnalysis) (e : TraceEvent) : TraceAnalysis :=
  let total := TotalEvents a + 1 in
  if negb (String.eqb (Ph e) "X") then
    {| TotalEvents := total;
       CompleteEvents := CompleteEvents a;
       SkippedZeroDuration := SkippedZeroDuration a;
       ConvertedEvents := ConvertedEvents a;
       UniqueOperations := UniqueOperations a;
       TotalTimeNs := TotalTimeNs a;
       TraceAnalysis_CategoryStats := TraceAnalysis_CategoryStats a;
       TraceAnalysis_OperationStats := TraceAnalysis_OperationStats a |}
  else
    let complete := CompleteEvents a + 1 in
    if (Dur e <=? 0)%float then
      {| TotalEvents := total;
         CompleteEvents := complete;
         SkippedZeroDuration := SkippedZeroDuration a + 1;
         ConvertedEvents := ConvertedEvents a;
         UniqueOperations := UniqueOperations a;
         TotalTimeNs := TotalTimeNs a;
         TraceAnalysis_CategoryStats := TraceAnalysis_CategoryStats a;
         TraceAnalysis_OperationStats := TraceAnalysis_OperationStats a |}
    else
      let durNs := int64_of_float (Dur e * 1000)%float in
      (* cs := analysis.CategoryStats[e.Cat]: the zero value when absent *)
      let cs := default {| CategoryStats_Count := 0; CategoryStats_TimeNs := 0 |}
                  (TraceAnalysis_CategoryStats a !! Cat e) in
      let cs := {| CategoryStats_Count := CategoryStats_Count cs + 1;
                   CategoryStats_TimeNs := int64 (CategoryStats_TimeNs cs + durNs) |} in
      let os := default {| OperationStats_Count := 0; OperationStats_TimeNs := 0 |}
                  (TraceAnalysis_OperationStats a !! Name e) in
      let os := {| OperationStats_Count := OperationStats_Count os + 1;
                   OperationStats_TimeNs := int64 (OperationStats_TimeNs os + durNs) |} in
      {| TotalEvents := total;
         CompleteEvents := complete;
         SkippedZeroDuration := SkippedZeroDuration a;
         ConvertedEvents := ConvertedEvents a + 1;
         UniqueOperations := UniqueOperations a;
         TotalTimeNs := int64 (TotalTimeNs a + durNs);
         TraceAnalysis_CategoryStats := <[Cat e := cs]> (TraceAnalysis_CategoryStats a);
         TraceAnalysis_OperationStats := <[Name e := os]> (TraceAnalysis_OperationStats a) |}.

Definition newAnalysis : TraceAnalysis :=
  {| TotalEvents := 0;
     CompleteEvents := 0;
     SkippedZeroDuration := 0;
     ConvertedEvents := 0;
     UniqueOperations := 0;
     TotalTimeNs := 0;
     TraceAnalysis_CategoryStats := ∅;
     TraceAnalysis_OperationStats := ∅ |}.

Definition AnalyzeTrace (traceData : TraceData) : TraceAnalysis :=
  let a := fold_left analyzeEvent (TraceEvents traceData) newAnalysis in
  {| TotalEvents := TotalEvents a;
     CompleteEvents := CompleteEvents a;
     SkippedZeroDuration := SkippedZeroDuration a;
     ConvertedEvents := ConvertedEvents a;
     UniqueOperations := Z.of_nat (size (TraceAnalysis_OperationStats a));
     TotalTimeNs := TotalTimeNs a;
     TraceAnalysis_CategoryStats := TraceAnalysis_CategoryStats a;
     TraceAnalysis_OperationStats := TraceAnalysis_OperationStats a |}.

Record CategoryEntry := {
  CategoryEntry_Name : string;
  CategoryEntry_Count : Z;
  CategoryEntry_TimeNs : Z
}.

Record OperationEntry := {
  OperationEntry_Name : string;
  OperationEntry_Count : Z;
  OperationEntry_TimeNs : Z
}.

(** The events a category, or an operation, is charged with, and what the
    statistics of a non-empty list of events come to. *)
Definition kept (events : list TraceEvent) : list TraceEvent :=
  List.filter (fun e => negb (skipped e)) events.

Definition ofCategory (c : string) (events : list TraceEvent) : list TraceEvent :=
  List.filter (fun e => bool_decide (Cat e = c)) (kept events).

Definition ofOperation (n : string) (events : list TraceEvent) : list TraceEvent :=
  List.filter (fun e => bool_decide (Name e = n)) (kept events).

Definition statsOf (events : list TraceEvent) : option (Z * Z) :=
  match events with
  | [] => None
  | _ => Some (len events, sumInt64 (map durationNs events))
  end.

Definition categoryPair (cs : CategoryStats) : Z * Z :=
  (CategoryStats_Count cs, CategoryStats_TimeNs cs).

Definition operationPair (os : OperationStats) : Z * Z :=
  (OperationStats_Count os, OperationStats_TimeNs os).

Section Analysis.

Implicit Types (a : TraceAnalysis) (e : TraceEvent) (events : list TraceEvent).

Lemma sumInt64_snoc l x : sumInt64 (l ++ [x]) = int64 (sumInt64 l + x).
Proof. unfold sumInt64. by rewrite fold_left_app. Qed.

Lemma kept_snoc events e :
  kept (events ++ [e]) = kept events ++ (if skipped e then [] else [e]).
Proof. unfold kept. rewrite List.filter_app. simpl. by destruct (skipped e). Qed.

Lemma skipped_cases e :
  skipped e = negb (String.eqb (Ph e) "X") || (Dur e <=? 0)%float.
Proof. reflexivity. Qed.

(** What the loop has computed after the events [events]. *)
Definition analysisOf events a : Prop :=
  TotalEvents a = len events /\
  CompleteEvents a = len (List.filter (fun e => String.eqb (Ph e) "X") events) /\
  SkippedZeroDuration a =
    len (List.filter (fun e => String.eqb (Ph e) "X" && (Dur e <=? 0)%float) events) /\
  ConvertedEvents a = len (kept events) /\
  TotalTimeNs a = sumInt64 (map durationNs (kept events)) /\
  (forall c, categoryPair <$> (TraceAnalysis_CategoryStats a !! c) =
             statsOf (ofCategory c events)) /\
  (forall n, operationPair <$> (TraceAnalysis_OperationStats a !! n) =
             statsOf (ofOperation n events)).

Lemma statsOf_nonempty es :
  es <> [] -> statsOf es = Some (len es, sumInt64 (map durationNs es)).
Proof. by destruct es. Qed.

Lemma statsOf_snoc es e :
  statsOf (es ++ [e]) =
  Some (match statsOf es with
        | Some (n, t) => (n + 1, int64 (t + durationNs e))
        | None => (1, int64 (0 + durationNs e))
        end).
Proof.
  rewrite statsOf_nonempty by (by destruct es).
  rewrite map_app. change (map durationNs [e]) with [durationNs e].
  rewrite sumInt64_snoc. unfold len. rewrite length_app. simpl.
  destruct es as [|e0 es]; [done|].
  rewrite statsOf_nonempty by done. unfold len. do 3 f_equal. lia.
Qed.

Lemma filter_snoc {A} (p : A -> bool) (l : list A) x :
  List.filter p (l ++ [x]) = List.filter p l ++ (if p x then [x] else []).
Proof. rewrite List.filter_app. simpl. by destruct (p x). Qed.

Lemma ofCategory_snoc c events e :
  ofCategory c (events ++ [e]) =
  ofCategory c events ++
  (if skipped e then [] else if bool_decide (Cat e = c) then [e] else []).
Proof.
  unfold ofCategory. rewrite kept_snoc, List.filter_app.
  destruct (skipped e); [done|]. simpl. by destruct (bool_decide (Cat e = c)).
Qed.

Lemma ofOperation_snoc n events e :
  ofOperation n (events ++ [e]) =
  ofOperation n events ++
  (if skipped e then [] else if bool_decide (Name e = n) then [e] else []).
Proof.
  unfold ofOperation. rewrite kept_snoc, List.filter_app.
  destruct (skipped e); [done|]. simpl. by destruct (bool_decide (Name e = n)).
Qed.

Lemma len_snoc {A} (l : list A) x : len (l ++ [x]) = len l + 1.
Proof. unfold len. rewrite length_app. simpl. lia. Qed.

Lemma analyzeEvent_analysisOf events a e :
  analysisOf events a -> analysisOf (events ++ [e]) (analyzeEvent a e).
Proof.
  intros (H1 & H2 & H3 & H4 & H5 & H6 & H7).
  unfold analysisOf.
  rewrite !filter_snoc, kept_snoc, len_snoc.
  setoid_rewrite ofCategory_snoc. setoid_rewrite ofOperation_snoc.
  unfold analyzeEvent, skipped.
  destruct (String.eqb (Ph e) "X") eqn:Hph; cbn [negb orb andb].
  2:{ cbn match. rewrite !app_nil_r.
      split_and!; cbn [TotalEvents CompleteEvents SkippedZeroDuration ConvertedEvents
                   TotalTimeNs TraceAnalysis_CategoryStats TraceAnalysis_OperationStats];
        first [lia | done | by intros; rewrite app_nil_r]. }
  destruct (Dur e <=? 0)%float eqn:Hdur; cbn match.
  { rewrite !app_nil_r, !len_snoc.
    split_and!; cbn [TotalEvents CompleteEvents SkippedZeroDuration ConvertedEvents
                   TotalTimeNs TraceAnalysis_CategoryStats TraceAnalysis_OperationStats];
      first [lia | done | by intros; rewrite app_nil_r]. }
  rewrite !app_nil_r, !len_snoc, map_app.
  change (map durationNs [e]) with [durationNs e]. rewrite sumInt64_snoc.
  split_and!; cbn [TotalEvents CompleteEvents SkippedZeroDuration ConvertedEvents
                   TotalTimeNs TraceAnalysis_CategoryStats TraceAnalysis_OperationStats];
    try lia.
  - by rewrite H5.
  - intros c. specialize (H6 c).
    destruct (decide (Cat e = c)) as [<-|Hne].
    + rewrite lookup_insert_eq, bool_decide_eq_true_2 by done.
      rewrite statsOf_snoc, <- H6.
      by destruct (TraceAnalysis_CategoryStats a !! Cat e) as [[n t]|].
    + rewrite lookup_insert_ne, bool_decide_eq_false_2 by done.
      by rewrite app_nil_r.
  - intros n. specialize (H7 n).
    destruct (decide (Name e = n)) as [<-|Hne].
    + rewrite lookup_insert_eq, bool_decide_eq_true_2 by done.
      rewrite statsOf_snoc, <- H7.
      by destruct (TraceAnalysis_OperationStats a !! Name e) as [[k t]|].
    + rewrite lookup_insert_ne, bool_decide_eq_false_2 by done.
      by rewrite app_nil_r.
Qed.

Lemma fold_analyzeEvent_analysisOf done events a :
  analysisOf done a -> analysisOf (done ++ events) (fold_left analyzeEvent events a).
Proof.
  revert done a. induction events as [|e events IH]; intros done a H; simpl.
  - by rewrite app_nil_r.
  - replace (done ++ e :: events) with ((done ++ [e]) ++ events)
      by (by rewrite <- app_assoc).
    by apply IH, analyzeEvent_analysisOf.
Qed.

Lemma newAnalysis_analysisOf : analysisOf [] newAnalysis.
Proof. split_and!; try done; intros ?; by rewrite lookup_empty. Qed.

Lemma AnalyzeTrace_analysisOf traceData :
  analysisOf (TraceEvents traceData)
    (fold_left analyzeEvent (TraceEvents traceData) newAnalysis).
Proof. apply (fold_analyzeEvent_analysisOf [] _ _ newAnalysis_analysisOf). Qed.

Lemma complete_split events :
  len (List.filter (fun e => String.eqb (Ph e) "X") events) =
  len (List.filter (fun e => String.eqb (Ph e) "X" && (Dur e <=? 0)%float) events) +
  len (kept events).
Proof.
  unfold kept, skipped, len. induction events as [|e events IH]; simpl; [done|].
  destruct (String.eqb (Ph e) "X"), (Dur e <=? 0)%float; simpl; lia.
Qed.

Lemma statsOf_Some_iff es : is_Some (statsOf es) <-> es <> [].
Proof. destruct es; simpl; split; done. Qed.

Lemma ofOperation_nonempty n events :
  ofOperation n events <> [] <-> n ∈ map Name (kept events).
Proof.
  unfold ofOperation. split.
  - intros Hne. destruct (List.filter _ _) as [|e es] eqn:Hf; [done|].
    assert (In e (List.filter (fun e => bool_decide (Name e = n)) (kept events))) as Hin
      by (rewrite Hf; by left).
    apply filter_In in Hin as [Hin Hn]. apply bool_decide_eq_true_1 in Hn as <-.
    apply list_elem_of_In, in_map, Hin.
  - intros Hin%list_elem_of_In. apply in_map_iff in Hin as (e & <- & Hin). intros Hnil.
    assert (In e (List.filter (fun e0 => bool_decide (Name e0 = Name e)) (kept events))) as H.
    { apply filter_In. split; [done|]. by apply bool_decide_eq_true_2. }
    by rewrite Hnil in H.
Qed.

(** X2.  The counters of the analysis.  For every trace: [TotalEvents] is
    the number of events, [CompleteEvents] the number of those of phase [X],
    [SkippedZeroDuration] the number of those with [Dur <= 0] and
    [ConvertedEvents] the number of the others, so that the complete events
    are the skipped and the converted ones; [TotalTimeNs] is the [int64] sum
    of [int64(Dur * 1000)] over the converted events, and [UniqueOperations]
    the number of different names among them. *)
Theorem AnalyzeTrace_counters traceData :
  let events := TraceEvents traceData in
  let a := AnalyzeTrace traceData in
  TotalEvents a = len events /\
  CompleteEvents a = len (List.filter (fun e => String.eqb (Ph e) "X") events) /\
  SkippedZeroDuration a =
    len (List.filter (fun e => String.eqb (Ph e) "X" && (Dur e <=? 0)%float) events) /\
  ConvertedEvents a = len (kept events) /\
  CompleteEvents a = SkippedZeroDuration a + ConvertedEvents a /\
  TotalTimeNs a = sumInt64 (map durationNs (kept events)) /\
  UniqueOperations a =
    Z.of_nat (size (list_to_set (map Name (kept events)) : gset string)).
Proof.
  intros events a.
  destruct (AnalyzeTrace_analysisOf traceData) as (H1 & H2 & H3 & H4 & H5 & _ & H7).
  unfold a, AnalyzeTrace. cbn [TotalEvents CompleteEvents SkippedZeroDuration
    ConvertedEvents TotalTimeNs UniqueOperations].
  split_and!; try done.
  - rewrite H2, H3, H4. apply complete_split.
  - f_equal. rewrite <- size_dom. f_equal. apply set_eq. intros n.
    rewrite elem_of_dom, elem_of_list_to_set, <- ofOperation_nonempty.
    rewrite <- statsOf_Some_iff, <- H7. by rewrite fmap_is_Some.
Qed.

End Analysis.

Section Statistics.

Implicit Types (a : TraceAnalysis) (e : TraceEvent) (events : list TraceEvent).

(** X3.  The statistics of the analysis.  For every trace, a category has an
    entry exactly when some converted event has it, and the entry holds the
    number of these events and the [int64] sum of their durations; likewise
    every operation name. *)
Theorem AnalyzeTrace_statistics traceData :
  let events := TraceEvents traceData in
  let a := AnalyzeTrace traceData in
  (forall c, categoryPair <$> (TraceAnalysis_CategoryStats a !! c) =
             statsOf (ofCategory c events)) /\
  (forall n, operationPair <$> (TraceAnalysis_OperationStats a !! n) =
             statsOf (ofOperation n events)).
Proof.
  intros events a.
  destruct (AnalyzeTrace_analysisOf traceData) as (_ & _ & _ & _ & _ & H6 & H7).
  by split.
Qed.

(** The statistics add up to the totals. *)
Definition sumsOf a : Prop :=
  mapWeight CategoryStats_Count (TraceAnalysis_CategoryStats a) = ConvertedEvents a /\
  int64 (mapWeight CategoryStats_TimeNs (TraceAnalysis_CategoryStats a)) =
    int64 (TotalTimeNs a) /\
  mapWeight OperationStats_Count (TraceAnalysis_OperationStats a) = ConvertedEvents a /\
  int64 (mapWeight OperationStats_TimeNs (TraceAnalysis_OperationStats a)) =
    int64 (TotalTimeNs a).

Lemma mapWeight_bump {V} (w : V -> Z) (m : gmap string V) k (zero v : V) :
  w zero = 0 ->
  mapWeight w (<[k := v]> m) = mapWeight w m - w (default zero (m !! k)) + w v.
Proof.
  intros Hz. destruct (m !! k) as [old|] eqn:Hk; simpl.
  - by apply mapWeight_insert_Some.
  - rewrite (mapWeight_insert_None _ _ _ _ Hk). lia.
Qed.

Lemma analyzeEvent_sumsOf a e : sumsOf a -> sumsOf (analyzeEvent a e).
Proof.
  intros (H1 & H2 & H3 & H4). unfold sumsOf, analyzeEvent.
  destruct (negb (String.eqb (Ph e) "X")); [done|].
  destruct (Dur e <=? 0)%float; [done|].
  cbn [ConvertedEvents TotalTimeNs TraceAnalysis_CategoryStats TraceAnalysis_OperationStats].
  rewrite !(mapWeight_bump _ _ _ {| CategoryStats_Count := 0; CategoryStats_TimeNs := 0 |})
    by done.
  rewrite !(mapWeight_bump _ _ _ {| OperationStats_Count := 0; OperationStats_TimeNs := 0 |})
    by done.
  cbn [CategoryStats_Count CategoryStats_TimeNs OperationStats_Count OperationStats_TimeNs].
  rewrite !int64_idem.
  split_and!; [lia| |lia|].
  - rewrite int64_add_r.
    replace (mapWeight CategoryStats_TimeNs (TraceAnalysis_CategoryStats a) -
             CategoryStats_TimeNs
               (default {| CategoryStats_Count := 0; CategoryStats_TimeNs := 0 |}
                  (TraceAnalysis_CategoryStats a !! Cat e)) +
             (CategoryStats_TimeNs
                (default {| CategoryStats_Count := 0; CategoryStats_TimeNs := 0 |}
                   (TraceAnalysis_CategoryStats a !! Cat e)) +
              int64_of_float (Dur e * 1000)))
      with (mapWeight CategoryStats_TimeNs (TraceAnalysis_CategoryStats a) +
            int64_of_float (Dur e * 1000)) by lia.
    by rewrite <- int64_add_l, H2, int64_add_l.
  - rewrite int64_add_r.
    replace (mapWeight OperationStats_TimeNs (TraceAnalysis_OperationStats a) -
             OperationStats_TimeNs
               (default {| OperationStats_Count := 0; OperationStats_TimeNs := 0 |}
                  (TraceAnalysis_OperationStats a !! Name e)) +
             (OperationStats_TimeNs
                (default {| OperationStats_Count := 0; OperationStats_TimeNs := 0 |}
                   (TraceAnalysis_OperationStats a !! Name e)) +
              int64_of_float (Dur e * 1000)))
      with (mapWeight OperationStats_TimeNs (TraceAnalysis_OperationStats a) +
            int64_of_float (Dur e * 1000)) by lia.
    by rewrite <- int64_add_l, H4, int64_add_l.
Qed.

Lemma AnalyzeTrace_sumsOf traceData :
  sumsOf (fold_left analyzeEvent (TraceEvents traceData) newAnalysis).
Proof.
  assert (sumsOf newAnalysis) as H0
    by (unfold sumsOf; simpl; by rewrite !mapWeight_empty).
  revert H0. generalize newAnalysis.
  induction (TraceEvents traceData) as [|e events IH]; intros a Ha; simpl; [done|].
  by apply IH, analyzeEvent_sumsOf.
Qed.

End Statistics.

(** The entries in the iteration order of the map, which Go leaves
    unspecified; the model takes the order of [map_to_list]. *)
Definition categoryEntries (a : TraceAnalysis) : list CategoryEntry :=
  map (fun ks => {| CategoryEntry_Name := fst ks;
                    CategoryEntry_Count := CategoryStats_Count (snd ks);
                    CategoryEntry_TimeNs := CategoryStats_TimeNs (snd ks) |})
    (map_to_list (TraceAnalysis_CategoryStats a)).

Definition operationEntries (a : TraceAnalysis) : list OperationEntry :=
  map (fun ks => {| OperationEntry_Name := fst ks;
                    OperationEntry_Count := OperationStats_Count (snd ks);
                    OperationEntry_TimeNs := OperationStats_TimeNs (snd ks) |})
    (map_to_list (TraceAnalysis_OperationStats a)).

Section SortedEntries.

(** [sort.Slice] again, now on slices of any element type. *)
Variable sort_Slice : forall A : Type, (A -> A -> bool) -> list A -> list A.

Definition GetSortedCategories (a : TraceAnalysis) : list CategoryEntry :=
  sort_Slice CategoryEntry
    (fun x y => CategoryEntry_TimeNs y <? CategoryEntry_TimeNs x)
    (categoryEntries a).

Definition GetSortedOperations (a : TraceAnalysis) : list OperationEntry :=
  sort_Slice OperationEntry
    (fun x y => OperationEntry_TimeNs y <? OperationEntry_TimeNs x)
    (operationEntries a).

(** The contract of [sort.Slice], at every element type. *)
Hypothesis sort_Slice_contract : forall A : Type, sortsSlices (sort_Slice A).

(** The comparison of the two functions is a transitive ordering of any
    entries. *)
Lemma descending_strictWeakOrder {A} (time : A -> Z) (l : list A) :
  strictWeakOrder (fun x y => time y <? time x) l.
Proof.
  split_and!.
  - intros a _. apply Z.ltb_irrefl.
  - intros a b c _ _ _ H1%Z.ltb_lt H2%Z.ltb_lt. apply Z.ltb_lt. lia.
  - intros a b c _ _ _ H1%Z.ltb_ge H2%Z.ltb_ge. apply Z.ltb_ge. lia.
Qed.

Lemma categoryEntries_spec a entry :
  entry ∈ categoryEntries a <->
  TraceAnalysis_CategoryStats a !! CategoryEntry_Name entry =
    Some {| CategoryStats_Count := CategoryEntry_Count entry;
            CategoryStats_TimeNs := CategoryEntry_TimeNs entry |}.
Proof.
  unfold categoryEntries. rewrite list_elem_of_In, in_map_iff. split.
  - intros ([name [n t]] & <- & Hin). simpl.
    by apply list_elem_of_In, elem_of_map_to_list in Hin.
  - intros Hl. eexists (_, _). split; [|by apply list_elem_of_In, elem_of_map_to_list].
    by destruct entry.
Qed.

Lemma operationEntries_spec a entry :
  entry ∈ operationEntries a <->
  TraceAnalysis_OperationStats a !! OperationEntry_Name entry =
    Some {| OperationStats_Count := OperationEntry_Count entry;
            OperationStats_TimeNs := OperationEntry_TimeNs entry |}.
Proof.
  unfold operationEntries. rewrite list_elem_of_In, in_map_iff. split.
  - intros ([name [n t]] & <- & Hin). simpl.
    by apply list_elem_of_In, elem_of_map_to_list in Hin.
  - intros Hl. eexists (_, _). split; [|by apply list_elem_of_In, elem_of_map_to_list].
    by destruct entry.
Qed.

Lemma descending_sorted {A} (time : A -> Z) (l : list A) :
  Sorted (fun a b => (time a <? time b) = false) l ->
  StronglySorted (fun a b => time b <= time a) l.
Proof.
  intros Hs. apply Sorted_StronglySorted.
  - intros x y z Hxy Hyz. lia.
  - eapply Sorted_ind with (P := Sorted (fun a b => time b <= time a));
      [constructor| |exact Hs].
    intros a l' _ IH Hd. constructor; [done|].
    destruct Hd as [|b l'' Hab]; constructor. lia.
Qed.

(** X4.  The sorted tables of the analysis.  With a [sort.Slice] that meets
    its contract, [GetSortedCategories] returns one entry for every category
    that has converted events and no other entry, each with the number and
    the [int64] duration total of the converted events of the category, in
    order of non-increasing duration; the counts of the entries add up to
    [ConvertedEvents] and their durations, as an [int64], to [TotalTimeNs].
    [GetSortedOperations] does the same by operation name. *)
Theorem GetSorted_tables traceData :
  let events := TraceEvents traceData in
  let a := AnalyzeTrace traceData in
  let cs := GetSortedCategories a in
  let os := GetSortedOperations a in
  (NoDup (map CategoryEntry_Name cs) /\
   (forall entry,
      entry ∈ cs <->
      statsOf (ofCategory (CategoryEntry_Name entry) events) =
        Some (CategoryEntry_Count entry, CategoryEntry_TimeNs entry)) /\
   StronglySorted (fun x y => CategoryEntry_TimeNs y <= CategoryEntry_TimeNs x) cs /\
   sumZ (map CategoryEntry_Count cs) = ConvertedEvents a /\
   sumInt64 (map CategoryEntry_TimeNs cs) = TotalTimeNs a) /\
  (NoDup (map OperationEntry_Name os) /\
   (forall entry,
      entry ∈ os <->
      statsOf (ofOperation (OperationEntry_Name entry) events) =
        Some (OperationEntry_Count entry, OperationEntry_TimeNs entry)) /\
   StronglySorted (fun x y => OperationEntry_TimeNs y <= OperationEntry_TimeNs x) os /\
   sumZ (map OperationEntry_Count os) = ConvertedEvents a /\
   sumInt64 (map OperationEntry_TimeNs os) = TotalTimeNs a).
Proof.
  intros events a cs os.
  destruct (AnalyzeTrace_analysisOf traceData) as (_ & _ & _ & _ & H5 & H6 & H7).
  destruct (AnalyzeTrace_sumsOf traceData) as (S1 & S2 & S3 & S4).
  assert (int64 (TotalTimeNs a) = TotalTimeNs a) as Hnorm.
  { unfold a, AnalyzeTrace. cbn [TotalTimeNs]. rewrite H5, sumInt64_sumZ. apply int64_idem. }
  split.
  - destruct (sort_Slice_contract CategoryEntry
                (fun x y => CategoryEntry_TimeNs y <? CategoryEntry_TimeNs x)
                (categoryEntries a)) as [Hperm Hsorted].
    fold (GetSortedCategories a) in Hperm, Hsorted. fold cs in Hperm, Hsorted.
    split_and!.
    + rewrite Hperm. unfold categoryEntries. rewrite map_map. simpl.
      apply (NoDup_fst_map_to_list (TraceAnalysis_CategoryStats a)).
    + intros entry. rewrite Hperm, categoryEntries_spec.
      unfold a, AnalyzeTrace. cbn [TraceAnalysis_CategoryStats].
      rewrite <- H6. split.
      * by intros ->.
      * destruct (_ !! _) as [[n t]|]; simpl; [|done]. by intros [= -> ->].
    + apply (descending_sorted CategoryEntry_TimeNs), Hsorted.
      apply (descending_strictWeakOrder CategoryEntry_TimeNs).
    + rewrite (sumZ_Permutation _ _ (Permutation_map _ Hperm)).
      unfold categoryEntries. rewrite map_map. exact S1.
    + rewrite sumInt64_sumZ, (sumZ_Permutation _ _ (Permutation_map _ Hperm)).
      unfold categoryEntries. rewrite map_map. simpl.
      etrans; [exact S2|]. exact Hnorm.
  - destruct (sort_Slice_contract OperationEntry
                (fun x y => OperationEntry_TimeNs y <? OperationEntry_TimeNs x)
                (operationEntries a)) as [Hperm Hsorted].
    fold (GetSortedOperations a) in Hperm, Hsorted. fold os in Hperm, Hsorted.
    split_and!.
    + rewrite Hperm. unfold operationEntries. rewrite map_map. simpl.
      apply (NoDup_fst_map_to_list (TraceAnalysis_OperationStats a)).
    + intros entry. rewrite Hperm, operationEntries_spec.
      unfold a, AnalyzeTrace. cbn [TraceAnalysis_OperationStats].
      rewrite <- H7. split.
      * by intros ->.
      * destruct (_ !! _) as [[n t]|]; simpl; [|done]. by intros [= -> ->].
    + apply (descending_sorted OperationEntry_TimeNs), Hsorted.
      apply (descending_strictWeakOrder OperationEntry_TimeNs).
    + rewrite (sumZ_Permutation _ _ (Permutation_map _ Hperm)).
      unfold operationEntries. rewrite map_map. exact S3.
    + rewrite sumInt64_sumZ, (sumZ_Permutation _ _ (Permutation_map _ Hperm)).
      unfold operationEntries. rewrite map_map. simpl.
      etrans; [exact S4|]. exact Hnorm.
Qed.

End SortedEntries.

(** * The conversion: what is counted *)

Section Counting.

Lemma groupByThread_sum (w : TraceEvent -> Z) events (m : gmap Z (list eventWithEnd)) :
  mapWeight (fun l => sumZ (map (fun e => w (Event e)) l)) (fold_left group events m) =
  mapWeight (fun l => sumZ (map (fun e => w (Event e)) l)) m + sumZ (map w (kept events)).
Proof.
  revert m. induction events as [|e events IH]; intros m; cbn [fold_left].
  - unfold kept. simpl. lia.
  - rewrite IH. unfold group, kept. cbn [List.filter].
    destruct (skipped e); cbn [negb]; [done|].
    rewrite lookup_total_alt.
    destruct (m !! getTid (Tid e)) as [l|] eqn:Hl; simpl.
    + rewrite (mapWeight_insert_Some _ _ _ _ l Hl).
      rewrite map_app, sumZ_app. simpl. lia.
    + rewrite (mapWeight_insert_None _ _ _ _ Hl). simpl. lia.
Qed.

Lemma sumZ_ones {A} (l : list A) : sumZ (map (fun _ => 1) l) = len l.
Proof. unfold len. induction l as [|x l IH]; simpl in *; lia. Qed.

Lemma mapWeight_le {K V} `{Countable K} (w : V -> Z) (m : gmap K V) k v :
  (forall k' v', m !! k' = Some v' -> 0 <= w v') ->
  m !! k = Some v -> w v <= mapWeight w m.
Proof.
  intros Hpos Hk. unfold mapWeight.
  rewrite <- (sumZ_Permutation _ _ (Permutation_map _ (map_to_list_delete m k v Hk))).
  simpl. enough (0 <= sumZ (map (fun kv => w (snd kv)) (map_to_list (delete k m)))) by lia.
  apply sumZ_nonneg, Forall_forall. intros t Ht.
  apply list_elem_of_In, in_map_iff in Ht as ([k' v'] & <- & Hin).
  apply list_elem_of_In, elem_of_map_to_list, lookup_delete_Some in Hin as [_ Hin].
  by eapply Hpos.
Qed.

(** The counts of the sample map add up to the number of samples
    aggregated. *)
Lemma aggregate_count st sample :
  int64 (mapWeight sampleData_count (snd (aggregate st sample))) =
  int64 (mapWeight sampleData_count (snd st) + 1).
Proof.
  destruct st as [pb sampleMap]. unfold aggregate.
  destruct (sampleMap !! sampleKey (stackSample_stack sample)) as [existing|] eqn:Hk; simpl.
  - rewrite (mapWeight_insert_Some _ _ _ _ existing Hk). simpl.
    rewrite int64_add_r. f_equal. lia.
  - destruct (buildLocationIds pb _ _) as [locationIds pb1]. simpl.
    by rewrite (mapWeight_insert_None _ _ _ _ Hk).
Qed.

Lemma fold_aggregate_count samples st :
  int64 (mapWeight sampleData_count (snd (fold_left aggregate samples st))) =
  int64 (mapWeight sampleData_count (snd st) + len samples).
Proof.
  revert st. induction samples as [|x samples IH]; intros st; simpl.
  - f_equal. unfold len. simpl. lia.
  - rewrite IH, <- int64_add_l, aggregate_count, int64_add_l. f_equal.
    unfold len. simpl. lia.
Qed.

(** While fewer than [2^63] samples are aggregated no count wraps around,
    and every entry counts at least one sample. *)
Lemma fold_aggregate_count_exact samples st :
  (forall k d, snd st !! k = Some d -> 1 <= sampleData_count d) ->
  mapWeight sampleData_count (snd st) + len samples < 2 ^ 63 ->
  mapWeight sampleData_count (snd (fold_left aggregate samples st)) =
    mapWeight sampleData_count (snd st) + len samples /\
  (forall k d, snd (fold_left aggregate samples st) !! k = Some d ->
               1 <= sampleData_count d).
Proof.
  revert st. induction samples as [|x samples IH]; intros [pb m] Hpos Hbound.
  - simpl in *. unfold len. simpl. split; [lia | done].
  - assert (len (x :: samples) = 1 + len samples) as Hlen by (unfold len; simpl; lia).
    rewrite Hlen in *. cbn [fold_left snd] in *.
    assert (mapWeight sampleData_count (snd (aggregate (pb, m) x)) =
            mapWeight sampleData_count m + 1 /\
            (forall k d, snd (aggregate (pb, m) x) !! k = Some d ->
                         1 <= sampleData_count d)) as [Hw Hpos'].
    { unfold aggregate.
      destruct (m !! sampleKey (stackSample_stack x)) as [existing|] eqn:Hk; simpl.
      - assert (sampleData_count existing <= mapWeight sampleData_count m) as Hle.
        { apply (mapWeight_le _ _ _ _ (fun k' v' Hv => Z.le_trans _ _ _ Z.le_0_1 (Hpos k' v' Hv)) Hk). }
        pose proof (Hpos _ _ Hk) as Hex. pose proof (len_nonneg samples) as Hn.
        rewrite (mapWeight_insert_Some _ _ _ _ existing Hk). simpl.
        rewrite int64_small by lia. split; [lia|].
        intros k d [[_ <-]|[_ Hd]]%lookup_insert_Some; simpl; [lia | by eapply Hpos].
      - destruct (buildLocationIds pb _ _) as [locationIds pb1]. simpl.
        rewrite (mapWeight_insert_None _ _ _ _ Hk). simpl. split; [done|].
        intros k d [[_ <-]|[_ Hd]]%lookup_insert_Some; simpl; [lia | by eapply Hpos]. }
    destruct (IH (aggregate (pb, m) x) Hpos') as [IH1 IH2]; [rewrite Hw; lia|].
    split; [rewrite IH1, Hw; lia | exact IH2].
Qed.

End Counting.

Section ConversionCounts.

Variable sort_Slice :
  (eventWithEnd -> eventWithEnd -> bool) -> list eventWithEnd -> list eventWithEnd.

Hypothesis sort_Slice_Permutation : forall less l, sort_Slice less l ≡ₚ l.

Variable sched : list nat.

(** One sample is received for every event that is kept. *)
Lemma received_length traceData :
  len (received sort_Slice sched traceData) = len (kept (TraceEvents traceData)).
Proof.
  rewrite <- !sumZ_ones. unfold received.
  rewrite (sumZ_Permutation _ _ (Permutation_map _ (interleave_Permutation _ _))).
  rewrite sumZ_concat. unfold workerOutputs. rewrite map_map.
  transitivity (mapWeight (fun l : list eventWithEnd => sumZ (map (fun _ => 1) l))
                  (sortedThreads sort_Slice traceData)).
  { unfold mapWeight. f_equal. apply map_ext. intros [tid events]. simpl.
    rewrite !sumZ_ones. unfold ProcessThreadEvents, len. by rewrite processEvents_length. }
  unfold sortedThreads. rewrite mapWeight_fmap.
  rewrite (mapWeight_ext _ (fun l : list eventWithEnd => sumZ (map (fun _ => 1) l))).
  2:{ intros l. apply sumZ_Permutation, Permutation_map, sort_Slice_Permutation. }
  unfold groupByThread.
  change (fold_left _ (TraceEvents traceData) ∅)
    with (fold_left group (TraceEvents traceData) ∅).
  rewrite (groupByThread_sum (fun _ => 1)), mapWeight_empty. lia.
Qed.

Lemma ConvertTrace_counts traceData :
  map sampleCount (Profile_Sample (ConvertTrace sort_Slice sched traceData)) =
  map (fun ks => sampleData_count (snd ks))
    (map_to_list (snd (aggregated sort_Slice sched traceData))).
Proof. rewrite ConvertTrace_samples, map_map. done. Qed.

(** X5.  The counts of the profile.  For every trace, every schedule of the
    workers and every sort that returns a permutation, the counts [Value[0]]
    of the samples of the profile add up, as an [int64], to the number of
    events that are kept; and while there are fewer than [2^63] such events
    every sample counts at least one event and the counts add up to that
    number exactly. *)
Theorem ConvertTrace_total_count traceData :
  let samples := Profile_Sample (ConvertTrace sort_Slice sched traceData) in
  let n := len (kept (TraceEvents traceData)) in
  sumInt64 (map sampleCount samples) = int64 n /\
  (n < 2 ^ 63 ->
   sumZ (map sampleCount samples) = n /\
   Forall (fun s => 1 <= sampleCount s) samples).
Proof.
  intros samples n. unfold samples.
  split.
  - rewrite sumInt64_sumZ, ConvertTrace_counts.
    change (sumZ (map (fun ks => sampleData_count (snd ks)) ?l))
      with (mapWeight sampleData_count (snd (aggregated sort_Slice sched traceData))).
    unfold aggregated. rewrite fold_aggregate_count. simpl snd.
    rewrite mapWeight_empty, received_length. f_equal.
  - intros Hn.
    destruct (fold_aggregate_count_exact (received sort_Slice sched traceData)
                (initialBuilder, ∅)) as [Hsum Hpos].
    { intros k d Hd. simpl in Hd. by rewrite lookup_empty in Hd. }
    { simpl snd. rewrite mapWeight_empty, received_length. fold n. lia. }
    fold (aggregated sort_Slice sched traceData) in Hsum, Hpos.
    split.
    + rewrite ConvertTrace_counts.
      change (sumZ (map (fun ks => sampleData_count (snd ks)) ?l))
        with (mapWeight sampleData_count (snd (aggregated sort_Slice sched traceData))).
      rewrite Hsum. simpl snd. rewrite mapWeight_empty, received_length. fold n. lia.
    + rewrite ConvertTrace_samples. apply Forall_forall. intros s Hs.
      apply list_elem_of_In, in_map_iff in Hs as ([k d] & <- & Hin).
      apply list_elem_of_In, elem_of_map_to_list in Hin. by apply (Hpos k d).
Qed.

(** X6.  The analysis and the conversion agree.  For every trace, the total
    time of [AnalyzeTrace] is the [int64] sum of the durations [Value[1]] of
    the samples of the profile [ConvertTrace] returns, and its number of
    converted events is, as an [int64], the sum of their counts [Value[0]]. *)
Theorem AnalyzeTrace_agrees_with_ConvertTrace traceData :
  let samples := Profile_Sample (ConvertTrace sort_Slice sched traceData) in
  let a := AnalyzeTrace traceData in
  TotalTimeNs a = sumInt64 (map sampleDuration samples) /\
  int64 (ConvertedEvents a) = sumInt64 (map sampleCount samples).
Proof.
  intros samples a.
  destruct (AnalyzeTrace_analysisOf traceData) as (_ & _ & _ & H4 & H5 & _).
  unfold a, AnalyzeTrace, samples. cbn [TotalTimeNs ConvertedEvents]. split.
  - rewrite H5. symmetry. apply (kept_total_duration sort_Slice sort_Slice_Permutation).
  - rewrite H4, sumInt64_sumZ, ConvertTrace_counts.
    change (sumZ (map (fun ks => sampleData_count (snd ks)) ?l))
      with (mapWeight sampleData_count (snd (aggregated sort_Slice sched traceData))).
    unfold aggregated. rewrite fold_aggregate_count. simpl snd.
    by rewrite mapWeight_empty, received_length.
Qed.

End ConversionCounts.

(** * Stack reconstruction: what is on the stack *)

(** The stack entry ends no earlier than the event does. *)
Definition endsWithin (later earlier : eventWithEnd) : Prop :=
  (End_ later <=? End_ earlier)%float = true.

Section StackInvariant.

Implicit Types (stack : list stackEntry) (events evs : list eventWithEnd).

Lemma StronglySorted_sublist {A} (R : A -> A -> Prop) (l1 l2 : list A) :
  l1 `sublist_of` l2 -> StronglySorted R l2 -> StronglySorted R l1.
Proof.
  induction 1 as [|x l1 l2 Hsub IH|x l1 l2 Hsub IH]; intros Hs.
  - constructor.
  - apply StronglySorted_inv in Hs as [Hs Hall]. constructor; [by apply IH|].
    rewrite Forall_forall in Hall |- *. intros y Hy. apply Hall.
    by eapply elem_of_sublist.
  - apply StronglySorted_inv in Hs as [Hs _]. by apply IH.
Qed.

Lemma StronglySorted_snoc {A} (R : A -> A -> Prop) (l : list A) x :
  StronglySorted R l -> Forall (fun a => R a x) l -> StronglySorted R (l ++ [x]).
Proof.
  induction 1 as [|a l Hs IH Hall]; intros Hx; simpl; [repeat constructor|].
  apply Forall_cons in Hx as [Hax Hx]. constructor; [by apply IH|].
  apply Forall_app. split; [done | by constructor].
Qed.

Lemma StronglySorted_prefix {A} (R : A -> A -> Prop) (l1 l2 : list A) :
  StronglySorted R (l1 ++ l2) -> StronglySorted R l1.
Proof.
  induction l1 as [|a l1 IH]; simpl; intros Hs; [constructor|].
  apply StronglySorted_inv in Hs as [Hs Hall]. constructor; [by apply IH|].
  by apply Forall_app in Hall as [? _].
Qed.

Lemma filter_sublist {A} (p : A -> bool) (l : list A) : List.filter p l `sublist_of` l.
Proof.
  induction l as [|x l IH]; simpl; [constructor|].
  destruct (p x); by constructor.
Qed.

(** The first loop removes entries from the end of the stack only. *)
Lemma popEnded_entries ts evs :
  exists evs1, popEnded ts (map entryOf evs) = map entryOf evs1 /\
               evs1 `sublist_of` evs.
Proof.
  induction evs as [|a evs (evs1 & IH & Hsub)]; simpl.
  - by exists [].
  - rewrite IH. destruct evs1 as [|b evs1]; simpl.
    + destruct (End_ a <? ts)%float.
      * exists []. split; [done|]. apply sublist_nil_l.
      * exists [a]. split; [done|]. by constructor.
    + exists (a :: b :: evs1). split; [done|]. by constructor.
Qed.

(** What stays on the stack for an event: entries of the stack, in their
    order, that end no earlier than the event. *)
Lemma retained_entries evs e :
  exists evs', retained (map entryOf evs) e = map entryOf evs' /\
               evs' `sublist_of` evs /\
               Forall (endsWithin e) evs'.
Proof.
  unfold retained, keepContaining.
  destruct (popEnded_entries (Ts (Event e)) evs) as (evs1 & -> & Hsub).
  rewrite filter_map.
  exists (List.filter (fun a => (End_ e <=? End_ (stackEntry_event (entryOf a)))%float) evs1).
  split; [done|]. split.
  - etrans; [apply filter_sublist | exact Hsub].
  - apply Forall_forall. intros a Ha%list_elem_of_In. by apply filter_In in Ha as [_ ?].
Qed.

(** The stack after any events: entries of some of these events, in their
    order, each ending no later than the ones below it. *)
Lemma stackAfter_entries events :
  exists evs, stackAfter [] events = map entryOf evs /\
              evs `sublist_of` events /\
              StronglySorted (fun a b => endsWithin b a) evs.
Proof.
  induction events as [|e events (evs & Hst & Hsub & Hs)] using rev_ind.
  - exists []. split; [done|]. split; constructor.
  - rewrite stackAfter_snoc, Hst.
    destruct (retained_entries evs e) as (evs' & -> & Hsub' & Hends).
    exists (evs' ++ [e]). split; [by rewrite map_app|]. split.
    + apply sublist_app; [by etrans | done].
    + apply StronglySorted_snoc; [by eapply StronglySorted_sublist | done].
Qed.

(** Frames that start in order and end in reverse order are nested. *)
Lemma chain_nested (l : list eventWithEnd) :
  StronglySorted (fun a b => endsWithin b a) l ->
  StronglySorted (fun a b => (Ts (Event a) <=? Ts (Event b))%float = true) l ->
  StronglySorted (fun a b => contains a b = true) l.
Proof.
  intros Hs Hts. induction l as [|a l IH]; [constructor|].
  apply StronglySorted_inv in Hs as [Hs Hall1].
  apply StronglySorted_inv in Hts as [Hts Hall2].
  constructor; [by apply IH|].
  rewrite Forall_forall in Hall1. rewrite Forall_forall in Hall2.
  apply Forall_forall. intros b Hb.
  unfold contains. rewrite (Hall2 b Hb). by apply Hall1.
Qed.

End StackInvariant.

Section Samples.

(** The sample of the event after [pre]: the stack kept for the event and
    the event itself. *)
Lemma processEvents_sample_at pre e post :
  exists x ancestors,
    ProcessThreadEvents (pre ++ e :: post) !! length pre = Some x /\
    stackSample_names x = map (fun a => Name (Event a)) (ancestors ++ [e]) /\
    stackSample_cats x = map (fun a => Cat (Event a)) (ancestors ++ [e]) /\
    stackSample_stack x =
      map (fun a => frameKey (Name (Event a)) (Cat (Event a))) (ancestors ++ [e]) /\
    stackSample_timeNs x = int64_of_float (Dur (Event e) * 1000)%float /\
    ancestors `sublist_of` pre /\
    StronglySorted (fun a b => endsWithin b a) (ancestors ++ [e]).
Proof.
  destruct (stackAfter_entries pre) as (evs & Hst & Hsub & Hs).
  destruct (retained_entries evs e) as (ancestors & Hret & Hsub' & Hends).
  exists (snd (processEvent (stackAfter [] pre) e)), ancestors.
  split; [apply ProcessThreadEvents_lookup|].
  rewrite processEvent_sample, Hst, Hret. unfold sampleFor. simpl.
  rewrite !map_app, !map_map. simpl.
  split_and!; try done.
  - by etrans.
  - apply StronglySorted_snoc; [by eapply StronglySorted_sublist | done].
Qed.

(** X7.  One sample per event.  Whatever the events of a thread and their
    order, [ProcessThreadEvents] sends as many samples as there are events,
    in the order of the events; the sample of an event has that event as its
    last frame and [int64(Dur * 1000)] as its duration, its three slices
    have the same length, and the frames before the last are those of
    earlier events of the thread, in their order, each of which ends no
    earlier than the event and than the frames after it. *)
Theorem ProcessThreadEvents_samples events :
  length (ProcessThreadEvents events) = length events /\
  forall pre e post,
    events = pre ++ e :: post ->
    exists x ancestors,
      ProcessThreadEvents events !! length pre = Some x /\
      stackSample_names x = map (fun a => Name (Event a)) (ancestors ++ [e]) /\
      stackSample_cats x = map (fun a => Cat (Event a)) (ancestors ++ [e]) /\
      stackSample_stack x =
        map (fun a => frameKey (Name (Event a)) (Cat (Event a))) (ancestors ++ [e]) /\
      stackSample_timeNs x = int64_of_float (Dur (Event e) * 1000)%float /\
      ancestors `sublist_of` pre /\
      StronglySorted (fun a b => endsWithin b a) (ancestors ++ [e]).
Proof.
  split; [apply processEvents_length|].
  intros pre e post ->. apply processEvents_sample_at.
Qed.

(** X8.  Nested stacks.  When the events of a thread start in order, the
    frames of every sample are a chain of nested intervals: each frame is an
    event whose interval contains the interval of every frame after it, the
    event of the sample included. *)
Theorem ProcessThreadEvents_nested pre e post x :
  startsInOrder (pre ++ e :: post) ->
  ProcessThreadEvents (pre ++ e :: post) !! length pre = Some x ->
  exists ancestors,
    stackSample_names x = map (fun a => Name (Event a)) (ancestors ++ [e]) /\
    stackSample_cats x = map (fun a => Cat (Event a)) (ancestors ++ [e]) /\
    ancestors `sublist_of` pre /\
    StronglySorted (fun a b => contains a b = true) (ancestors ++ [e]).
Proof.
  intros Hsorted Hx.
  destruct (processEvents_sample_at pre e post)
    as (x' & ancestors & Hx' & Hn & Hc & _ & _ & Hsub & Hs).
  rewrite Hx in Hx'. injection Hx' as <-.
  exists ancestors. split_and!; try done.
  assert (StronglySorted (fun a b => (Ts (Event a) <=? Ts (Event b))%float = true)
            (ancestors ++ [e])) as Hts.
  { apply (StronglySorted_sublist _ _ (pre ++ [e])).
    - apply sublist_app; [done | reflexivity].
    - unfold startsInOrder in Hsorted.
      replace (pre ++ e :: post) with ((pre ++ [e]) ++ post) in Hsorted
        by (by rewrite <- app_assoc).
      by apply StronglySorted_prefix in Hsorted. }
  by apply chain_nested.
Qed.

End Samples.

(** * The shape of the profile under construction *)

(** What the locked operations never write. *)
Definition restOf (pb : Builder) :=
  (Profile_SampleType (Builder_profile pb), Profile_Sample (Builder_profile pb),
   Profile_TimeNanos (Builder_profile pb), Profile_DurationNanos (Builder_profile pb),
   Profile_PeriodType (Builder_profile pb), Profile_Period (Builder_profile pb)).

(** [idx] is an index into the string table. *)
Definition validString (pb : Builder) (idx : Z) : Prop :=
  0 <= idx < len (stringTable pb).

Definition validValueType (pb : Builder) (vt : ValueType) : Prop :=
  validString pb (ValueType_Type vt) /\ validString pb (ValueType_Unit vt).

Definition validFunction (pb : Builder) (fn : Function) : Prop :=
  Function_SystemName fn = Function_Name fn /\
  validString pb (Function_Name fn) /\ validString pb (Function_Filename fn).

Definition validLocation (pb : Builder) (loc : Location) : Prop :=
  exists fid,
    Location_Line loc = [ {| Line_FunctionId := fid; Line_Line := 0 |} ] /\
    1 <= fid <= len (functions pb).

(** Every reference of the profile points to something it holds. *)
Definition shaped (pb : Builder) : Prop :=
  Forall (validFunction pb) (functions pb) /\
  Forall (validLocation pb) (locations pb) /\
  Forall (validValueType pb) (Profile_SampleType (Builder_profile pb)) /\
  (forall vt, Profile_PeriodType (Builder_profile pb) = Some vt -> validValueType pb vt).

Section Shape.

Implicit Types (pb : Builder) (s name filename : string).

Lemma addStringLocked_rest pb s : restOf (snd (addStringLocked pb s)) = restOf pb.
Proof. unfold addStringLocked. by destruct (stringIndex pb !! s). Qed.

Lemma createFunction_rest pb name filename :
  restOf (snd (createFunction pb name filename)) = restOf pb.
Proof.
  unfold createFunction.
  pose proof (addStringLocked_rest pb name) as R1.
  destruct (addStringLocked pb name) as [fname pb1]; simpl in R1.
  pose proof (addStringLocked_rest pb1 name) as R2.
  destruct (addStringLocked pb1 name) as [sname pb2]; simpl in R2.
  pose proof (addStringLocked_rest pb2 filename) as R3.
  destruct (addStringLocked pb2 filename) as [ffile pb3]; simpl in R3.
  by rewrite <- R1, <- R2, <- R3.
Qed.

Lemma writeSection_rest c pb : restOf (snd (writeSection c pb)) = restOf pb.
Proof.
  destruct c as [s|name filename|name filename]; simpl.
  - apply addStringLocked_rest.
  - unfold GetOrCreateFunction_write.
    destruct (functionIndex pb !! indexKey name filename); [done|].
    apply createFunction_rest.
  - unfold GetOrCreateLocation_write.
    destruct (locationIndex pb !! indexKey name filename); [done|].
    destruct (default 0 (functionIndex pb !! indexKey name filename) =? 0); [|done].
    pose proof (createFunction_rest pb name filename) as R.
    by destruct (createFunction pb name filename).
Qed.

Lemma validString_extends pb pb' idx :
  stringTable pb `prefix_of` stringTable pb' -> validString pb idx -> validString pb' idx.
Proof.
  intros Hp%prefix_length. unfold validString, len. lia.
Qed.

(** A Builder that holds all of [pb] and has the same sample and period
    types is shaped when [pb] is, given that what it adds is. *)
Lemma shaped_extends pb pb' newFunctions newLocations :
  extends pb pb' ->
  functions pb' = functions pb ++ newFunctions ->
  locations pb' = locations pb ++ newLocations ->
  Profile_SampleType (Builder_profile pb') = Profile_SampleType (Builder_profile pb) ->
  Profile_PeriodType (Builder_profile pb') = Profile_PeriodType (Builder_profile pb) ->
  Forall (validFunction pb') newFunctions ->
  Forall (validLocation pb') newLocations ->
  shaped pb -> shaped pb'.
Proof.
  intros [Es _ _ _ _ _] Hf Hl Hst Hpt Hnf Hnl (S1 & S2 & S3 & S4).
  assert (forall idx, validString pb idx -> validString pb' idx) as Hv
    by (intros idx; by apply validString_extends).
  split_and!.
  - rewrite Hf. apply Forall_app. split; [|done].
    eapply Forall_impl; [exact S1|]. intros fn (? & ? & ?). split_and!; auto.
  - rewrite Hl. apply Forall_app. split; [|done].
    eapply Forall_impl; [exact S2|]. intros loc (fid & ? & ?).
    exists fid. split; [done|]. rewrite Hf. unfold len in *. rewrite length_app. lia.
  - rewrite Hst. eapply Forall_impl; [exact S3|]. intros vt [? ?]. split; auto.
  - rewrite Hpt. intros vt Hvt. destruct (S4 vt Hvt). split; auto.
Qed.

Lemma addStringLocked_valid pb s :
  stringsIndexed pb ->
  validString (snd (addStringLocked pb s)) (fst (addStringLocked pb s)).
Proof.
  intros [_ Hit]. unfold addStringLocked, validString.
  destruct (stringIndex pb !! s) as [idx|] eqn:Hs; simpl.
  - destruct (Hit _ _ Hs) as (i & -> & Hi). apply lookup_lt_Some in Hi.
    unfold len. lia.
  - unfold stringTable, len. simpl. rewrite length_app. simpl. lia.
Qed.

Lemma addStringLocked_shaped pb s : shaped pb -> shaped (snd (addStringLocked pb s)).
Proof.
  intros Hs.
  destruct (addStringLocked_frame pb s) as (Hf & Hl & _).
  pose proof (addStringLocked_rest pb s) as [= Hst _ _ _ Hpt _].
  apply (shaped_extends pb _ [] []);
    rewrite ?app_nil_r; try done. apply addStringLocked_extends.
Qed.

Lemma createFunction_shaped pb name filename :
  stringsIndexed pb -> functionIndex pb !! indexKey name filename = None ->
  shaped pb -> shaped (snd (createFunction pb name filename)).
Proof.
  intros H0 Hnone Hs.
  pose proof (createFunction_extends pb name filename Hnone) as E.
  pose proof (createFunction_rest pb name filename) as [= Hst _ _ _ Hpt _].
  destruct (createFunction_functions pb name filename) as (_ & _ & _ & _ & Hl & _).
  assert (exists fn,
            functions (snd (createFunction pb name filename)) = functions pb ++ [fn] /\
            validFunction (snd (createFunction pb name filename)) fn) as (fn & Hf & Hfn).
  { clear E Hst Hpt Hl. unfold createFunction.
    pose proof (addStringLocked_valid pb name H0) as V1.
    pose proof (addStringLocked_stringsIndexed pb name H0) as H1.
    pose proof (addStringLocked_frame pb name) as F1.
    destruct (addStringLocked pb name) as [fname pb1] eqn:A1; simpl in V1, H1, F1.
    pose proof (addStringLocked_extends pb1 name) as [E2 _ _ _ _ _].
    pose proof (addStringLocked_stringsIndexed pb1 name H1) as H2.
    pose proof (addStringLocked_frame pb1 name) as F2.
    assert (fst (addStringLocked pb1 name) = fname) as Hsame.
    { unfold addStringLocked.
      assert (stringIndex pb1 !! name = Some fname) as ->; [|done].
      revert A1. unfold addStringLocked.
      destruct (stringIndex pb !! name) as [idx|] eqn:Hi.
      - by intros [= <- <-].
      - intros [= <- <-]. simpl. apply lookup_insert_eq. }
    destruct (addStringLocked pb1 name) as [sname pb2]; simpl in E2, H2, F2, Hsame.
    pose proof (addStringLocked_valid pb2 filename H2) as V3.
    pose proof (addStringLocked_extends pb2 filename) as [E3 _ _ _ _ _].
    pose proof (addStringLocked_frame pb2 filename) as F3.
    destruct (addStringLocked pb2 filename) as [ffile pb3]; simpl in V3, E3, F3.
    destruct F1 as (F1 & _), F2 as (F2 & _), F3 as (F3 & _).
    eexists. unfold functions in *. simpl. rewrite F3, F2, F1.
    split; [reflexivity|]. unfold validFunction, validString, stringTable in *. simpl.
    apply prefix_length in E2, E3. unfold len in *. split_and!; [done|lia..]. }
  apply (shaped_extends pb _ [fn] []); rewrite ?app_nil_r; try done.
  by constructor.
Qed.

Lemma newLocation_shaped pb key funcId :
  shaped pb -> 1 <= funcId <= len (functions pb) ->
  shaped
    {| Builder_profile :=
         with_Location (Builder_profile pb)
           (Profile_Location (Builder_profile pb) ++
            [ {| Location_Id := len (Profile_Location (Builder_profile pb)) + 1;
                 Location_Line := [ {| Line_FunctionId := funcId; Line_Line := 0 |} ] |} ]);
       stringIndex := stringIndex pb;
       functionIndex := functionIndex pb;
       locationIndex :=
         <[key := len (Profile_Location (Builder_profile pb)) + 1]> (locationIndex pb) |}.
Proof.
  intros (S1 & S2 & S3 & S4) Hfid. split_and!; [exact S1| |exact S3|exact S4].
  unfold locations. simpl. apply Forall_app. split; [exact S2|].
  constructor; [|done]. exists funcId. by split.
Qed.

Lemma writeSection_shaped c pb :
  reachable pb -> shaped pb -> shaped (snd (writeSection c pb)).
Proof.
  intros Hr Hs. pose proof (reachable_invariant _ Hr) as (Hsi & Hfd & Hld & Hnz).
  destruct c as [s|name filename|name filename]; simpl.
  - by apply addStringLocked_shaped.
  - unfold GetOrCreateFunction_write.
    destruct (functionIndex pb !! indexKey name filename) eqn:Hf; [done|].
    by apply createFunction_shaped.
  - unfold GetOrCreateLocation_write.
    destruct (locationIndex pb !! indexKey name filename) eqn:Hl; [done|].
    destruct (functionIndex pb !! indexKey name filename) as [fid|] eqn:Hf; simpl.
    + destruct (Z.eqb_spec fid 0) as [->|_]; [by apply Hnz in Hf|].
      apply newLocation_shaped; [done|].
      destruct (reachable_keyed _ Hr) as [[_ F2] _].
      destruct (F2 _ _ Hf) as (k & fn & f & -> & Hk & _).
      apply lookup_lt_Some in Hk. unfold len. lia.
    + pose proof (createFunction_shaped pb name filename Hsi Hf Hs) as Hs1.
      destruct (createFunction_spec pb name filename Hsi) as (fn & Hfs & _ & _ & Hid).
      destruct (createFunction pb name filename) as [fid pb1]. simpl in *.
      apply newLocation_shaped; [done|].
      rewrite Hfs, Hid. unfold len. rewrite length_app. simpl. lia.
Qed.

Lemma AddString_shaped pb s : shaped pb -> shaped (snd (AddString pb s)).
Proof. rewrite AddString_eq. apply addStringLocked_shaped. Qed.

Lemma AddString_valid pb s :
  stringsIndexed pb -> validString (snd (AddString pb s)) (fst (AddString pb s)).
Proof. rewrite AddString_eq. apply addStringLocked_valid. Qed.

(** Appending a sample type, or setting the period type, once its two
    strings are interned. *)
Lemma valueType_shaped pb s1 s2 :
  stringsIndexed pb -> shaped pb ->
  let '(ty, pb1) := AddString pb s1 in
  let '(un, pb2) := AddString pb1 s2 in
  shaped pb2 /\ stringsIndexed pb2 /\
  validValueType pb2 {| ValueType_Type := ty; ValueType_Unit := un |}.
Proof.
  intros Hsi Hs.
  pose proof (AddString_shaped pb s1 Hs) as S1.
  pose proof (AddString_valid pb s1 Hsi) as V1.
  pose proof (AddString_eq pb s1) as E1.
  pose proof (addStringLocked_stringsIndexed pb s1 Hsi) as I1. rewrite <- E1 in I1.
  destruct (AddString pb s1) as [ty pb1]. simpl in *.
  pose proof (AddString_shaped pb1 s2 S1) as S2.
  pose proof (AddString_valid pb1 s2 I1) as V2.
  pose proof (AddString_extends pb1 s2) as [Es _ _ _ _ _].
  pose proof (AddString_eq pb1 s2) as E2.
  pose proof (addStringLocked_stringsIndexed pb1 s2 I1) as I2. rewrite <- E2 in I2.
  destruct (AddString pb1 s2) as [un pb2]. simpl in *.
  split_and!; try done. split; [by eapply validString_extends | done].
Qed.

Lemma SetSampleTypes_shaped types pb :
  stringsIndexed pb -> shaped pb ->
  shaped (SetSampleTypes pb types) /\ stringsIndexed (SetSampleTypes pb types).
Proof.
  unfold SetSampleTypes. revert pb.
  induction types as [|t types IH]; intros pb Hsi Hs; simpl; [done|].
  pose proof (valueType_shaped pb (fst t) (snd t) Hsi Hs) as H.
  destruct (AddString pb (fst t)) as [ty pb1].
  destruct (AddString pb1 (snd t)) as [un pb2].
  destruct H as ((S1 & S2 & S3 & S4) & I2 & V).
  apply IH; [exact I2|].
  split_and!; [exact S1 | exact S2 | | exact S4].
  simpl. apply Forall_app. split; [exact S3 | by constructor].
Qed.

Lemma SetPeriodType_shaped typeName unit pb :
  stringsIndexed pb -> shaped pb -> shaped (SetPeriodType pb typeName unit).
Proof.
  intros Hsi Hs. unfold SetPeriodType.
  pose proof (valueType_shaped pb typeName unit Hsi Hs) as H.
  destruct (AddString pb typeName) as [ty pb1].
  destruct (AddString pb1 unit) as [un pb2].
  destruct H as ((S1 & S2 & S3 & S4) & I2 & V).
  split_and!; [exact S1 | exact S2 | exact S3 |].
  simpl. by intros vt [= <-].
Qed.

(** Every state of a build is shaped. *)
Lemma reachable_shaped pb : reachable pb -> shaped pb.
Proof.
  induction 1 as [|c pb Hr IH|types pb Hr IH|typeName unit pb Hr IH|n pb _ IH|ss pb _ IH].
  - split_and!; by constructor.
  - by apply writeSection_shaped.
  - by apply SetSampleTypes_shaped; [apply reachable_invariant|].
  - by apply SetPeriodType_shaped; [apply reachable_invariant|].
  - exact IH.
  - exact IH.
Qed.

End Shape.

Section BuilderUse.

Implicit Types (pb : Builder) (cfg : config) (s name filename : string).

(** X9.  Referential integrity.  At every point of a build, also with
    goroutines in the middle of their calls: every Function has its system
    name equal to its name, and its name and file name are indexes of the
    string table; every Location has exactly one Line, with line number 0,
    and the function id of that Line is the id of a Function the profile
    holds; and the type and unit of every sample type and of the period type
    are indexes of the string table. *)
Theorem Builder_references_valid cfg0 cfg :
  reachable (shared cfg0) -> rtc step cfg0 cfg ->
  let pb := shared cfg in
  (forall fn, fn ∈ functions pb ->
     Function_SystemName fn = Function_Name fn /\
     0 <= Function_Name fn < len (stringTable pb) /\
     0 <= Function_Filename fn < len (stringTable pb)) /\
  (forall loc, loc ∈ locations pb ->
     exists fid fn,
       Location_Line loc = [ {| Line_FunctionId := fid; Line_Line := 0 |} ] /\
       findFunction (Build pb) fid = Some fn /\ Function_Id fn = fid) /\
  (forall vt, vt ∈ Profile_SampleType (Build pb) ->
     0 <= ValueType_Type vt < len (stringTable pb) /\
     0 <= ValueType_Unit vt < len (stringTable pb)) /\
  (forall vt, Profile_PeriodType (Build pb) = Some vt ->
     0 <= ValueType_Type vt < len (stringTable pb) /\
     0 <= ValueType_Unit vt < len (stringTable pb)).
Proof.
  intros Hr0 Hsteps pb.
  assert (reachable pb) as Hr by (by eapply steps_reachable).
  pose proof (reachable_invariant _ Hr) as (_ & Hfd & _ & _).
  destruct (reachable_shaped _ Hr) as (S1 & S2 & S3 & S4).
  rewrite Forall_forall in S1. rewrite Forall_forall in S2. rewrite Forall_forall in S3.
  split_and!; [exact S1| |exact S3|exact S4].
  intros loc Hloc. destruct (S2 loc Hloc) as (fid & Hline & Hfid).
  destruct (lookup_lt_is_Some_2 (functions pb) (Z.to_nat (fid - 1))) as [fn Hfn].
  { unfold len in Hfid. lia. }
  exists fid, fn. split; [done|].
  pose proof (findFunction_dense pb _ fn Hfd Hfn) as Hfind.
  pose proof (Hfd _ _ Hfn) as Hid.
  rewrite Z2Nat.id in Hfind, Hid by lia.
  replace (fid - 1 + 1) with fid in * by lia. by split.
Qed.

Lemma GetOrCreateFunction_reachable pb name filename :
  reachable pb -> reachable (snd (GetOrCreateFunction pb name filename)).
Proof.
  intros Hr. unfold GetOrCreateFunction.
  destruct (GetOrCreateFunction_read pb name filename); [done|].
  apply (reachable_write (CallGetOrCreateFunction name filename) pb Hr).
Qed.

Lemma GetOrCreateFunction_handle pb name filename :
  stringsIndexed pb ->
  functionIndex (snd (GetOrCreateFunction pb name filename)) !! indexKey name filename =
  Some (fst (GetOrCreateFunction pb name filename)).
Proof.
  intros Hs. unfold GetOrCreateFunction, GetOrCreateFunction_read, GetOrCreateFunction_write.
  destruct (functionIndex pb !! indexKey name filename) eqn:Hf; simpl; [done|].
  destruct (createFunction_spec pb name filename Hs) as (fn & _ & _ & -> & ->).
  apply lookup_insert_eq.
Qed.

(** The Location of a key and the Function of its line. *)
Lemma location_of_key pb key lid :
  reachable pb -> locationIndex pb !! key = Some lid ->
  exists loc fid,
    findLocation (Build pb) lid = Some loc /\
    Location_Line loc = [ {| Line_FunctionId := fid; Line_Line := 0 |} ] /\
    functionIndex pb !! key = Some fid.
Proof.
  intros Hr Hl.
  pose proof (reachable_invariant _ Hr) as (_ & Hfd & Hld & _).
  destruct (reachable_keyed _ Hr) as [[F1 _] [_ L2]].
  destruct (reachable_shaped _ Hr) as (_ & S2 & _).
  destruct (L2 _ _ Hl) as (k & loc & f & -> & Hk & Hlf & Hkey).
  rewrite Forall_forall in S2.
  destruct (S2 loc) as (fid & Hline & _); [by eapply list_elem_of_lookup_2|].
  exists loc, fid. split; [by apply findLocation_dense|]. split; [done|].
  unfold locationFrame in Hlf. rewrite Hline in Hlf. simpl in Hlf.
  destruct (findFunction (Build pb) fid) as [fn|] eqn:Hfind; [|done].
  apply findFunction_lookup in Hfind as (j & Hj & Hid).
  destruct (F1 _ _ Hj) as (f' & Hf' & Hi). rewrite Hlf in Hf'. injection Hf' as <-.
  rewrite Hkey in Hi. rewrite Hi. f_equal. rewrite <- Hid. symmetry. by apply Hfd.
Qed.

(** X10.  One Function for both operations.  In a state of a build,
    [GetOrCreateFunction] after [GetOrCreateLocation] with the same name and
    file name changes nothing and returns the id of the Function the line of
    the Location refers to; and [GetOrCreateLocation] after
    [GetOrCreateFunction] creates no Function and returns a Location whose
    line refers to the Function returned before. *)
Theorem GetOrCreate_share_function pb name filename :
  reachable pb ->
  (let '(lid, pb1) := GetOrCreateLocation pb name filename in
   let '(fid, pb2) := GetOrCreateFunction pb1 name filename in
   pb2 = pb1 /\
   exists loc,
     findLocation (Build pb1) lid = Some loc /\
     Location_Line loc = [ {| Line_FunctionId := fid; Line_Line := 0 |} ]) /\
  (let '(fid, pb1) := GetOrCreateFunction pb name filename in
   let '(lid, pb2) := GetOrCreateLocation pb1 name filename in
   functions pb2 = functions pb1 /\
   exists loc,
     findLocation (Build pb2) lid = Some loc /\
     Location_Line loc = [ {| Line_FunctionId := fid; Line_Line := 0 |} ]).
Proof.
  intros Hr. split.
  - pose proof (GetOrCreateLocation_reachable pb name filename Hr) as Hr1.
    pose proof (GetOrCreateLocation_handle pb name filename) as Hh.
    destruct (GetOrCreateLocation pb name filename) as [lid pb1]. simpl in *.
    unfold handleOf in Hh. simpl in Hh.
    destruct (location_of_key pb1 _ lid Hr1 Hh) as (loc & fid & Hfind & Hline & Hfi).
    unfold GetOrCreateFunction, GetOrCreateFunction_read. rewrite Hfi.
    split; [done|]. by exists loc.
  - pose proof (GetOrCreateFunction_reachable pb name filename Hr) as Hr1.
    pose proof (GetOrCreateFunction_handle pb name filename
                  (proj1 (reachable_invariant _ Hr))) as Hfi.
    destruct (GetOrCreateFunction pb name filename) as [fid pb1]. simpl in *.
    pose proof (GetOrCreateLocation_reachable pb1 name filename Hr1) as Hr2.
    pose proof (GetOrCreateLocation_handle pb1 name filename) as Hh.
    pose proof (reachable_invariant _ Hr1) as (_ & _ & _ & Hnz).
    assert (functions (snd (GetOrCreateLocation pb1 name filename)) = functions pb1 /\
            functionIndex (snd (GetOrCreateLocation pb1 name filename)) !!
              indexKey name filename = Some fid) as [Hfs Hfi2].
    { unfold GetOrCreateLocation, GetOrCreateLocation_read, GetOrCreateLocation_write.
      destruct (locationIndex pb1 !! indexKey name filename) eqn:Hl; simpl; [done|].
      rewrite Hfi. simpl.
      destruct (Z.eqb_spec fid 0) as [->|_]; [by apply Hnz in Hfi | done]. }
    destruct (GetOrCreateLocation pb1 name filename) as [lid pb2]. simpl in *.
    split; [done|]. unfold handleOf in Hh. simpl in Hh.
    destruct (location_of_key pb2 _ lid Hr2 Hh) as (loc & fid' & Hfind & Hline & Hfi').
    rewrite Hfi2 in Hfi'. injection Hfi' as <-. by exists loc.
Qed.

(** X11.  The string table under concurrency.  From a state of a build and
    for every interleaving of the goroutines' calls: the index a call of
    [AddString] has returned is the place of its string in the string table,
    the empty string has index 0, and two calls have returned the same index
    exactly when they were given the same string. *)
Theorem AddString_index_roundtrip cfg0 cfg :
  reachable (shared cfg0) -> returned cfg0 = [] -> rtc step cfg0 cfg ->
  (forall s idx, (CallAddString s, idx) ∈ returned cfg ->
     0 <= idx /\ stringTable (shared cfg) !! Z.to_nat idx = Some s) /\
  (forall idx, (CallAddString EmptyString, idx) ∈ returned cfg -> idx = 0) /\
  (forall s1 s2 idx1 idx2,
     (CallAddString s1, idx1) ∈ returned cfg ->
     (CallAddString s2, idx2) ∈ returned cfg ->
     (idx1 = idx2 <-> s1 = s2)).
Proof.
  intros Hr0 Hret Hsteps.
  assert (reachable (shared cfg)) as Hr by (by eapply steps_reachable).
  pose proof (reachable_invariant _ Hr) as ((Hti & Hit) & _).
  assert (forall c id, (c, id) ∈ returned cfg -> answered (shared cfg) c id) as Hans.
  { apply (steps_answered cfg0); [done..|]. rewrite Hret. by intros ? ? ?%elem_of_nil. }
  assert (forall s idx, (CallAddString s, idx) ∈ returned cfg ->
            0 <= idx /\ stringTable (shared cfg) !! Z.to_nat idx = Some s) as Hlook.
  { intros s idx Hin%Hans. simpl in Hin.
    destruct (Hit _ _ Hin) as (i & -> & Hi). rewrite Nat2Z.id. split; [lia | done]. }
  split_and!.
  - exact Hlook.
  - intros idx Hin%Hans. simpl in Hin.
    destruct (reachable_extends_NewBuilder _ Hr) as [_ _ _ Esi _ _].
    assert (stringIndex (shared cfg) !! EmptyString = Some 0) as H0.
    { eapply lookup_weaken; [|exact Esi]. done. }
    congruence.
  - intros s1 s2 idx1 idx2 H1 H2. split.
    + intros <-. destruct (Hlook _ _ H1) as [_ L1], (Hlook _ _ H2) as [_ L2]. congruence.
    + intros <-. apply Hans in H1, H2. simpl in *. congruence.
Qed.

End BuilderUse.

(** The sample type, or period type, named [(typeName, unit)] as the strings
    of a Builder spell it. *)
Definition namesValueType (pb : Builder) (t : string * string) (vt : ValueType) : Prop :=
  0 <= ValueType_Type vt /\ 0 <= ValueType_Unit vt /\
  stringTable pb !! Z.to_nat (ValueType_Type vt) = Some (fst t) /\
  stringTable pb !! Z.to_nat (ValueType_Unit vt) = Some (snd t).

Section Setters.

Implicit Types (pb : Builder) (t : string * string).

Lemma namesValueType_extends pb pb' t vt :
  stringTable pb `prefix_of` stringTable pb' ->
  namesValueType pb t vt -> namesValueType pb' t vt.
Proof.
  intros Hp (? & ? & H1 & H2). split_and!; try done; by eapply prefix_lookup_Some.
Qed.

Lemma AddString_lookup pb s :
  stringsIndexed pb ->
  0 <= fst (AddString pb s) /\
  stringTable (snd (AddString pb s)) !! Z.to_nat (fst (AddString pb s)) = Some s.
Proof.
  intros Hs. rewrite AddString_eq. split; [|by apply addStringLocked_lookup].
  by destruct (addStringLocked_valid pb s Hs).
Qed.

(** The two [AddString] calls that name a value type. *)
Lemma AddString_pair pb t :
  builderInvariant pb ->
  let '(ty, pb1) := AddString pb (fst t) in
  let '(un, pb2) := AddString pb1 (snd t) in
  builderInvariant pb2 /\ extends pb pb2 /\
  frameTables pb2 = frameTables pb /\ restOf pb2 = restOf pb /\
  namesValueType pb2 t {| ValueType_Type := ty; ValueType_Unit := un |}.
Proof.
  intros Hinv.
  pose proof (AddString_invariant pb (fst t) Hinv) as I1.
  pose proof (AddString_extends pb (fst t)) as E1.
  pose proof (AddString_frameTables pb (fst t)) as T1.
  pose proof (AddString_lookup pb (fst t) (proj1 Hinv)) as [P1 L1].
  pose proof (addStringLocked_rest pb (fst t)) as R1. rewrite <- AddString_eq in R1.
  destruct (AddString pb (fst t)) as [ty pb1]. simpl in *.
  pose proof (AddString_invariant pb1 (snd t) I1) as I2.
  pose proof (AddString_extends pb1 (snd t)) as E2.
  pose proof (AddString_frameTables pb1 (snd t)) as T2.
  pose proof (AddString_lookup pb1 (snd t) (proj1 I1)) as [P2 L2].
  pose proof (addStringLocked_rest pb1 (snd t)) as R2. rewrite <- AddString_eq in R2.
  destruct (AddString pb1 (snd t)) as [un pb2]. simpl in *.
  split_and!; try done.
  - by eapply extends_trans.
  - congruence.
  - congruence.
  - split_and!; try done. simpl. eapply prefix_lookup_Some; [exact L1|].
    by destruct E2.
Qed.

Lemma SetSampleTypes_spec types pb :
  builderInvariant pb ->
  let pb' := SetSampleTypes pb types in
  exists vts,
    Profile_SampleType (Build pb') = Profile_SampleType (Build pb) ++ vts /\
    Forall2 (namesValueType pb') types vts /\
    stringTable pb `prefix_of` stringTable pb' /\
    frameTables pb' = frameTables pb /\
    Profile_Sample (Build pb') = Profile_Sample (Build pb) /\
    Profile_PeriodType (Build pb') = Profile_PeriodType (Build pb) /\
    Profile_Period (Build pb') = Profile_Period (Build pb).
Proof.
  unfold SetSampleTypes. revert pb.
  induction types as [|t types IH]; intros pb Hinv; simpl.
  - exists []. rewrite app_nil_r. by split_and!.
  - pose proof (AddString_pair pb t Hinv) as H.
    destruct (AddString pb (fst t)) as [ty pb1].
    destruct (AddString pb1 (snd t)) as [un pb2].
    destruct H as (I2 & E2 & T2 & [= R1 R2 R3 R4 R5 R6] & N2).
    match goal with |- context [fold_left _ types ?b] => set (pb3 := b) end.
    assert (tables pb3 = tables pb2) as T3 by reflexivity.
    destruct (IH pb3 (tables_invariant _ _ T3 I2))
      as (vts & Hst & Hn & Hp & Hft & Hs & Hpt & Hpe).
    exists ({| ValueType_Type := ty; ValueType_Unit := un |} :: vts).
    split_and!.
    + rewrite Hst. unfold Build, pb3. simpl. rewrite R1, <- app_assoc. done.
    + constructor; [|done]. eapply namesValueType_extends; [exact Hp | exact N2].
    + etrans; [|exact Hp]. by destruct E2.
    + rewrite Hft. exact T2.
    + rewrite Hs. exact R2.
    + rewrite Hpt. exact R5.
    + rewrite Hpe. exact R6.
Qed.

(** X12.  The two setters.  In a state of a build, [SetSampleTypes] appends
    one sample type for every pair it is given, in order, after those the
    profile has, each with the indexes of its two strings in the string
    table; [SetPeriodType] replaces the period type by one with the indexes
    of its two strings.  Both leave the strings the table had where they
    were, and the Functions, the Locations, the samples and the period as
    they are; each leaves the other's field alone. *)
Theorem setters_name_value_types types typeName unit pb :
  reachable pb ->
  (let pb' := SetSampleTypes pb types in
   exists vts,
     Profile_SampleType (Build pb') = Profile_SampleType (Build pb) ++ vts /\
     Forall2 (namesValueType pb') types vts /\
     stringTable pb `prefix_of` stringTable pb' /\
     frameTables pb' = frameTables pb /\
     Profile_Sample (Build pb') = Profile_Sample (Build pb) /\
     Profile_PeriodType (Build pb') = Profile_PeriodType (Build pb) /\
     Profile_Period (Build pb') = Profile_Period (Build pb)) /\
  (let pb' := SetPeriodType pb typeName unit in
   exists vt,
     Profile_PeriodType (Build pb') = Some vt /\
     namesValueType pb' (typeName, unit) vt /\
     stringTable pb `prefix_of` stringTable pb' /\
     frameTables pb' = frameTables pb /\
     Profile_Sample (Build pb') = Profile_Sample (Build pb) /\
     Profile_SampleType (Build pb') = Profile_SampleType (Build pb) /\
     Profile_Period (Build pb') = Profile_Period (Build pb)).
Proof.
  intros Hr. pose proof (reachable_invariant _ Hr) as Hinv.
  split; [by apply SetSampleTypes_spec|].
  unfold SetPeriodType.
  pose proof (AddString_pair pb (typeName, unit) Hinv) as H. simpl in H.
  destruct (AddString pb typeName) as [ty pb1].
  destruct (AddString pb1 unit) as [un pb2].
  destruct H as (I2 & E2 & T2 & [= R1 R2 R3 R4 R5 R6] & N2).
  eexists. split; [reflexivity|]. split_and!; try done. by destruct E2.
Qed.

End Setters.

(** * The profile [ConvertTrace] returns *)

(** The profile before any sample is aggregated. *)
Definition headerProfile : Profile :=
  {| Profile_SampleType :=
       [ {| ValueType_Type := 1; ValueType_Unit := 2 |};
         {| ValueType_Type := 3; ValueType_Unit := 4 |} ];
     Profile_Sample := [];
     Profile_Location := [];
     Profile_Function := [];
     Profile_StringTable :=
       [ ""; "samples"; "count"; "time"; "nanoseconds"; "cpu" ]%string;
     Profile_TimeNanos := 0;
     Profile_DurationNanos := 0;
     Profile_PeriodType := Some {| ValueType_Type := 5; ValueType_Unit := 4 |};
     Profile_Period := 1000000 |}.

Section Header.

Implicit Types (pb : Builder).

Lemma initialBuilder_profile : Build initialBuilder = headerProfile.
Proof. vm_compute. reflexivity. Qed.

Lemma GetOrCreateLocation_rest pb name filename :
  restOf (snd (GetOrCreateLocation pb name filename)) = restOf pb.
Proof.
  unfold GetOrCreateLocation.
  destruct (GetOrCreateLocation_read pb name filename); [done|].
  apply (writeSection_rest (CallGetOrCreateLocation name filename)).
Qed.

Lemma buildLocationIds_rest pb names cats :
  restOf (snd (buildLocationIds pb names cats)) = restOf pb.
Proof.
  unfold buildLocationIds.
  generalize (replicate (length names) 0). generalize (length names) at 1.
  generalize (seq 0 (length names)). intros l. revert pb.
  induction l as [|i l IH]; intros pb n locationIds; simpl; [done|].
  pose proof (GetOrCreateLocation_rest pb (names !!! i) (cats !!! i)) as R.
  destruct (GetOrCreateLocation pb (names !!! i) (cats !!! i)) as [locId pb1].
  rewrite IH. exact R.
Qed.

Lemma aggregate_rest st sample : restOf (fst (aggregate st sample)) = restOf (fst st).
Proof.
  destruct st as [pb sampleMap]. unfold aggregate.
  destruct (sampleMap !! sampleKey (stackSample_stack sample)); simpl; [done|].
  pose proof (buildLocationIds_rest pb (stackSample_names sample)
                (stackSample_cats sample)) as R.
  by destruct (buildLocationIds pb _ _).
Qed.

Lemma fold_aggregate_rest samples st :
  restOf (fst (fold_left aggregate samples st)) = restOf (fst st).
Proof.
  revert st. induction samples as [|x samples IH]; intros st; simpl; [done|].
  by rewrite IH, aggregate_rest.
Qed.

Lemma fold_aggregate_extends samples st :
  reachable (fst st) ->
  (forall x, In x samples -> exists fs, framesOf x fs) ->
  reachable (fst (fold_left aggregate samples st)) /\
  extends (fst st) (fst (fold_left aggregate samples st)).
Proof.
  revert st. induction samples as [|x samples IH]; intros [pb m] Hr Hxs; simpl.
  - split; [done | apply extends_refl].
  - destruct (Hxs x) as (fs & Hx); [by left|].
    assert (reachable (fst (aggregate (pb, m) x)) /\
            extends pb (fst (aggregate (pb, m) x))) as [Hr1 He1].
    { unfold aggregate. destruct (m !! sampleKey (stackSample_stack x)).
      - split; [done | apply extends_refl].
      - rewrite (buildLocationIds_rev pb x _ Hx).
        destruct (resolveFrames_facts pb fs Hr) as (? & ? & _).
        by destruct (resolveFrames pb fs). }
    destruct (IH (aggregate (pb, m) x) Hr1) as [Hr2 He2].
    { intros x' Hx'. apply Hxs. by right. }
    split; [done | by eapply extends_trans].
Qed.

End Header.

Section Output.

Variable sort_Slice :
  (eventWithEnd -> eventWithEnd -> bool) -> list eventWithEnd -> list eventWithEnd.

Variable sched : list nat.

Lemma interleave_nil {A} (sched' : list nat) : interleave sched' ([] : list (list A)) = [].
Proof. induction sched' as [|i sched' IH]; simpl; [done | exact IH]. Qed.

Lemma fold_group_kept events m :
  fold_left group (kept events) m = fold_left group events m.
Proof.
  revert m. unfold kept. induction events as [|e events IH]; intros m; simpl; [done|].
  destruct (skipped e) eqn:Hs; simpl.
  - rewrite IH. unfold group at 3. by rewrite Hs.
  - by rewrite IH.
Qed.

Lemma groupByThread_kept_events events :
  groupByThread (kept events) = groupByThread events.
Proof. apply fold_group_kept. Qed.

(** X13.  A well-formed profile.  For every trace, every sort and every
    schedule of the workers, the profile [ConvertTrace] returns has the
    sample types samples/count and time/nanoseconds, the period type
    cpu/nanoseconds and the period 1000000, with their six strings at the
    head of the string table; its Functions and Locations have the ids 1, 2,
    ... in order; every Function names strings of the table; every Location
    has one Line, of line number 0, that refers to a Function of the
    profile; and every sample has two values and a stack of at least one
    location id, each the id of a Location of the profile. *)
Theorem ConvertTrace_well_formed traceData :
  let p := ConvertTrace sort_Slice sched traceData in
  (Profile_StringTable headerProfile `prefix_of` Profile_StringTable p /\
   Profile_SampleType p = Profile_SampleType headerProfile /\
   Profile_PeriodType p = Profile_PeriodType headerProfile /\
   Profile_Period p = 1000000 /\
   Profile_TimeNanos p = 0 /\ Profile_DurationNanos p = 0) /\
  (forall (k : nat) fn, Profile_Function p !! k = Some fn ->
     Function_Id fn = Z.of_nat k + 1 /\
     Function_SystemName fn = Function_Name fn /\
     0 <= Function_Name fn < len (Profile_StringTable p) /\
     0 <= Function_Filename fn < len (Profile_StringTable p)) /\
  (forall (k : nat) loc, Profile_Location p !! k = Some loc ->
     Location_Id loc = Z.of_nat k + 1 /\
     exists fid,
       Location_Line loc = [ {| Line_FunctionId := fid; Line_Line := 0 |} ] /\
       1 <= fid <= len (Profile_Function p)) /\
  (forall s, s ∈ Profile_Sample p ->
     length (Sample_Value s) = 2%nat /\
     Sample_LocationId s <> [] /\
     Forall (fun id => 1 <= id <= len (Profile_Location p)) (Sample_LocationId s)).
Proof.
  intros p.
  destruct (ConvertTrace_profile sort_Slice sched traceData) as (samples & Hp).
  pose proof (ConvertTrace_samples sort_Slice sched traceData) as Hsamples.
  fold p in Hp, Hsamples.
  set (pb := fst (aggregated sort_Slice sched traceData)) in *.
  destruct (aggregated_resolved sort_Slice sched traceData) as [Hr Hres].
  fold pb in Hr.
  pose proof (fold_aggregate_rest (received sort_Slice sched traceData) (initialBuilder, ∅))
    as Hrest.
  fold (aggregated sort_Slice sched traceData) in Hrest. fold pb in Hrest.
  destruct (fold_aggregate_extends (received sort_Slice sched traceData) (initialBuilder, ∅))
    as [_ [Es _ _ _ _ _]].
  { apply initialBuilder_reachable. }
  { intros x Hx%list_elem_of_In.
    destruct (received_frames _ _ _ _ Hx) as (ancestors & e & _ & _ & _ & _ & Hf). eauto. }
  fold (aggregated sort_Slice sched traceData) in Es. fold pb in Es.
  pose proof (reachable_invariant _ Hr) as (_ & Hfd & Hld & _).
  destruct (reachable_keyed _ Hr) as [_ [_ L2]].
  destruct (reachable_shaped _ Hr) as (S1 & S2 & _).
  rewrite Forall_forall in S1. rewrite Forall_forall in S2.
  assert (Profile_StringTable p = stringTable pb) as Hst by (by rewrite Hp).
  assert (Profile_Function p = functions pb) as Hfs by (by rewrite Hp).
  assert (Profile_Location p = locations pb) as Hls by (by rewrite Hp).
  split_and!.
  - rewrite Hst. exact Es.
  - rewrite Hp. by injection Hrest.
  - rewrite Hp. by injection Hrest.
  - rewrite Hp. by injection Hrest.
  - rewrite Hp. by injection Hrest.
  - rewrite Hp. by injection Hrest.
  - rewrite Hfs, Hst. intros k fn Hk. split; [by apply Hfd|].
    apply S1. by eapply list_elem_of_lookup_2.
  - rewrite Hls, Hfs. intros k loc Hk. split; [by apply Hld|].
    apply S2. by eapply list_elem_of_lookup_2.
  - rewrite Hsamples, Hls. intros s Hs.
    apply list_elem_of_In, in_map_iff in Hs as ([key d] & <- & Hkd).
    apply list_elem_of_In, elem_of_map_to_list in Hkd.
    destruct (Hres _ _ Hkd) as (x & ancestors & leaf & ids & lid & _ & _ & _ & Hids & Hl & Ha).
    simpl. rewrite Hids. split; [done|]. split; [done|].
    assert (forall f id, handleOf pb f id -> 1 <= id <= len (locations pb)) as Hvalid.
    { intros f id Hh. destruct (L2 _ _ Hh) as (k & loc & _ & -> & Hk & _).
      apply lookup_lt_Some in Hk. unfold len. lia. }
    constructor; [by eapply Hvalid|].
    apply Forall_rev. clear Hids.
    induction Ha as [|f id fs ids' Hh _ IH]; constructor; [by eapply Hvalid | done].
Qed.

(** X14.  Events that are skipped leave no trace.  The profile of a trace is
    the profile of the trace without its events of another phase than [X] or
    with [Dur <= 0]; and when no event is left, it is the header: the two
    sample types, the period type, the period and their six strings, with no
    sample, no Location and no Function. *)
Theorem ConvertTrace_skipped_events traceData :
  ConvertTrace sort_Slice sched traceData =
    ConvertTrace sort_Slice sched {| TraceEvents := kept (TraceEvents traceData) |} /\
  (kept (TraceEvents traceData) = [] ->
   ConvertTrace sort_Slice sched traceData = headerProfile).
Proof.
  assert (sortedThreads sort_Slice {| TraceEvents := kept (TraceEvents traceData) |} =
          sortedThreads sort_Slice traceData) as Hsorted.
  { unfold sortedThreads. simpl. by rewrite groupByThread_kept_events. }
  assert (ConvertTrace sort_Slice sched traceData =
          ConvertTrace sort_Slice sched {| TraceEvents := kept (TraceEvents traceData) |})
    as Heq.
  { unfold ConvertTrace, aggregated, received, workerOutputs. by rewrite Hsorted. }
  split; [exact Heq|]. intros Hnone.
  rewrite Heq, Hnone.
  unfold ConvertTrace, aggregated, received, workerOutputs, sortedThreads, groupByThread.
  simpl. rewrite fmap_empty, map_to_list_empty. simpl.
  rewrite interleave_nil. simpl. rewrite map_to_list_empty. simpl.
  apply initialBuilder_profile.
Qed.

End Output.

(** * The bytes of a varint *)

Section VarintShape.

Lemma continuation_byte_range v : 128 <= Z.lor (byte v) 128 < 256.
Proof.
  assert (0 <= byte v < 256) as Hb by (unfold byte; apply Z.mod_pos_bound; lia).
  assert (0 <= Z.lor (byte v) 128) as Hnn by (apply Z.lor_nonneg; lia).
  assert (Z.log2 (Z.lor (byte v) 128) = 7) as Hlog.
  { rewrite Z.log2_lor by lia. change (Z.log2 128) with 7.
    assert (Z.log2 (byte v) <= 7); [|lia].
    destruct (Z.eq_dec (byte v) 0) as [->|Hne]; [done|].
    assert (Z.log2 (byte v) < 8); [|lia].
    apply Z.log2_lt_pow2; lia. }
  assert (0 < Z.lor (byte v) 128) as Hpos.
  { destruct (Z.eq_dec (Z.lor (byte v) 128) 0) as [E|]; [|lia].
    rewrite E in Hlog. done. }
  pose proof (Z.log2_spec _ Hpos) as Hspec. rewrite Hlog in Hspec.
  change (2 ^ 7) with 128 in Hspec. change (2 ^ Z.succ 7) with 256 in Hspec. lia.
Qed.

Lemma encodeVarint_loop_shape fuel v :
  0 <= v -> Z.log2 v <= Z.of_nat fuel ->
  exists init final,
    encodeVarint_loop fuel v = init ++ [final] /\
    Forall (fun b => 128 <= b < 256) init /\
    0 <= final < 128 /\
    (forall n : nat, v < 2 ^ (7 * (Z.of_nat n + 1)) -> (length init <= n)%nat).
Proof.
  revert v. induction fuel as [|fuel IH]; intros v Hv Hlog; cbn [encodeVarint_loop].
  - assert (v < 128).
    { destruct (Z.eq_dec v 0) as [->|]; [lia|].
      assert (v < 2 ^ 1) by (apply Z.log2_lt_pow2; lia). lia. }
    exists [], v. destruct (byte_small v) as [-> _]; [lia|].
    split; [done|]. split; [constructor|]. split; [lia|]. intros n _. simpl. lia.
  - destruct (Z.leb_spec 128 v) as [Hbig|Hsmall].
    + destruct (IH (Z.shiftr v 7)) as (init & final & -> & Hinit & Hfinal & Hlen).
      * apply Z.shiftr_nonneg. lia.
      * rewrite Z.log2_shiftr by lia. lia.
      * exists (Z.lor (byte v) 128 :: init), final.
        split; [done|]. split; [|split; [done|]].
        -- constructor; [apply continuation_byte_range | done].
        -- intros n Hn. destruct n as [|n].
           ++ change (2 ^ (7 * (Z.of_nat 0 + 1))) with 128 in Hn. lia.
           ++ simpl. apply le_n_S, Hlen.
              rewrite Z.shiftr_div_pow2 by lia.
              apply Z.div_lt_upper_bound; [lia|].
              rewrite <- Z.pow_add_r by lia.
              replace (7 + 7 * (Z.of_nat n + 1)) with (7 * (Z.of_nat (S n) + 1)) by lia.
              done.
    + exists [], v. destruct (byte_small v) as [-> _]; [lia|].
      split; [done|]. split; [constructor|]. split; [lia|]. intros n _. simpl. lia.
Qed.

(** X15.  The varint encoding.  For every value that is not negative,
    [encodeVarint] writes at least one byte; every byte but the last has its
    high bit set and the last has not, so the encoding ends where it ends
    whatever follows; a value below 128 is its own single byte, a [uint64]
    takes at most ten bytes; and reading the bytes back gives the value and
    what follows them. *)
Theorem encodeVarint_shape v :
  0 <= v ->
  exists init final,
    encodeVarint v = init ++ [final] /\
    Forall (fun b => 128 <= b < 256) init /\
    0 <= final < 128 /\
    (v < 128 -> encodeVarint v = [v]) /\
    (v < 2 ^ 64 -> (length (encodeVarint v) <= 10)%nat) /\
    (forall rest, decodeVarint (encodeVarint v ++ rest) = Some (v, rest)).
Proof.
  intros Hv.
  destruct (encodeVarint_loop_shape (Z.to_nat (Z.log2 v)) v Hv)
    as (init & final & Henc & Hinit & Hfinal & Hlen).
  { rewrite Z2Nat.id; [lia | apply Z.log2_nonneg]. }
  fold (encodeVarint v) in Henc.
  exists init, final. split; [done|]. split; [done|]. split; [done|]. split_and!.
  - intros Hsmall. specialize (Hlen 0%nat). simpl in Hlen.
    destruct init as [|b init]; [|simpl in Hlen; lia].
    simpl in Henc. rewrite Henc. f_equal.
    pose proof (decodeVarint_encodeVarint v [] Hv) as Hd.
    rewrite Henc in Hd. cbn [app decodeVarint] in Hd.
    destruct (Z.testbit final 7); [done|]. injection Hd as Hd. done.
  - intros H64. rewrite Henc, length_app. simpl.
    specialize (Hlen 9%nat). simpl in Hlen. 
    assert (v < 2 ^ 70) by (assert (2 ^ 64 < 2 ^ 70) by (by apply Z.pow_lt_mono_r); lia).
    specialize (Hlen H). lia.
  - intros rest. by apply decodeVarint_encodeVarint.
Qed.

End VarintShape.

(** * Reading a profile back

    A decoder for the messages [Encode] writes, in the way of protobuf: the
    fields of a message are read in order, a repeated field adds to its
    list, a scalar field sets its value, a field that is absent leaves the
    zero value, and a field of an unknown number is skipped. *)

Definition string_of_bytes (bs : list Z) : string :=
  string_of_list_ascii (map (fun b => ascii_of_nat (Z.to_nat b)) bs).

(** A packed field: varints one after the other. *)
Fixpoint decodePacked (fuel : nat) (bs : list Z) : option (list Z) :=
  match bs with
  | [] => Some []
  | _ :: _ =>
      match fuel with
      | O => None
      | S fuel' =>
          match decodeVarint bs with
          | Some (v, rest) => option_map (cons v) (decodePacked fuel' rest)
          | None => None
          end
      end
  end.

Fixpoint foldFields {A} (step : A -> field -> option A) (fs : list field) (a : A)
  : option A :=
  match fs with
  | [] => Some a
  | f :: fs' =>
      match step a f with
      | Some a' => foldFields step fs' a'
      | None => None
      end
  end.

Definition decodeMessage {A} (step : A -> field -> option A) (init : A) (bs : list Z)
  : option A :=
  match readMessage bs with
  | Some fs => foldFields step fs init
  | None => None
  end.

Definition valueTypeField (vt : ValueType) (f : field) : option ValueType :=
  match f with
  | (1, Varint v) => Some {| ValueType_Type := int64 v; ValueType_Unit := ValueType_Unit vt |}
  | (2, Varint v) => Some {| ValueType_Type := ValueType_Type vt; ValueType_Unit := int64 v |}
  | _ => Some vt
  end.

Definition decodeValueType : list Z -> option ValueType :=
  decodeMessage valueTypeField {| ValueType_Type := 0; ValueType_Unit := 0 |}.

Definition sampleField (s : Sample) (f : field) : option Sample :=
  match f with
  | (1, Bytes b) =>
      match decodePacked (length b) b with
      | Some ids => Some {| Sample_LocationId := Sample_LocationId s ++ ids;
                            Sample_Value := Sample_Value s |}
      | None => None
      end
  | (2, Bytes b) =>
      match decodePacked (length b) b with
      | Some vs => Some {| Sample_LocationId := Sample_LocationId s;
                           Sample_Value := Sample_Value s ++ map int64 vs |}
      | None => None
      end
  | _ => Some s
  end.

Definition decodeSample : list Z -> option Sample :=
  decodeMessage sampleField {| Sample_LocationId := []; Sample_Value := [] |}.

Definition lineField (line : Line) (f : field) : option Line :=
  match f with
  | (1, Varint v) => Some {| Line_FunctionId := v; Line_Line := Line_Line line |}
  | (2, Varint v) => Some {| Line_FunctionId := Line_FunctionId line; Line_Line := int64 v |}
  | _ => Some line
  end.

Definition decodeLine : list Z -> option Line :=
  decodeMessage lineField {| Line_FunctionId := 0; Line_Line := 0 |}.

Definition locationField (loc : Location) (f : field) : option Location :=
  match f with
  | (1, Varint v) => Some {| Location_Id := v; Location_Line := Location_Line loc |}
  | (4, Bytes b) =>
      match decodeLine b with
      | Some line => Some {| Location_Id := Location_Id loc;
                             Location_Line := Location_Line loc ++ [line] |}
      | None => None
      end
  | _ => Some loc
  end.

Definition decodeLocation : list Z -> option Location :=
  decodeMessage locationField {| Location_Id := 0; Location_Line := [] |}.

Definition functionField (fn : Function) (f : field) : option Function :=
  match f with
  | (1, Varint v) =>
      Some {| Function_Id := v; Function_Name := Function_Name fn;
              Function_SystemName := Function_SystemName fn;
              Function_Filename := Function_Filename fn |}
  | (2, Varint v) =>
      Some {| Function_Id := Function_Id fn; Function_Name := int64 v;
              Function_SystemName := Function_SystemName fn;
              Function_Filename := Function_Filename fn |}
  | (3, Varint v) =>
      Some {| Function_Id := Function_Id fn; Function_Name := Function_Name fn;
              Function_SystemName := int64 v;
              Function_Filename := Function_Filename fn |}
  | (4, Varint v) =>
      Some {| Function_Id := Function_Id fn; Function_Name := Function_Name fn;
              Function_SystemName := Function_SystemName fn;
              Function_Filename := int64 v |}
  | _ => Some fn
  end.

Definition decodeFunction : list Z -> option Function :=
  decodeMessage functionField
    {| Function_Id := 0; Function_Name := 0; Function_SystemName := 0;
       Function_Filename := 0 |}.

Definition with_TimeNanos (p : Profile) (n : Z) : Profile :=
  {| Profile_SampleType := Profile_SampleType p;
     Profile_Sample := Profile_Sample p;
     Profile_Location := Profile_Location p;
     Profile_Function := Profile_Function p;
     Profile_StringTable := Profile_StringTable p;
     Profile_TimeNanos := n;
     Profile_DurationNanos := Profile_DurationNanos p;
     Profile_PeriodType := Profile_PeriodType p;
     Profile_Period := Profile_Period p |}.

Definition with_DurationNanos (p : Profile) (n : Z) : Profile :=
  {| Profile_SampleType := Profile_SampleType p;
     Profile_Sample := Profile_Sample p;
     Profile_Location := Profile_Location p;
     Profile_Function := Profile_Function p;
     Profile_StringTable := Profile_StringTable p;
     Profile_TimeNanos := Profile_TimeNanos p;
     Profile_DurationNanos := n;
     Profile_PeriodType := Profile_PeriodType p;
     Profile_Period := Profile_Period p |}.

Definition profileField (p : Profile) (f : field) : option Profile :=
  match f with
  | (1, Bytes b) =>
      option_map (fun vt => with_SampleType p (Profile_SampleType p ++ [vt]))
        (decodeValueType b)
  | (2, Bytes b) =>
      option_map (fun s => with_Sample p (Profile_Sample p ++ [s])) (decodeSample b)
  | (4, Bytes b) =>
      option_map (fun loc => with_Location p (Profile_Location p ++ [loc]))
        (decodeLocation b)
  | (5, Bytes b) =>
      option_map (fun fn => with_Function p (Profile_Function p ++ [fn]))
        (decodeFunction b)
  | (6, Bytes b) =>
      Some (with_StringTable p (Profile_StringTable p ++ [string_of_bytes b]))
  | (9, Varint v) => Some (with_TimeNanos p (int64 v))
  | (10, Varint v) => Some (with_DurationNanos p (int64 v))
  | (11, Bytes b) => option_map (fun vt => with_PeriodType p (Some vt)) (decodeValueType b)
  | (12, Varint v) => Some (with_Period p (int64 v))
  | _ => Some p
  end.

Definition emptyProfile : Profile :=
  {| Profile_SampleType := [];
     Profile_Sample := [];
     Profile_Location := [];
     Profile_Function := [];
     Profile_StringTable := [];
     Profile_TimeNanos := 0;
     Profile_DurationNanos := 0;
     Profile_PeriodType := None;
     Profile_Period := 0 |}.

Definition decodeProfile : list Z -> option Profile :=
  decodeMessage profileField emptyProfile.

(** The values of the Go types of the fields. *)
Definition isInt64 (x : Z) : Prop := - 2 ^ 63 <= x < 2 ^ 63.

Definition isUint64 (x : Z) : Prop := 0 <= x < 2 ^ 64.

Definition typedValueType (vt : ValueType) : Prop :=
  isInt64 (ValueType_Type vt) /\ isInt64 (ValueType_Unit vt).

Definition typedSample (s : Sample) : Prop :=
  Forall isUint64 (Sample_LocationId s) /\ Forall isInt64 (Sample_Value s).

Definition typedLine (line : Line) : Prop :=
  isUint64 (Line_FunctionId line) /\ isInt64 (Line_Line line).

Definition typedLocation (loc : Location) : Prop :=
  isUint64 (Location_Id loc) /\ Forall typedLine (Location_Line loc).

Definition typedFunction (fn : Function) : Prop :=
  isUint64 (Function_Id fn) /\ isInt64 (Function_Name fn) /\
  isInt64 (Function_SystemName fn) /\ isInt64 (Function_Filename fn).

Definition typedProfile (p : Profile) : Prop :=
  Forall typedValueType (Profile_SampleType p) /\
  Forall typedSample (Profile_Sample p) /\
  Forall typedLocation (Profile_Location p) /\
  Forall typedFunction (Profile_Function p) /\
  isInt64 (Profile_TimeNanos p) /\
  isInt64 (Profile_DurationNanos p) /\
  (forall vt, Profile_PeriodType p = Some vt -> typedValueType vt) /\
  isInt64 (Profile_Period p).

Section Decoding.

Lemma int64_uint64 x : isInt64 x -> int64 (uint64 x) = x.
Proof.
  intros Hx. rewrite (int64_congr (uint64 x) x).
  - apply int64_small. exact Hx.
  - unfold uint64. apply Z.mod_mod. lia.
Qed.

Lemma string_of_bytes_of_string s : string_of_bytes (bytes_of_string s) = s.
Proof.
  unfold string_of_bytes, bytes_of_string. rewrite map_map.
  rewrite (map_ext _ id), map_id; [apply string_of_list_ascii_of_string|].
  intros c. by rewrite Nat2Z.id, ascii_nat_embedding.
Qed.

Lemma decodePacked_packed vs fuel :
  Forall (fun v => 0 <= v) vs -> (length (packed vs) <= fuel)%nat ->
  decodePacked fuel (packed vs) = Some vs.
Proof.
  intros Hvs. revert fuel. induction Hvs as [|v vs Hv _ IH]; intros fuel Hfuel.
  - by destruct fuel.
  - unfold packed in *. cbn [map concat] in *.
    pose proof (decodeVarint_encodeVarint v (concat (map encodeVarint vs)) Hv) as Hd.
    pose proof (decodeVarint_shorter _ _ _ Hd) as Hlen.
    destruct (encodeVarint v ++ concat (map encodeVarint vs)) as [|b bs] eqn:Hbs;
      [simpl in Hlen; lia|].
    destruct fuel as [|fuel]; [simpl in Hfuel; lia|].
    cbn [decodePacked]. rewrite Hd, IH; [done|]. simpl in Hfuel, Hlen. lia.
Qed.

Lemma foldFields_app {A} (step : A -> field -> option A) fs1 fs2 a :
  foldFields step (fs1 ++ fs2) a =
  match foldFields step fs1 a with
  | Some a' => foldFields step fs2 a'
  | None => None
  end.
Proof.
  revert a. induction fs1 as [|f fs1 IH]; intros a; simpl; [done|].
  destruct (step a f); [apply IH | done].
Qed.

(** A run of fields of one number, each of which adds an element. *)
Lemma foldFields_repeated {A B} (step : A -> field -> option A) (num : Z)
    (enc : B -> list Z) (put : A -> B -> A) (l : list B) a :
  (forall a x, In x l -> step a (num, Bytes (enc x)) = Some (put a x)) ->
  foldFields step (map (fun x => (num, Bytes (enc x))) l) a = Some (fold_left put l a).
Proof.
  revert a. induction l as [|x l IH]; intros a Hstep; simpl; [done|].
  rewrite Hstep by (by left). apply IH. intros a' x' Hx'. apply Hstep. by right.
Qed.

Lemma decodeValueType_encodeValueType vt :
  typedValueType vt -> decodeValueType (encodeValueType vt) = Some vt.
Proof.
  intros [Ht Hu]. unfold decodeValueType, decodeMessage. rewrite read_ValueType. simpl.
  rewrite !int64_uint64 by done. by destruct vt.
Qed.

Lemma read_bytes_last tag msg :
  0 <= tag < 128 -> Z.land tag 7 = 2 ->
  readMessage (tag :: encodeVarint (len msg) ++ msg) = Some [(Z.shiftr tag 3, Bytes msg)].
Proof.
  intros Htag Hkind.
  pose proof (read_bytes_field tag msg [] [] Htag Hkind eq_refl) as H.
  by rewrite app_nil_r in H.
Qed.

Lemma read_Sample s :
  readMessage (encodeSample s) =
  Some ((if 0 <? len (Sample_LocationId s)
         then [(1, Bytes (packed (Sample_LocationId s)))] else []) ++
        (if 0 <? len (Sample_Value s)
         then [(2, Bytes (packed (map uint64 (Sample_Value s))))] else [])).
Proof.
  unfold encodeSample, appendMessage.
  change (encodeTag 1 2) with [10]. change (encodeTag 2 2) with [18].
  destruct (0 <? len (Sample_LocationId s)), (0 <? len (Sample_Value s)); cbn [app].
  - rewrite <- app_assoc. cbn [app].
    apply (read_bytes_field 10); [lia|reflexivity|].
    apply (read_bytes_last 18); [lia|reflexivity].
  - apply (read_bytes_last 10); [lia|reflexivity].
  - apply (read_bytes_last 18); [lia|reflexivity].
  - reflexivity.
Qed.

Lemma len_zero {A} (l : list A) : (0 <? len l) = false -> l = [].
Proof. unfold len. destruct l; [done|]. simpl. intros H%Z.ltb_ge. lia. Qed.

Lemma decodeSample_encodeSample s :
  typedSample s -> decodeSample (encodeSample s) = Some s.
Proof.
  intros [Hids Hvs]. unfold decodeSample, decodeMessage. rewrite read_Sample.
  assert (decodePacked (length (packed (Sample_LocationId s))) (packed (Sample_LocationId s)) =
          Some (Sample_LocationId s)) as Hd1.
  { apply decodePacked_packed; [|done].
    eapply Forall_impl; [exact Hids|]. by intros v [? _]. }
  assert (decodePacked (length (packed (map uint64 (Sample_Value s))))
            (packed (map uint64 (Sample_Value s))) =
          Some (map uint64 (Sample_Value s))) as Hd2.
  { apply decodePacked_packed; [|done].
    apply Forall_forall. intros v Hv%list_elem_of_In.
    apply in_map_iff in Hv as (x & <- & _). apply uint64_nonneg. }
  assert (map int64 (map uint64 (Sample_Value s)) = Sample_Value s) as Hvals.
  { rewrite map_map. rewrite <- (map_id (Sample_Value s)) at 2.
    apply map_ext_in. intros v Hv. apply int64_uint64.
    rewrite Forall_forall in Hvs. by apply Hvs, list_elem_of_In. }
  destruct (0 <? len (Sample_LocationId s)) eqn:H1,
           (0 <? len (Sample_Value s)) eqn:H2; cbn [app foldFields sampleField
             Sample_LocationId Sample_Value].
  - rewrite Hd1. cbn [foldFields sampleField Sample_LocationId Sample_Value].
    rewrite Hd2, Hvals. by destruct s.
  - rewrite Hd1. apply len_zero in H2. destruct s; simpl in *. by rewrite H2.
  - rewrite Hd2, Hvals. apply len_zero in H1. destruct s; simpl in *. by rewrite H1.
  - apply len_zero in H1, H2. destruct s; simpl in *. by rewrite H1, H2.
Qed.

Lemma decodeLine_encodeLine line :
  typedLine line -> decodeLine (encodeLine line) = Some line.
Proof.
  intros [[Hf _] Hl]. unfold decodeLine, decodeMessage. rewrite read_Line by done.
  unfold optionalVarint. destruct (Z.eqb_spec (Line_Line line) 0) as [H0|_]; simpl.
  - destruct line; simpl in *. by rewrite H0.
  - rewrite int64_uint64 by done. by destruct line.
Qed.

Lemma fold_left_snoc {A} (l : list A) acc :
  fold_left (fun acc x => acc ++ [x]) l acc = acc ++ l.
Proof.
  revert acc. induction l as [|x l IH]; intros acc; simpl.
  - by rewrite app_nil_r.
  - by rewrite IH, <- app_assoc.
Qed.

Lemma fold_left_lines id (l acc : list Line) :
  fold_left (fun loc' line => {| Location_Id := Location_Id loc';
                                 Location_Line := Location_Line loc' ++ [line] |})
    l {| Location_Id := id; Location_Line := acc |} =
  {| Location_Id := id; Location_Line := acc ++ l |}.
Proof.
  revert acc. induction l as [|x l IH]; intros acc; cbn [fold_left Location_Id Location_Line].
  - by rewrite app_nil_r.
  - by rewrite IH, <- app_assoc.
Qed.

Lemma decodeLocation_encodeLocation loc :
  typedLocation loc -> decodeLocation (encodeLocation loc) = Some loc.
Proof.
  intros [[Hid _] Hlines]. unfold decodeLocation, decodeMessage.
  rewrite read_Location by done. cbn [foldFields locationField Location_Line Location_Id].
  rewrite (foldFields_repeated locationField 4 encodeLine
             (fun loc' line => {| Location_Id := Location_Id loc';
                                  Location_Line := Location_Line loc' ++ [line] |})).
  - rewrite fold_left_lines. by destruct loc.
  - intros loc' line Hin. cbn [locationField].
    rewrite decodeLine_encodeLine; [done|].
    rewrite Forall_forall in Hlines. by apply Hlines, list_elem_of_In.
Qed.

Lemma decodeFunction_encodeFunction fn :
  typedFunction fn -> decodeFunction (encodeFunction fn) = Some fn.
Proof.
  intros ([Hid _] & Hn & Hs & Hf). unfold decodeFunction, decodeMessage.
  rewrite read_Function by done. simpl.
  rewrite !int64_uint64 by done. by destruct fn.
Qed.

Lemma fold_SampleType l p :
  fold_left (fun p vt => with_SampleType p (Profile_SampleType p ++ [vt])) l p =
  with_SampleType p (Profile_SampleType p ++ l).
Proof.
  revert p. induction l as [|x l IH]; intros p; cbn [fold_left].
  - rewrite app_nil_r. by destruct p.
  - rewrite IH. destruct p; unfold with_SampleType; cbn. by rewrite <- app_assoc.
Qed.

Lemma fold_Sample l p :
  fold_left (fun p s => with_Sample p (Profile_Sample p ++ [s])) l p =
  with_Sample p (Profile_Sample p ++ l).
Proof.
  revert p. induction l as [|x l IH]; intros p; cbn [fold_left].
  - rewrite app_nil_r. by destruct p.
  - rewrite IH. destruct p; unfold with_Sample; cbn. by rewrite <- app_assoc.
Qed.

Lemma fold_Location l p :
  fold_left (fun p loc => with_Location p (Profile_Location p ++ [loc])) l p =
  with_Location p (Profile_Location p ++ l).
Proof.
  revert p. induction l as [|x l IH]; intros p; cbn [fold_left].
  - rewrite app_nil_r. by destruct p.
  - rewrite IH. destruct p; unfold with_Location; cbn. by rewrite <- app_assoc.
Qed.

Lemma fold_Function l p :
  fold_left (fun p fn => with_Function p (Profile_Function p ++ [fn])) l p =
  with_Function p (Profile_Function p ++ l).
Proof.
  revert p. induction l as [|x l IH]; intros p; cbn [fold_left].
  - rewrite app_nil_r. by destruct p.
  - rewrite IH. destruct p; unfold with_Function; cbn. by rewrite <- app_assoc.
Qed.

Lemma fold_StringTable l p :
  fold_left (fun p s => with_StringTable p (Profile_StringTable p ++ [s])) l p =
  with_StringTable p (Profile_StringTable p ++ l).
Proof.
  revert p. induction l as [|x l IH]; intros p; cbn [fold_left].
  - rewrite app_nil_r. by destruct p.
  - rewrite IH. destruct p; unfold with_StringTable; cbn. by rewrite <- app_assoc.
Qed.

Lemma optional_field step_set num v (p : Profile) :
  isInt64 v ->
  (forall p u, profileField p (num, Varint u) = Some (step_set p (int64 u))) ->
  foldFields profileField (optionalVarint num v) p = Some (if v =? 0 then p else step_set p v).
Proof.
  intros Hv Hstep. unfold optionalVarint. destruct (v =? 0); [done|].
  cbn [foldFields]. rewrite Hstep. by rewrite int64_uint64.
Qed.

End Decoding.

Lemma decodeProfile_Encode p :
  typedProfile p -> decodeProfile (Encode p) = Some p.
Proof.
  intros (Hst & Hss & Hls & Hfs & Ht & Hd & Hpt & Hper).
  unfold decodeProfile, decodeMessage. rewrite readMessage_Encode. unfold topLevelFields.
  rewrite Forall_forall in Hst. rewrite Forall_forall in Hss.
  rewrite Forall_forall in Hls. rewrite Forall_forall in Hfs.
  rewrite foldFields_app,
    (foldFields_repeated profileField 1 encodeValueType
       (fun p vt => with_SampleType p (Profile_SampleType p ++ [vt]))), fold_SampleType.
  2:{ intros q x Hx. cbn [profileField].
      by rewrite decodeValueType_encodeValueType by (by apply Hst, list_elem_of_In). }
  rewrite foldFields_app,
    (foldFields_repeated profileField 2 encodeSample
       (fun p s => with_Sample p (Profile_Sample p ++ [s]))), fold_Sample.
  2:{ intros q x Hx. cbn [profileField].
      by rewrite decodeSample_encodeSample by (by apply Hss, list_elem_of_In). }
  rewrite foldFields_app,
    (foldFields_repeated profileField 4 encodeLocation
       (fun p loc => with_Location p (Profile_Location p ++ [loc]))), fold_Location.
  2:{ intros q x Hx. cbn [profileField].
      by rewrite decodeLocation_encodeLocation by (by apply Hls, list_elem_of_In). }
  rewrite foldFields_app,
    (foldFields_repeated profileField 5 encodeFunction
       (fun p fn => with_Function p (Profile_Function p ++ [fn]))), fold_Function.
  2:{ intros q x Hx. cbn [profileField].
      by rewrite decodeFunction_encodeFunction by (by apply Hfs, list_elem_of_In). }
  rewrite foldFields_app,
    (foldFields_repeated profileField 6 bytes_of_string
       (fun p s => with_StringTable p (Profile_StringTable p ++ [s]))), fold_StringTable.
  2:{ intros q x Hx. cbn [profileField]. by rewrite string_of_bytes_of_string. }
  rewrite foldFields_app, (optional_field with_TimeNanos) by done.
  rewrite foldFields_app, (optional_field with_DurationNanos) by done.
  rewrite foldFields_app.
  assert (forall q,
            foldFields profileField
              match Profile_PeriodType p with
              | Some pt => [(11, Bytes (encodeValueType pt))]
              | None => []
              end q =
            Some match Profile_PeriodType p with
                 | Some pt => with_PeriodType q (Some pt)
                 | None => q
                 end) as ->.
  { intros q. destruct (Profile_PeriodType p) as [pt|]; [|done].
    cbn [foldFields profileField].
    by rewrite decodeValueType_encodeValueType by (by apply Hpt). }
  rewrite (optional_field with_Period) by done.
  f_equal. destruct p as [st ss ls fs tbl t d pt per]; cbn in *.
  destruct (Z.eqb_spec t 0) as [->|_], (Z.eqb_spec d 0) as [->|_],
    (Z.eqb_spec per 0) as [->|_], pt; reflexivity.
Qed.

(** X16.  Nothing is lost in the encoding.  For every profile whose fields
    hold values of their Go types, reading the bytes [Encode] writes field
    by field, as a protobuf reader of the pprof layout does, gives the
    profile back, whatever it holds: empty stacks, zero scalars and an
    absent period type included.  So no two such profiles have the same
    bytes. *)
Theorem Encode_loses_nothing p :
  typedProfile p ->
  decodeProfile (Encode p) = Some p /\
  forall q, typedProfile q -> Encode q = Encode p -> q = p.
Proof.
  intros Hp. split; [by apply decodeProfile_Encode|].
  intros q Hq Heq. apply decodeProfile_Encode in Hq. rewrite Heq in Hq.
  rewrite decodeProfile_Encode in Hq by done. by injection Hq.
Qed.

(** * The threads of a trace *)

(** The events of a thread: the events the filter keeps whose [tid] field
    converts to [tid], in the order of the trace, each with its end. *)
Definition onThread (tid : Z) (events : list TraceEvent) : list eventWithEnd :=
  map (fun e => {| Event := e; End_ := (Ts e + Dur e)%float |})
    (List.filter (fun e => bool_decide (getTid (Tid e) = tid)) (kept events)).

Section Threads.

Implicit Types (events : list TraceEvent) (m : gmap Z (list eventWithEnd)).

Lemma fold_group_lookup events m tid :
  fold_left group events m !! tid =
  match m !! tid, onThread tid events with
  | None, [] => None
  | o, l => Some (default [] o ++ l)
  end.
Proof.
  revert m. induction events as [|e events IH]; intros m.
  - simpl. destruct (m !! tid); simpl; [by rewrite app_nil_r | done].
  - cbn [fold_left]. rewrite IH. unfold group, onThread, kept. cbn [List.filter].
    destruct (skipped e) eqn:Hs; cbn [negb]; [done|].
    cbn [List.filter].
    destruct (decide (getTid (Tid e) = tid)) as [Ht|Ht].
    + rewrite bool_decide_eq_true_2 by done. rewrite Ht, lookup_insert_eq.
      cbn [map]. rewrite lookup_total_alt.
      destruct (m !! tid) as [l0|]; cbn [default from_option app].
      * unfold id. by rewrite <- app_assoc.
      * done.
    + rewrite bool_decide_eq_false_2 by done. by rewrite lookup_insert_ne.
Qed.

Lemma groupByThread_lookup events tid :
  groupByThread events !! tid =
  match onThread tid events with
  | [] => None
  | l => Some l
  end.
Proof.
  unfold groupByThread. change (fold_left _ events ∅) with (fold_left group events ∅).
  rewrite fold_group_lookup, lookup_empty. by destruct (onThread tid events).
Qed.

(** Off NaN, [lessTs] is a transitive ordering in the sense of package
    [sort]. *)
Lemma lessTs_strictWeakOrder (l : list eventWithEnd) :
  Forall (fun a => is_nan (Ts (Event a)) = false) l -> strictWeakOrder lessTs l.
Proof.
  intros Hnan. rewrite Forall_forall in Hnan.
  assert (forall a, In a l -> (Ts (Event a) <=? Ts (Event a))%float = true) as Hrefl.
  { intros a Ha. by apply not_nan_refl, Hnan, list_elem_of_In. }
  assert (forall a b, In a l -> In b l -> lessTs a b = false ->
                      (Ts (Event b) <=? Ts (Event a))%float = true) as Hle.
  { intros a b Ha Hb Hab.
    destruct (Ts (Event b) <=? Ts (Event a))%float eqn:E; [done|].
    apply not_fle_flt in E; [|by apply Hrefl..]. unfold lessTs in Hab. congruence. }
  unfold lessTs. split_and!.
  - intros a Ha. by apply fle_not_flt, Hrefl.
  - intros a b c _ _ _ Hab Hbc. eapply flt_fle_trans; [exact Hab|]. by apply flt_fle.
  - intros a b c Ha Hb Hc Hab Hbc. apply fle_not_flt.
    apply (fle_trans _ (Ts (Event b))); [by apply (Hle b c) | by apply (Hle a b)].
Qed.

(** Off NaN, a slice that [sort.Slice] has sorted by [lessTs] starts in
    order. *)
Lemma sorted_startsInOrder (l : list eventWithEnd) :
  Forall (fun a => is_nan (Ts (Event a)) = false) l ->
  Sorted (fun a b => lessTs b a = false) l -> startsInOrder l.
Proof.
  intros Hnan Hs. unfold startsInOrder. apply Sorted_StronglySorted.
  - intros a b c. apply fle_trans.
  - induction Hs as [|a l Hs IH Hhd]; [constructor|].
    apply Forall_cons in Hnan as [Ha Hl]. constructor; [by apply IH|].
    destruct Hhd as [|b l' Hab]; constructor.
    apply Forall_cons in Hl as [Hb _].
    destruct (Ts (Event a) <=? Ts (Event b))%float eqn:E; [done|].
    apply not_fle_flt in E; [|by apply not_nan_refl..].
    unfold lessTs in Hab. congruence.
Qed.

Lemma onThread_not_nan tid events :
  Forall (fun e => is_nan (Ts e) = false) events ->
  Forall (fun a => is_nan (Ts (Event a)) = false) (onThread tid events).
Proof.
  intros Hnan. unfold onThread. apply Forall_forall.
  intros b Hb%list_elem_of_In. apply in_map_iff in Hb as (e & <- & He).
  apply filter_In in He as [He _]. apply filter_In in He as [He _].
  rewrite Forall_forall in Hnan. by apply Hnan, list_elem_of_In.
Qed.

End Threads.

Section ThreadsOfTrace.

Variable sort_Slice :
  (eventWithEnd -> eventWithEnd -> bool) -> list eventWithEnd -> list eventWithEnd.

Hypothesis sort_Slice_contract : sortsSlices sort_Slice.

Variable sched : list nat.

Lemma sortedThreads_lookup traceData tid l :
  sortedThreads sort_Slice traceData !! tid = Some l ->
  l ≡ₚ onThread tid (TraceEvents traceData) /\ l <> [] /\
  (Forall (fun a => is_nan (Ts (Event a)) = false) (onThread tid (TraceEvents traceData)) ->
   startsInOrder l).
Proof.
  unfold sortedThreads. rewrite lookup_fmap, groupByThread_lookup.
  destruct (onThread tid (TraceEvents traceData)) as [|a l0] eqn:Hon; [done|].
  intros [= <-].
  destruct (sort_Slice_contract lessTs (a :: l0)) as [Hperm Hsorted].
  split; [done|]. split.
  { intros Hnil. rewrite Hnil in Hperm. by apply Permutation_nil_cons in Hperm. }
  intros Hnan. apply sorted_startsInOrder; [by rewrite Hperm|].
  by apply Hsorted, lessTs_strictWeakOrder.
Qed.

(** X17.  The threads of a trace.  With a [sort.Slice] that meets its
    contract, [ConvertTrace] starts a worker for a thread id exactly when
    some kept event has it as the [int64] of its [tid] field; the worker is
    handed the kept events of that id, each once and with [Ts + Dur] as its
    end; and when no [Ts] of these events is NaN, so that [<] is an ordering
    of them, they are handed over in order of start.  With a NaN among them
    nothing is known of their order. *)
Theorem ConvertTrace_threads traceData tid :
  let events := TraceEvents traceData in
  let threads := sortedThreads sort_Slice traceData in
  (threads !! tid = None <-> onThread tid events = []) /\
  (forall l, threads !! tid = Some l ->
     l ≡ₚ onThread tid events /\ l <> [] /\
     (Forall (fun a => is_nan (Ts (Event a)) = false) (onThread tid events) ->
      startsInOrder l)).
Proof.
  intros events threads. split; [|apply sortedThreads_lookup].
  unfold threads, sortedThreads, events.
  rewrite lookup_fmap, groupByThread_lookup.
  by destruct (onThread tid (TraceEvents traceData)).
Qed.

(** X18.  No stack across threads, and nested stacks.  With a [sort.Slice]
    that meets its contract and a trace in which no [Ts] is NaN, whatever
    the schedule of the workers: the frames of every sample the results
    channel carries are kept events of one thread, the last of them the
    event whose duration the sample has, and each frame starts no later and
    ends no earlier than every frame after it. *)
Theorem ConvertTrace_stacks_nested traceData x :
  Forall (fun e => is_nan (Ts e) = false) (TraceEvents traceData) ->
  x ∈ received sort_Slice sched traceData ->
  exists tid ancestors e,
    stackSample_names x = map (fun a => Name (Event a)) (ancestors ++ [e]) /\
    stackSample_cats x = map (fun a => Cat (Event a)) (ancestors ++ [e]) /\
    stackSample_timeNs x = int64_of_float (Dur (Event e) * 1000)%float /\
    Forall (fun a => a ∈ onThread tid (TraceEvents traceData)) (ancestors ++ [e]) /\
    StronglySorted (fun a b => contains a b = true) (ancestors ++ [e]).
Proof.
  intros Hnan. unfold received. rewrite interleave_Permutation.
  intros Hx%list_elem_of_In. apply in_concat in Hx as (out & Hout & Hx).
  unfold workerOutputs in Hout. apply in_map_iff in Hout as ([tid l] & <- & Hte).
  apply list_elem_of_In, elem_of_map_to_list in Hte. simpl in Hx.
  destruct (sortedThreads_lookup _ _ _ Hte) as (Hperm & _ & Hstart).
  specialize (Hstart (onThread_not_nan _ _ Hnan)).
  apply list_elem_of_In, list_elem_of_lookup in Hx as [i Hi].
  pose proof (lookup_lt_Some _ _ _ Hi) as Hlt.
  unfold ProcessThreadEvents in Hlt. rewrite processEvents_length in Hlt.
  destruct (lookup_lt_is_Some_2 l i Hlt) as [e He].
  pose proof (take_drop_middle l i e He) as Hl.
  assert (length (take i l) = i) as Hlen by (rewrite length_take; lia).
  destruct (processEvents_sample_at (take i l) e (drop (S i) l))
    as (x' & ancestors & Hx' & Hn & Hc & _ & Ht & Hsub & Hs).
  rewrite Hl, Hlen, Hi in Hx'. injection Hx' as <-.
  assert ((ancestors ++ [e]) `sublist_of` l) as Hsubl.
  { rewrite <- Hl. apply sublist_app; [done|]. apply sublist_skip, sublist_nil_l. }
  exists tid, ancestors, e. split_and!; try done.
  - apply Forall_forall. intros a Ha. rewrite <- Hperm. by eapply elem_of_sublist.
  - apply chain_nested; [done|]. by eapply StronglySorted_sublist.
Qed.

End ThreadsOfTrace.

(** * The further properties, at the example traces and builds *)

Section FurtherExamples.

Open Scope string_scope.

Lemma GetSorted_tables_witness :
  let a := AnalyzeTrace testTrace in
  let cs := GetSortedCategories (fun A => @insertionSort A) a in
  NoDup (map CategoryEntry_Name cs) /\
  (forall entry,
     entry ∈ cs <->
     statsOf (ofCategory (CategoryEntry_Name entry) (TraceEvents testTrace)) =
       Some (CategoryEntry_Count entry, CategoryEntry_TimeNs entry)) /\
  StronglySorted (fun x y => CategoryEntry_TimeNs y <= CategoryEntry_TimeNs x) cs /\
  sumZ (map CategoryEntry_Count cs) = ConvertedEvents a /\
  sumInt64 (map CategoryEntry_TimeNs cs) = TotalTimeNs a.
Proof.
  exact (proj1 (GetSorted_tables (fun A => @insertionSort A)
                  (fun A => @insertionSort_sortsSlices A) testTrace)).
Defined.

(** The two tables of the test trace. *)
Example GetSorted_testTrace :
  let a := AnalyzeTrace testTrace in
  GetSortedCategories (fun A => @insertionSort A) a =
    [ {| CategoryEntry_Name := "cat1"; CategoryEntry_Count := 2;
         CategoryEntry_TimeNs := 80000 |};
      {| CategoryEntry_Name := "cat2"; CategoryEntry_Count := 1;
         CategoryEntry_TimeNs := 20000 |} ] /\
  map OperationEntry_Name (GetSortedOperations (fun A => @insertionSort A) a) =
    ["op1"; "op2"; "op3"].
Proof. split; vm_compute; reflexivity. Qed.

Lemma ConvertTrace_total_count_witness :
  let samples := Profile_Sample (ConvertTrace insertionSort [1%nat] testTrace) in
  let n := len (kept (TraceEvents testTrace)) in
  sumInt64 (map sampleCount samples) = int64 n /\
  (n < 2 ^ 63 ->
   sumZ (map sampleCount samples) = n /\
   Forall (fun s => 1 <= sampleCount s) samples).
Proof.
  exact (ConvertTrace_total_count insertionSort
           (fun less l => insertionSort_Permutation less l) [1%nat] testTrace).
Defined.

Lemma AnalyzeTrace_agrees_with_ConvertTrace_witness :
  let samples := Profile_Sample (ConvertTrace insertionSort [1%nat] testTrace) in
  let a := AnalyzeTrace testTrace in
  TotalTimeNs a = sumInt64 (map sampleDuration samples) /\
  int64 (ConvertedEvents a) = sumInt64 (map sampleCount samples).
Proof.
  exact (AnalyzeTrace_agrees_with_ConvertTrace insertionSort
           (fun less l => insertionSort_Permutation less l) [1%nat] testTrace).
Defined.

(** The sample of [B] in the nested thread: [A] around [B]. *)
Definition sampleB : stackSample :=
  {| stackSample_stack := [frameKey "A" "c"; frameKey "B" "c"];
     stackSample_names := ["A"; "B"];
     stackSample_cats := ["c"; "c"];
     stackSample_timeNs := 10000 |}.

Lemma ProcessThreadEvents_nested_witness :
  exists ancestors,
    stackSample_names sampleB =
      map (fun a => Name (Event a)) (ancestors ++ [eventB])%list /\
    stackSample_cats sampleB =
      map (fun a => Cat (Event a)) (ancestors ++ [eventB])%list /\
    ancestors `sublist_of` [eventA; eventC] /\
    StronglySorted (fun a b => contains a b = true) (ancestors ++ [eventB])%list.
Proof.
  apply (ProcessThreadEvents_nested [eventA; eventC] eventB [] sampleB).
  - repeat constructor.
  - vm_compute. reflexivity.
Defined.

Lemma Builder_references_valid_witness :
  let pb := shared laterEnd in
  (forall fn, fn ∈ functions pb ->
     Function_SystemName fn = Function_Name fn /\
     0 <= Function_Name fn < len (stringTable pb) /\
     0 <= Function_Filename fn < len (stringTable pb)) /\
  (forall loc, loc ∈ locations pb ->
     exists fid fn,
       Location_Line loc = [ {| Line_FunctionId := fid; Line_Line := 0 |} ] /\
       findFunction (Build pb) fid = Some fn /\ Function_Id fn = fid) /\
  (forall vt, vt ∈ Profile_SampleType (Build pb) ->
     0 <= ValueType_Type vt < len (stringTable pb) /\
     0 <= ValueType_Unit vt < len (stringTable pb)) /\
  (forall vt, Profile_PeriodType (Build pb) = Some vt ->
     0 <= ValueType_Type vt < len (stringTable pb) /\
     0 <= ValueType_Unit vt < len (stringTable pb)).
Proof.
  exact (Builder_references_valid laterStart laterEnd laterStart_reachable later_steps).
Defined.

Lemma GetOrCreate_share_function_witness :
  (let '(lid, pb1) := GetOrCreateLocation NewBuilder "op" "cat" in
   let '(fid, pb2) := GetOrCreateFunction pb1 "op" "cat" in
   pb2 = pb1 /\
   exists loc,
     findLocation (Build pb1) lid = Some loc /\
     Location_Line loc = [ {| Line_FunctionId := fid; Line_Line := 0 |} ]) /\
  (let '(fid, pb1) := GetOrCreateFunction NewBuilder "op" "cat" in
   let '(lid, pb2) := GetOrCreateLocation pb1 "op" "cat" in
   functions pb2 = functions pb1 /\
   exists loc,
     findLocation (Build pb2) lid = Some loc /\
     Location_Line loc = [ {| Line_FunctionId := fid; Line_Line := 0 |} ]).
Proof.
  exact (GetOrCreate_share_function NewBuilder "op" "cat" reachable_NewBuilder).
Defined.

Lemma AddString_index_roundtrip_witness :
  (forall s idx, (CallAddString s, idx) ∈ returned laterEnd ->
     0 <= idx /\ stringTable (shared laterEnd) !! Z.to_nat idx = Some s) /\
  (forall idx, (CallAddString EmptyString, idx) ∈ returned laterEnd -> idx = 0) /\
  (forall s1 s2 idx1 idx2,
     (CallAddString s1, idx1) ∈ returned laterEnd ->
     (CallAddString s2, idx2) ∈ returned laterEnd ->
     (idx1 = idx2 <-> s1 = s2)).
Proof.
  exact (AddString_index_roundtrip laterStart laterEnd laterStart_reachable eq_refl
           later_steps).
Defined.

Lemma setters_name_value_types_witness :
  (let pb' := SetSampleTypes NewBuilder [("samples", "count"); ("time", "nanoseconds")] in
   exists vts,
     Profile_SampleType (Build pb') = (Profile_SampleType (Build NewBuilder) ++ vts)%list /\
     Forall2 (namesValueType pb') [("samples", "count"); ("time", "nanoseconds")] vts /\
     stringTable NewBuilder `prefix_of` stringTable pb' /\
     frameTables pb' = frameTables NewBuilder /\
     Profile_Sample (Build pb') = Profile_Sample (Build NewBuilder) /\
     Profile_PeriodType (Build pb') = Profile_PeriodType (Build NewBuilder) /\
     Profile_Period (Build pb') = Profile_Period (Build NewBuilder)) /\
  (let pb' := SetPeriodType NewBuilder "cpu" "nanoseconds" in
   exists vt,
     Profile_PeriodType (Build pb') = Some vt /\
     namesValueType pb' ("cpu", "nanoseconds") vt /\
     stringTable NewBuilder `prefix_of` stringTable pb' /\
     frameTables pb' = frameTables NewBuilder /\
     Profile_Sample (Build pb') = Profile_Sample (Build NewBuilder) /\
     Profile_SampleType (Build pb') = Profile_SampleType (Build NewBuilder) /\
     Profile_Period (Build pb') = Profile_Period (Build NewBuilder)).
Proof.
  exact (setters_name_value_types [("samples", "count"); ("time", "nanoseconds")]
           "cpu" "nanoseconds" NewBuilder reachable_NewBuilder).
Defined.

Lemma encodeVarint_shape_witness :
  exists init final,
    encodeVarint 300 = (init ++ [final])%list /\
    Forall (fun b => 128 <= b < 256) init /\
    0 <= final < 128 /\
    (300 < 128 -> encodeVarint 300 = [300]) /\
    (300 < 2 ^ 64 -> (length (encodeVarint 300) <= 10)%nat) /\
    (forall rest, decodeVarint (encodeVarint 300 ++ rest) = Some (300, rest)).
Proof. apply (encodeVarint_shape 300). lia. Defined.

(** 300 takes the two bytes of the protobuf documentation. *)
Example encodeVarint_300 : encodeVarint 300 = [172; 2].
Proof. vm_compute. reflexivity. Qed.

(** The profile of the test trace. *)
Definition testProfile : Profile := ConvertTrace insertionSort [1%nat] testTrace.

Lemma testProfile_value :
  testProfile =
  {| Profile_SampleType :=
       [ {| ValueType_Type := 1; ValueType_Unit := 2 |};
         {| ValueType_Type := 3; ValueType_Unit := 4 |} ];
     Profile_Sample :=
       [ {| Sample_LocationId := [2]; Sample_Value := [1; 20000] |};
         {| Sample_LocationId := [3; 1]; Sample_Value := [1; 30000] |};
         {| Sample_LocationId := [1]; Sample_Value := [1; 50000] |} ];
     Profile_Location :=
       [ {| Location_Id := 1;
            Location_Line := [ {| Line_FunctionId := 1; Line_Line := 0 |} ] |};
         {| Location_Id := 2;
            Location_Line := [ {| Line_FunctionId := 2; Line_Line := 0 |} ] |};
         {| Location_Id := 3;
            Location_Line := [ {| Line_FunctionId := 3; Line_Line := 0 |} ] |} ];
     Profile_Function :=
       [ {| Function_Id := 1; Function_Name := 6; Function_SystemName := 6;
            Function_Filename := 7 |};
         {| Function_Id := 2; Function_Name := 8; Function_SystemName := 8;
            Function_Filename := 9 |};
         {| Function_Id := 3; Function_Name := 10; Function_SystemName := 10;
            Function_Filename := 7 |} ];
     Profile_StringTable :=
       [ EmptyString; "samples"; "count"; "time"; "nanoseconds"; "cpu"; "op1"; "cat1";
         "op3"; "cat2"; "op2" ];
     Profile_TimeNanos := 0;
     Profile_DurationNanos := 0;
     Profile_PeriodType := Some {| ValueType_Type := 5; ValueType_Unit := 4 |};
     Profile_Period := 1000000 |}.
Proof. vm_compute. reflexivity. Qed.

Lemma testProfile_typed : typedProfile testProfile.
Proof.
  rewrite testProfile_value.
  unfold typedProfile, typedValueType, typedSample, typedLocation, typedLine,
    typedFunction, isInt64, isUint64.
  cbn [Profile_SampleType Profile_Sample Profile_Location Profile_Function
       Profile_TimeNanos Profile_DurationNanos Profile_PeriodType Profile_Period].
  split_and!; try lia.
  - repeat constructor; cbn; lia.
  - repeat constructor; cbn; lia.
  - repeat constructor; cbn; lia.
  - repeat constructor; cbn; lia.
  - intros vt [= <-]. cbn. lia.
Qed.

Lemma Encode_loses_nothing_witness :
  decodeProfile (Encode testProfile) = Some testProfile /\
  forall q, typedProfile q -> Encode q = Encode testProfile -> q = testProfile.
Proof. exact (Encode_loses_nothing testProfile testProfile_typed). Defined.

Lemma ConvertTrace_threads_witness :
  let events := TraceEvents testTrace in
  let threads := sortedThreads insertionSort testTrace in
  (threads !! 1 = None <-> onThread 1 events = []) /\
  (forall l, threads !! 1 = Some l ->
     l ≡ₚ onThread 1 events /\ l <> [] /\
     (Forall (fun a => is_nan (Ts (Event a)) = false) (onThread 1 events) ->
      startsInOrder l)).
Proof. exact (ConvertTrace_threads insertionSort insertionSort_sortsSlices testTrace 1). Defined.

(** The sample of [op2] in the test trace: [op1] around [op2]. *)
Definition sampleOp2 : stackSample :=
  {| stackSample_stack := [frameKey "op1" "cat1"; frameKey "op2" "cat1"];
     stackSample_names := ["op1"; "op2"];
     stackSample_cats := ["cat1"; "cat1"];
     stackSample_timeNs := 30000 |}.

Lemma ConvertTrace_stacks_nested_witness :
  exists tid ancestors e,
    stackSample_names sampleOp2 = map (fun a => Name (Event a)) (ancestors ++ [e])%list /\
    stackSample_cats sampleOp2 = map (fun a => Cat (Event a)) (ancestors ++ [e])%list /\
    stackSample_timeNs sampleOp2 = int64_of_float (Dur (Event e) * 1000)%float /\
    Forall (fun a => a ∈ onThread tid (TraceEvents testTrace)) (ancestors ++ [e])%list /\
    StronglySorted (fun a b => contains a b = true) (ancestors ++ [e])%list.
Proof.
  apply (ConvertTrace_stacks_nested insertionSort insertionSort_sortsSlices [1%nat]
           testTrace sampleOp2).
  - repeat constructor.
  - apply list_elem_of_In. vm_compute. right. right. left. reflexivity.
Defined.

End FurtherExamples.
